(** * Linguist Live: audio pipeline, playback scheduler, turn aggregator
      and session lifecycle of [App.tsx]

    A shallow embedding of the session controller of the main [App]
    component (the [disconnect] and [connect] callbacks and the transport
    callbacks [onopen], [onmessage], [onerror], [onclose]) together with the
    part of the browser it drives: audio contexts, buffer source nodes, the
    transport session and the microphone stream.

    Conventions.
    - A JavaScript string is a sequence of UTF-16 code units; the embedding
      covers the code units 0..255 (Rocq's [ascii]), on which [trim],
      [toLowerCase], [includes] and the noise-marker [replace] are modelled
      exactly.
    - A JavaScript number used as a time or as a sample is a rational [Q];
      the rounding of IEEE doubles is not modelled.
    - A handler runs to completion before the next event is handled (the
      awaited decode does not interleave with other events).
    - Every [connect] call installs callbacks of its own; the message
      handler is given the output context that call created, to which the
      analyser it closes over belongs. *)

From Stdlib Require Import ZArith QArith Qround Qabs Lqa String Ascii List Bool Lia.
From stdpp Require Import base option gmap sets strings pretty.
Import ListNotations.

Close Scope Q_scope.
Local Open Scope string_scope.
Local Open Scope list_scope.
Local Open Scope Z_scope.

(* ===================================================================== *)
(** ** JavaScript strings *)
(* ===================================================================== *)

Module Js.

(** White space removed by [String.prototype.trim], within 0..255:
    TAB, LF, VT, FF, CR, SPACE and NO-BREAK SPACE. *)
Definition is_white_space (c : ascii) : bool :=
  let n := nat_of_ascii c in
  ((9 <=? n)%nat && (n <=? 13)%nat) || (n =? 32)%nat || (n =? 160)%nat.

Fixpoint trimStart (s : string) : string :=
  match s with
  | EmptyString => EmptyString
  | String c r => if is_white_space c then trimStart r else s
  end.

Fixpoint trimEnd (s : string) : string :=
  match s with
  | EmptyString => EmptyString
  | String c r =>
      match trimEnd r with
      | EmptyString => if is_white_space c then EmptyString else String c EmptyString
      | r' => String c r'
      end
  end.

(** [s.trim()] *)
Definition trim (s : string) : string := trimEnd (trimStart s).

(** Truthiness of a string value: only the empty string is falsy. *)
Definition truthy (s : string) : bool :=
  match s with EmptyString => false | _ => true end.

(** [x || ''] for an optional string. *)
Definition or_empty (o : option string) : string :=
  match o with
  | Some s => if truthy s then s else ""
  | None => ""
  end.

(** [toLowerCase] on one code unit of 0..255: A-Z and the Latin-1 capitals
    (0xC0-0xDE except the multiplication sign 0xD7) move up by 32. *)
Definition lower_char (c : ascii) : ascii :=
  let n := nat_of_ascii c in
  if ((65 <=? n)%nat && (n <=? 90)%nat)
     || ((192 <=? n)%nat && (n <=? 222)%nat && negb (n =? 215)%nat)
  then ascii_of_nat (n + 32) else c.

Fixpoint toLowerCase (s : string) : string :=
  match s with
  | EmptyString => EmptyString
  | String c r => String (lower_char c) (toLowerCase r)
  end.

Fixpoint startsWith (p s : string) : bool :=
  match p, s with
  | EmptyString, _ => true
  | String a p', String b s' => Ascii.eqb a b && startsWith p' s'
  | String _ _, EmptyString => false
  end.

(** [s.includes(p)] *)
Fixpoint includes (s p : string) : bool :=
  startsWith p s
  || match s with
     | EmptyString => false
     | String _ r => includes r p
     end.

(** Case folding of the [i] flag of a regular expression without the [u]
    flag: a code unit is compared by its upper case, and a code unit above
    127 never folds onto an ASCII one; the patterns below are ASCII, so
    only a-z need folding. *)
Definition canonicalize (c : ascii) : ascii :=
  let n := nat_of_ascii c in
  if (97 <=? n)%nat && (n <=? 122)%nat then ascii_of_nat (n - 32) else c.

Fixpoint startsWith_i (p s : string) : bool :=
  match p, s with
  | EmptyString, _ => true
  | String a p', String b s' =>
      Ascii.eqb (canonicalize a) (canonicalize b) && startsWith_i p' s'
  | String _ _, EmptyString => false
  end.

(** The alternation [<noise>|\[noise\]] tried at the head of [s]. *)
Definition noise_at (s : string) : bool :=
  startsWith_i "<noise>" s || startsWith_i "[noise]" s.

(** [s.replace(/<noise>|\[noise\]/gi, '')]: scan from the left; at a match
    drop its seven code units and go on after it ([skip] counts the code
    units of the current match that are still to be dropped). *)
Fixpoint replace_noise_from (skip : nat) (s : string) : string :=
  match s with
  | EmptyString => EmptyString
  | String c r =>
      match skip with
      | S k => replace_noise_from k r
      | O => if noise_at s then replace_noise_from 6 r
             else String c (replace_noise_from 0 r)
      end
  end.

Definition replace_noise (s : string) : string := replace_noise_from 0 s.

End Js.

(* ===================================================================== *)
(** ** The PCM codec of [services/audioUtils] *)
(* ===================================================================== *)

Module AudioUtils.

(** Modelled from the spec: the constant of [services/audioUtils] (absent
    from the sources) that section 4.1 calls the maximum signed 16-bit
    magnitude and section 4.2 the maximum magnitude; it is read as the
    largest value of a signed 16-bit integer. *)
Definition INT16_MAX : Z := 32767.

(** [Math.max(-1, Math.min(1, x))] *)
Definition clamp (x : Q) : Q :=
  if Qle_bool x (-1) then (-1)%Q else if Qle_bool 1 x then 1%Q else x.

(** [Math.round]: the nearest integer, a half rounding up. *)
Definition round (x : Q) : Z := Qfloor (x + (1 # 2))%Q.

(** The two bytes of a 16-bit two's complement value, low byte first. *)
Definition int16_to_le_bytes (z : Z) : list Z :=
  let u := z mod 65536 in [Z.land u 255; Z.shiftr u 8].

(** The signed 16-bit value of two bytes, low byte first. *)
Definition int16_of_le_bytes (lo hi : Z) : Z :=
  let u := Z.lor lo (Z.shiftl hi 8) in
  if u <? 32768 then u else u - 65536.

(** Modelled from the spec: one sample of [createPcmBlob] of
    [services/audioUtils] (absent from the sources), section 4.1: clamp to
    [-1, 1], scale by the maximum signed 16-bit magnitude, round to the
    nearest integer, pack as a little-endian signed 16-bit integer. *)
Definition encode_sample (x : Q) : list Z :=
  int16_to_le_bytes (round (clamp x * inject_Z INT16_MAX)%Q).

(** Modelled from the spec: the byte buffer of [createPcmBlob] (absent from
    the sources): the samples' encodings, contiguous. The media-type tag
    that accompanies the buffer is not modelled. *)
Definition createPcmBlob (data : list Q) : list Z :=
  flat_map encode_sample data.

(** Modelled from the spec: the reinterpretation of raw bytes as signed
    little-endian 16-bit integers in [decodeAudioData] (absent from the
    sources), section 4.2; a truncated buffer (odd byte count) fails. *)
Fixpoint int16_samples (bytes : list Z) : option (list Z) :=
  match bytes with
  | [] => Some []
  | lo :: hi :: rest =>
      match int16_samples rest with
      | Some l => Some (int16_of_le_bytes lo hi :: l)
      | None => None
      end
  | [_] => None
  end.

(** Modelled from the spec: the normalisation of [decodeAudioData]: each
    integer divided by the maximum magnitude. *)
Definition normalize (z : Z) : Q := (inject_Z z / inject_Z INT16_MAX)%Q.

Record AudioBuffer := mkAudioBuffer {
  channelData : list Q;
  sampleRate : Z
}.

(** [audioBuffer.duration]: sample count over sample rate, in seconds. *)
Definition duration (b : AudioBuffer) : Q :=
  (inject_Z (Z.of_nat (length (channelData b))) / inject_Z (sampleRate b))%Q.

(** Modelled from the spec: [decodeAudioData(bytes, ctx, rate, 1)] of
    [services/audioUtils] (absent from the sources), section 4.2; [None] is
    the DecodeError. *)
Definition decodeAudioData (bytes : list Z) (rate : Z) : option AudioBuffer :=
  match int16_samples bytes with
  | Some l => Some (mkAudioBuffer (map normalize l) rate)
  | None => None
  end.

Definition sextet (c : ascii) : option Z :=
  let n := Z.of_nat (nat_of_ascii c) in
  if (65 <=? n) && (n <=? 90) then Some (n - 65)
  else if (97 <=? n) && (n <=? 122) then Some (n - 71)
  else if (48 <=? n) && (n <=? 57) then Some (n + 4)
  else if n =? 43 then Some 62
  else if n =? 47 then Some 63
  else None.

Definition is_pad (c : ascii) : bool := Ascii.eqb c "=".

Definition is_empty (s : string) : bool :=
  match s with EmptyString => true | _ => false end.

(** Modelled from the spec: [decodeFromBase64] of [services/audioUtils]
    (absent from the sources), the transport decoding of section 4.2, as
    padded base64 (RFC 4648): groups of four characters, [=] padding only in
    the last group; [None] is the DecodeError on malformed input. *)
Fixpoint decodeFromBase64 (s : string) : option (list Z) :=
  match s with
  | EmptyString => Some []
  | String a (String b (String c (String d r))) =>
      match sextet a, sextet b with
      | Some x, Some y =>
          if is_pad c then
            if is_pad d && is_empty r then Some [x * 4 + y / 16] else None
          else
            match sextet c with
            | Some z =>
                if is_pad d then
                  if is_empty r
                  then Some [x * 4 + y / 16; (y mod 16) * 16 + z / 4]
                  else None
                else
                  match sextet d, decodeFromBase64 r with
                  | Some w, Some l =>
                      Some (x * 4 + y / 16 :: (y mod 16) * 16 + z / 4
                            :: (z mod 4) * 64 + w :: l)
                  | _, _ => None
                  end
            | None => None
            end
      | _, _ => None
      end
  | _ => None
  end.

End AudioUtils.

(* ===================================================================== *)
(** ** Data model ([types.ts]) and the browser objects the session owns *)
(* ===================================================================== *)

Inductive SessionStatus := DISCONNECTED | CONNECTING | CONNECTED | ERROR.

Inductive Role := user | model.

Inductive MessageType := chat | correction | tip.

Record Message := mkMessage {
  msg_id : string;
  msg_role : Role;
  msg_text : string;
  msg_type : MessageType;
  msg_timestamp : Z
}.

(** An [AudioContext]: its own clock, which starts at 0 and stops when
    the context is closed. *)
Record AudioContext := mkAudioContext {
  ctx_sampleRate : Z;
  currentTime : Q;
  ctx_closed : bool
}.

(** An [AudioBufferSourceNode]: the buffer assigned to it, the time given
    to [start] and the time at which [stop] took effect, on the clock of
    its context. *)
Record AudioBufferSourceNode := mkSourceNode {
  node_context : nat;
  buffer : option AudioUtils.AudioBuffer;
  started : option Q;
  stopped : option Q
}.

(** The component's state: the [useState] cells, the [useRef] cells, and
    the browser objects reachable from them, each named by a number. *)
Record State := mkState {
  status : SessionStatus;
  messages : list Message;
  currentInput : string;
  currentOutput : string;
  error : option string;
  inputAudioContextRef : option nat;
  outputAudioContextRef : option nat;
  inputAnalyserRef : option nat;
  outputAnalyserRef : option nat;
  sourcesRef : gset nat;
  nextStartTimeRef : Q;
  sessionRef : option nat;
  next_object : nat;
  audio_contexts : gmap nat AudioContext;
  source_nodes : gmap nat AudioBufferSourceNode;
  live_sessions : gmap nat bool;
  media_streams : gmap nat bool
}.

(** The state of a freshly mounted component. *)
Definition initial_state : State :=
  {| status := DISCONNECTED; messages := []; currentInput := "";
     currentOutput := ""; error := None;
     inputAudioContextRef := None; outputAudioContextRef := None;
     inputAnalyserRef := None; outputAnalyserRef := None;
     sourcesRef := ∅; nextStartTimeRef := 0%Q; sessionRef := None;
     next_object := 0%nat; audio_contexts := ∅; source_nodes := ∅;
     live_sessions := ∅; media_streams := ∅ |}.

Definition set_status (v : SessionStatus) (s : State) : State :=
  {| status := v; messages := messages s; currentInput := currentInput s;
     currentOutput := currentOutput s; error := error s;
     inputAudioContextRef := inputAudioContextRef s; outputAudioContextRef
     := outputAudioContextRef s; inputAnalyserRef := inputAnalyserRef s;
     outputAnalyserRef := outputAnalyserRef s; sourcesRef := sourcesRef s;
     nextStartTimeRef := nextStartTimeRef s; sessionRef := sessionRef s;
     next_object := next_object s; audio_contexts := audio_contexts s;
     source_nodes := source_nodes s; live_sessions := live_sessions s;
     media_streams := media_streams s |}.

Definition set_messages (v : list Message) (s : State) : State :=
  {| status := status s; messages := v; currentInput := currentInput s;
     currentOutput := currentOutput s; error := error s;
     inputAudioContextRef := inputAudioContextRef s; outputAudioContextRef
     := outputAudioContextRef s; inputAnalyserRef := inputAnalyserRef s;
     outputAnalyserRef := outputAnalyserRef s; sourcesRef := sourcesRef s;
     nextStartTimeRef := nextStartTimeRef s; sessionRef := sessionRef s;
     next_object := next_object s; audio_contexts := audio_contexts s;
     source_nodes := source_nodes s; live_sessions := live_sessions s;
     media_streams := media_streams s |}.

Definition set_currentInput (v : string) (s : State) : State :=
  {| status := status s; messages := messages s; currentInput := v;
     currentOutput := currentOutput s; error := error s;
     inputAudioContextRef := inputAudioContextRef s; outputAudioContextRef
     := outputAudioContextRef s; inputAnalyserRef := inputAnalyserRef s;
     outputAnalyserRef := outputAnalyserRef s; sourcesRef := sourcesRef s;
     nextStartTimeRef := nextStartTimeRef s; sessionRef := sessionRef s;
     next_object := next_object s; audio_contexts := audio_contexts s;
     source_nodes := source_nodes s; live_sessions := live_sessions s;
     media_streams := media_streams s |}.

Definition set_currentOutput (v : string) (s : State) : State :=
  {| status := status s; messages := messages s; currentInput :=
     currentInput s; currentOutput := v; error := error s;
     inputAudioContextRef := inputAudioContextRef s; outputAudioContextRef
     := outputAudioContextRef s; inputAnalyserRef := inputAnalyserRef s;
     outputAnalyserRef := outputAnalyserRef s; sourcesRef := sourcesRef s;
     nextStartTimeRef := nextStartTimeRef s; sessionRef := sessionRef s;
     next_object := next_object s; audio_contexts := audio_contexts s;
     source_nodes := source_nodes s; live_sessions := live_sessions s;
     media_streams := media_streams s |}.

Definition set_error (v : option string) (s : State) : State :=
  {| status := status s; messages := messages s; currentInput :=
     currentInput s; currentOutput := currentOutput s; error := v;
     inputAudioContextRef := inputAudioContextRef s; outputAudioContextRef
     := outputAudioContextRef s; inputAnalyserRef := inputAnalyserRef s;
     outputAnalyserRef := outputAnalyserRef s; sourcesRef := sourcesRef s;
     nextStartTimeRef := nextStartTimeRef s; sessionRef := sessionRef s;
     next_object := next_object s; audio_contexts := audio_contexts s;
     source_nodes := source_nodes s; live_sessions := live_sessions s;
     media_streams := media_streams s |}.

Definition set_inputAudioContextRef (v : option nat) (s : State) : State :=
  {| status := status s; messages := messages s; currentInput :=
     currentInput s; currentOutput := currentOutput s; error := error s;
     inputAudioContextRef := v; outputAudioContextRef :=
     outputAudioContextRef s; inputAnalyserRef := inputAnalyserRef s;
     outputAnalyserRef := outputAnalyserRef s; sourcesRef := sourcesRef s;
     nextStartTimeRef := nextStartTimeRef s; sessionRef := sessionRef s;
     next_object := next_object s; audio_contexts := audio_contexts s;
     source_nodes := source_nodes s; live_sessions := live_sessions s;
     media_streams := media_streams s |}.

Definition set_outputAudioContextRef (v : option nat) (s : State) : State :=
  {| status := status s; messages := messages s; currentInput :=
     currentInput s; currentOutput := currentOutput s; error := error s;
     inputAudioContextRef := inputAudioContextRef s; outputAudioContextRef
     := v; inputAnalyserRef := inputAnalyserRef s; outputAnalyserRef :=
     outputAnalyserRef s; sourcesRef := sourcesRef s; nextStartTimeRef :=
     nextStartTimeRef s; sessionRef := sessionRef s; next_object :=
     next_object s; audio_contexts := audio_contexts s; source_nodes :=
     source_nodes s; live_sessions := live_sessions s; media_streams :=
     media_streams s |}.

Definition set_inputAnalyserRef (v : option nat) (s : State) : State :=
  {| status := status s; messages := messages s; currentInput :=
     currentInput s; currentOutput := currentOutput s; error := error s;
     inputAudioContextRef := inputAudioContextRef s; outputAudioContextRef
     := outputAudioContextRef s; inputAnalyserRef := v; outputAnalyserRef :=
     outputAnalyserRef s; sourcesRef := sourcesRef s; nextStartTimeRef :=
     nextStartTimeRef s; sessionRef := sessionRef s; next_object :=
     next_object s; audio_contexts := audio_contexts s; source_nodes :=
     source_nodes s; live_sessions := live_sessions s; media_streams :=
     media_streams s |}.

Definition set_outputAnalyserRef (v : option nat) (s : State) : State :=
  {| status := status s; messages := messages s; currentInput :=
     currentInput s; currentOutput := currentOutput s; error := error s;
     inputAudioContextRef := inputAudioContextRef s; outputAudioContextRef
     := outputAudioContextRef s; inputAnalyserRef := inputAnalyserRef s;
     outputAnalyserRef := v; sourcesRef := sourcesRef s; nextStartTimeRef :=
     nextStartTimeRef s; sessionRef := sessionRef s; next_object :=
     next_object s; audio_contexts := audio_contexts s; source_nodes :=
     source_nodes s; live_sessions := live_sessions s; media_streams :=
     media_streams s |}.

Definition set_sourcesRef (v : gset nat) (s : State) : State :=
  {| status := status s; messages := messages s; currentInput :=
     currentInput s; currentOutput := currentOutput s; error := error s;
     inputAudioContextRef := inputAudioContextRef s; outputAudioContextRef
     := outputAudioContextRef s; inputAnalyserRef := inputAnalyserRef s;
     outputAnalyserRef := outputAnalyserRef s; sourcesRef := v;
     nextStartTimeRef := nextStartTimeRef s; sessionRef := sessionRef s;
     next_object := next_object s; audio_contexts := audio_contexts s;
     source_nodes := source_nodes s; live_sessions := live_sessions s;
     media_streams := media_streams s |}.

Definition set_nextStartTimeRef (v : Q) (s : State) : State :=
  {| status := status s; messages := messages s; currentInput :=
     currentInput s; currentOutput := currentOutput s; error := error s;
     inputAudioContextRef := inputAudioContextRef s; outputAudioContextRef
     := outputAudioContextRef s; inputAnalyserRef := inputAnalyserRef s;
     outputAnalyserRef := outputAnalyserRef s; sourcesRef := sourcesRef s;
     nextStartTimeRef := v; sessionRef := sessionRef s; next_object :=
     next_object s; audio_contexts := audio_contexts s; source_nodes :=
     source_nodes s; live_sessions := live_sessions s; media_streams :=
     media_streams s |}.

Definition set_sessionRef (v : option nat) (s : State) : State :=
  {| status := status s; messages := messages s; currentInput :=
     currentInput s; currentOutput := currentOutput s; error := error s;
     inputAudioContextRef := inputAudioContextRef s; outputAudioContextRef
     := outputAudioContextRef s; inputAnalyserRef := inputAnalyserRef s;
     outputAnalyserRef := outputAnalyserRef s; sourcesRef := sourcesRef s;
     nextStartTimeRef := nextStartTimeRef s; sessionRef := v; next_object :=
     next_object s; audio_contexts := audio_contexts s; source_nodes :=
     source_nodes s; live_sessions := live_sessions s; media_streams :=
     media_streams s |}.

Definition set_next_object (v : nat) (s : State) : State :=
  {| status := status s; messages := messages s; currentInput :=
     currentInput s; currentOutput := currentOutput s; error := error s;
     inputAudioContextRef := inputAudioContextRef s; outputAudioContextRef
     := outputAudioContextRef s; inputAnalyserRef := inputAnalyserRef s;
     outputAnalyserRef := outputAnalyserRef s; sourcesRef := sourcesRef s;
     nextStartTimeRef := nextStartTimeRef s; sessionRef := sessionRef s;
     next_object := v; audio_contexts := audio_contexts s; source_nodes :=
     source_nodes s; live_sessions := live_sessions s; media_streams :=
     media_streams s |}.

Definition set_audio_contexts (v : gmap nat AudioContext) (s : State) : State :=
  {| status := status s; messages := messages s; currentInput :=
     currentInput s; currentOutput := currentOutput s; error := error s;
     inputAudioContextRef := inputAudioContextRef s; outputAudioContextRef
     := outputAudioContextRef s; inputAnalyserRef := inputAnalyserRef s;
     outputAnalyserRef := outputAnalyserRef s; sourcesRef := sourcesRef s;
     nextStartTimeRef := nextStartTimeRef s; sessionRef := sessionRef s;
     next_object := next_object s; audio_contexts := v; source_nodes :=
     source_nodes s; live_sessions := live_sessions s; media_streams :=
     media_streams s |}.

Definition set_source_nodes (v : gmap nat AudioBufferSourceNode) (s : State) : State :=
  {| status := status s; messages := messages s; currentInput :=
     currentInput s; currentOutput := currentOutput s; error := error s;
     inputAudioContextRef := inputAudioContextRef s; outputAudioContextRef
     := outputAudioContextRef s; inputAnalyserRef := inputAnalyserRef s;
     outputAnalyserRef := outputAnalyserRef s; sourcesRef := sourcesRef s;
     nextStartTimeRef := nextStartTimeRef s; sessionRef := sessionRef s;
     next_object := next_object s; audio_contexts := audio_contexts s;
     source_nodes := v; live_sessions := live_sessions s; media_streams :=
     media_streams s |}.

Definition set_live_sessions (v : gmap nat bool) (s : State) : State :=
  {| status := status s; messages := messages s; currentInput :=
     currentInput s; currentOutput := currentOutput s; error := error s;
     inputAudioContextRef := inputAudioContextRef s; outputAudioContextRef
     := outputAudioContextRef s; inputAnalyserRef := inputAnalyserRef s;
     outputAnalyserRef := outputAnalyserRef s; sourcesRef := sourcesRef s;
     nextStartTimeRef := nextStartTimeRef s; sessionRef := sessionRef s;
     next_object := next_object s; audio_contexts := audio_contexts s;
     source_nodes := source_nodes s; live_sessions := v; media_streams :=
     media_streams s |}.

Definition set_media_streams (v : gmap nat bool) (s : State) : State :=
  {| status := status s; messages := messages s; currentInput :=
     currentInput s; currentOutput := currentOutput s; error := error s;
     inputAudioContextRef := inputAudioContextRef s; outputAudioContextRef
     := outputAudioContextRef s; inputAnalyserRef := inputAnalyserRef s;
     outputAnalyserRef := outputAnalyserRef s; sourcesRef := sourcesRef s;
     nextStartTimeRef := nextStartTimeRef s; sessionRef := sessionRef s;
     next_object := next_object s; audio_contexts := audio_contexts s;
     source_nodes := source_nodes s; live_sessions := live_sessions s;
     media_streams := v |}.

(* ===================================================================== *)
(** ** Handlers as computations with exceptions and early return *)
(* ===================================================================== *)

(** A thrown value: an [Error] instance with its message, or anything else. *)
Inductive Thrown := ErrorObject (message : string) | OtherValue.

(** How a piece of a handler ends: normally, by [return], or by [throw].
    The state reached so far is kept in all three cases. *)
Inductive Completion (A : Type) :=
  | Normal (a : A)
  | Return
  | Throw (e : Thrown).
Arguments Normal {A} a.
Arguments Return {A}.
Arguments Throw {A} e.

Definition Eff (A : Type) : Type := State -> Completion A * State.

Definition ret {A} (a : A) : Eff A := fun s => (Normal a, s).

Definition bind {A B} (m : Eff A) (k : A -> Eff B) : Eff B :=
  fun s =>
    match m s with
    | (Normal a, s') => k a s'
    | (Return, s') => (Return, s')
    | (Throw e, s') => (Throw e, s')
    end.

Definition throw {A} (e : Thrown) : Eff A := fun s => (Throw e, s).
Definition return_ {A} : Eff A := fun s => (Return, s).
Definition get {A} (f : State -> A) : Eff A := fun s => (Normal (f s), s).
Definition modify (f : State -> State) : Eff unit := fun s => (Normal tt, f s).

Declare Scope eff_scope.
Delimit Scope eff_scope with eff.
Bind Scope eff_scope with Eff.
Notation "x <- m ;; k" := (bind m (fun x => k))
  (at level 100, m at next level, k at level 200, right associativity) : eff_scope.
Notation "m ;; k" := (bind m (fun _ => k))
  (at level 100, k at level 200, right associativity) : eff_scope.
Local Open Scope eff_scope.

(** [try { body } catch (e) { handler e }] *)
Definition try_catch (body : Eff unit) (handler : Thrown -> Eff unit) : Eff unit :=
  fun s =>
    match body s with
    | (Throw e, s') => handler e s'
    | r => r
    end.

(** [try { body } catch (e) {}] *)
Definition try_ignore (body : Eff unit) : Eff unit :=
  try_catch body (fun _ => ret tt).

Fixpoint for_each (l : list nat) (f : nat -> Eff unit) : Eff unit :=
  match l with
  | [] => ret tt
  | x :: r => f x ;; for_each r f
  end.

(** [sourcesRef.current.forEach(f)] *)
Definition sources_forEach (f : nat -> Eff unit) : Eff unit :=
  l <- get (fun s => elements (sourcesRef s)) ;; for_each l f.

(** The state a handler leaves behind, however it ends: an exception that
    escapes an event handler is reported by the browser and the component
    lives on. *)
Definition run (h : Eff unit) (s : State) : State := snd (h s).

(* ===================================================================== *)
(** ** Browser operations *)
(* ===================================================================== *)

Definition fresh : Eff nat :=
  fun s => (Normal (next_object s), set_next_object (S (next_object s)) s).

(** [new AudioContext({ sampleRate })] *)
Definition new_AudioContext (rate : Z) : Eff nat :=
  c <- fresh ;;
  modify (fun s => set_audio_contexts
            (<[c := mkAudioContext rate 0%Q false]> (audio_contexts s)) s) ;;
  ret c.

(** [ctx.createAnalyser()]: only the identity of the analyser is kept. *)
Definition createAnalyser (ctx : nat) : Eff nat := fresh.

(** [await navigator.mediaDevices.getUserMedia({ audio: true })]; the
    browser's answer is [r]: a rejection, or a live microphone stream. *)
Definition getUserMedia (r : option Thrown) : Eff nat :=
  match r with
  | Some e => throw e
  | None =>
      m <- fresh ;;
      modify (fun s => set_media_streams (<[m := true]> (media_streams s)) s) ;;
      ret m
  end.

(** [await ai.live.connect(...)]; the transport's answer is [r]: a
    rejection, or an open session. *)
Definition live_connect (r : option Thrown) : Eff nat :=
  match r with
  | Some e => throw e
  | None =>
      k <- fresh ;;
      modify (fun s => set_live_sessions (<[k := true]> (live_sessions s)) s) ;;
      ret k
  end.

(** [session.close()]; closing a session that is not open is taken to
    throw, the case the caller's [try] is there for. *)
Definition session_close (k : nat) : Eff unit :=
  fun s =>
    match live_sessions s !! k with
    | Some true => (Normal tt, set_live_sessions (<[k := false]> (live_sessions s)) s)
    | _ => (Throw (ErrorObject "InvalidStateError"), s)
    end.

(** [ctx.close()]: returns a promise, which the callers drop; nothing is
    thrown, and closing a closed context changes nothing. *)
Definition ctx_close (c : nat) : Eff unit :=
  modify (fun s => set_audio_contexts
            (alter (fun x => mkAudioContext (ctx_sampleRate x) (currentTime x) true)
                   c (audio_contexts s)) s).

(** [ctx.currentTime] *)
Definition time_of (ctxs : gmap nat AudioContext) (c : nat) : Q :=
  match ctxs !! c with
  | Some x => currentTime x
  | None => 0%Q
  end.

(** [ctx.createBufferSource()] *)
Definition createBufferSource (c : nat) : Eff nat :=
  h <- fresh ;;
  modify (fun s => set_source_nodes
            (<[h := mkSourceNode c None None None]> (source_nodes s)) s) ;;
  ret h.

(** [source.buffer = b] *)
Definition set_buffer (h : nat) (b : AudioUtils.AudioBuffer) : Eff unit :=
  modify (fun s => set_source_nodes
            (alter (fun n => mkSourceNode (node_context n) (Some b) (started n) (stopped n))
                   h (source_nodes s)) s).

(** [source.start(when)] on a node that has not been started. *)
Definition source_start (h : nat) (when : Q) : Eff unit :=
  modify (fun s => set_source_nodes
            (alter (fun n => mkSourceNode (node_context n) (buffer n) (Some when) (stopped n))
                   h (source_nodes s)) s).

(** What [source.stop()] does to a node: [None] when it throws (the node
    was never started); a node already stopped stays as it is; otherwise
    the node stops now, on the clock of its context. *)
Definition stop_effect (ctxs : gmap nat AudioContext) (n : AudioBufferSourceNode)
  : option AudioBufferSourceNode :=
  match started n with
  | None => None
  | Some _ =>
      match stopped n with
      | Some _ => Some n
      | None => Some (mkSourceNode (node_context n) (buffer n) (started n)
                                   (Some (time_of ctxs (node_context n))))
      end
  end.

(** [source.stop()] *)
Definition source_stop (h : nat) : Eff unit :=
  fun s =>
    match source_nodes s !! h with
    | Some n =>
        match stop_effect (audio_contexts s) n with
        | Some n' => (Normal tt, set_source_nodes (<[h := n']> (source_nodes s)) s)
        | None => (Throw (ErrorObject "InvalidStateError"), s)
        end
    | None => (Throw (ErrorObject "TypeError"), s)
    end.

(** [node.connect(destination)] for a node of the context [c] and a
    destination of the context [d]: nodes of different contexts cannot be
    connected, and the call throws. *)
Definition node_connect (c d : nat) : Eff unit :=
  if Nat.eqb c d then ret tt else throw (ErrorObject "InvalidAccessError").

Definition Qlt_bool (a b : Q) : bool := negb (Qle_bool b a).

(** Whether a node produces output at time [t] of its context's clock:
    it has a buffer, [t] lies in [start, start + duration), and no stop has
    taken effect by [t]. *)
Definition playing (n : AudioBufferSourceNode) (t : Q) : bool :=
  match started n, buffer n with
  | Some st, Some b =>
      Qle_bool st t && Qlt_bool t (st + AudioUtils.duration b)%Q
      && match stopped n with
         | Some ts => Qlt_bool t ts
         | None => true
         end
  | _, _ => false
  end.

(** Whether the node's playback is over at time [now]: it was stopped, or
    it has played its buffer to the end. The browser fires [ended] on a
    node only then. *)
Definition over (n : AudioBufferSourceNode) (now : Q) : bool :=
  match started n with
  | Some st =>
      match stopped n with
      | Some ts => Qle_bool ts now
      | None => false
      end
      || match buffer n with
         | Some b => Qle_bool (st + AudioUtils.duration b)%Q now
         | None => false
         end
  | None => false
  end.

(* ===================================================================== *)
(** ** The session controller ([App.tsx]) *)
(* ===================================================================== *)

Definition INPUT_SAMPLE_RATE : Z := 16000.
Definition OUTPUT_SAMPLE_RATE : Z := 24000.

(** [Math.max(a, b)] *)
Definition Math_max (a b : Q) : Q := if Qle_bool a b then b else a.

(** The parts of a [LiveServerMessage] the handler reads. The field
    [inlineData] stands for
    [serverContent?.modelTurn?.parts?.[0]?.inlineData?.data]. *)
Record Transcription := mkTranscription { tr_text : option string }.

Record ServerContent := mkServerContent {
  outputTranscription : option Transcription;
  inputTranscription : option Transcription;
  turnComplete : bool;
  inlineData : option string;
  interrupted : bool
}.

Record LiveServerMessage := mkLiveServerMessage {
  serverContent : option ServerContent
}.

(** [message.serverContent?.f] for an optional field [f] *)
Definition opt {A} (f : ServerContent -> option A) (message : LiveServerMessage)
  : option A :=
  match serverContent message with
  | Some c => f c
  | None => None
  end.

(** [message.serverContent?.f] for a flag [f], as a condition *)
Definition flag (f : ServerContent -> bool) (message : LiveServerMessage) : bool :=
  match serverContent message with
  | Some c => f c
  | None => false
  end.

(** [disconnect], lines 69-93. The reset of [learningConfig.currentTense]
    (presentation state) is not modelled. *)
Definition disconnect : Eff unit :=
  (k <- get sessionRef ;;
   match k with
   | Some session =>
       try_ignore (session_close session) ;;
       modify (set_sessionRef None)
   | None => ret tt
   end) ;;
  sources_forEach (fun source => try_ignore (source_stop source)) ;;
  modify (set_sourcesRef ∅) ;;
  modify (set_nextStartTimeRef 0%Q) ;;
  (c <- get inputAudioContextRef ;;
   match c with Some ctx => ctx_close ctx | None => ret tt end) ;;
  (c <- get outputAudioContextRef ;;
   match c with Some ctx => ctx_close ctx | None => ret tt end) ;;
  modify (set_inputAudioContextRef None) ;;
  modify (set_outputAudioContextRef None) ;;
  modify (set_inputAnalyserRef None) ;;
  modify (set_outputAnalyserRef None) ;;
  modify (set_status DISCONNECTED) ;;
  modify (set_currentInput "") ;;
  modify (set_currentOutput "").

(** What the outside world answers to one [connect] attempt: [None] where
    the awaited promise resolves, the rejection otherwise. *)
Record ConnectAnswers := mkConnectAnswers {
  getUserMedia_answer : option Thrown;
  live_connect_answer : option Thrown
}.

(** [connect], lines 95-240. The callbacks passed to [ai.live.connect] are
    the handlers below; the instruction text is not modelled, and the
    [AudioContext] constructor and [createAnalyser] are taken not to throw.
    The two awaited steps are run in one piece with their answers. *)
Definition connect (world : ConnectAnswers) : Eff unit :=
  try_catch
    (modify (set_status CONNECTING) ;;
     modify (set_error None) ;;
     inputCtx <- new_AudioContext INPUT_SAMPLE_RATE ;;
     outputCtx <- new_AudioContext OUTPUT_SAMPLE_RATE ;;
     inputAnalyser <- createAnalyser inputCtx ;;
     outputAnalyser <- createAnalyser outputCtx ;;
     modify (set_inputAudioContextRef (Some inputCtx)) ;;
     modify (set_outputAudioContextRef (Some outputCtx)) ;;
     modify (set_inputAnalyserRef (Some inputAnalyser)) ;;
     modify (set_outputAnalyserRef (Some outputAnalyser)) ;;
     stream <- getUserMedia (getUserMedia_answer world) ;;
     session <- live_connect (live_connect_answer world) ;;
     modify (set_sessionRef (Some session)))
    (fun err =>
       modify (set_error (Some match err with
                               | ErrorObject m => m
                               | OtherValue => "Gagal memulai sesi"
                               end)) ;;
       modify (set_status DISCONNECTED)).

(** [onopen], lines 140-156: the wiring of the capture graph is not
    modelled. *)
Definition onopen : Eff unit := modify (set_status CONNECTED).

(** Lines 158-163: the transcript fragment of the message. *)
Definition on_transcription (message : LiveServerMessage) : Eff unit :=
  match opt outputTranscription message with
  | Some tr =>
      modify (fun s => set_currentOutput
                (currentOutput s +:+ Js.or_empty (tr_text tr)) s)
  | None =>
      match opt inputTranscription message with
      | Some tr =>
          let text := Js.trim (Js.replace_noise (Js.or_empty (tr_text tr))) in
          if Js.truthy text
          then modify (fun s => set_currentInput (currentInput s +:+ text) s)
          else ret tt
      | None => ret tt
      end
  end.

(** [setMessages(prev => [...prev, m])] *)
Definition push_message (m : Message) : Eff unit :=
  modify (fun s => set_messages (messages s ++ [m]) s).

Definition isCorrection (fullOut : string) : bool :=
  Js.includes (Js.toLowerCase fullOut) "correction:"
  || Js.includes (Js.toLowerCase fullOut) "tip:".

(** What [Date.now()] returns to one run of the handler, call by call:
    at line 169 (the id of the user message), line 173 (its timestamp),
    line 182 (the id of the model message) and line 186 (its timestamp).
    Nothing relates the four values. *)
Record DateNow := mkDateNow {
  id_in : Z;
  timestamp_in : Z;
  id_out : Z;
  timestamp_out : Z
}.

(** Lines 165-191: the end of a turn. The two state updaters run once
    each, in the order they were queued. *)
Definition on_turnComplete (now : DateNow) (message : LiveServerMessage) : Eff unit :=
  if flag turnComplete message then
    (fullIn <- get currentInput ;;
     (if Js.truthy (Js.trim fullIn)
      then push_message (mkMessage (pretty (id_in now) +:+ "-in") user fullIn chat
                           (timestamp_in now))
      else ret tt) ;;
     modify (set_currentInput "")) ;;
    (fullOut <- get currentOutput ;;
     (if Js.truthy (Js.trim fullOut)
      then push_message (mkMessage (pretty (id_out now) +:+ "-out") model fullOut
                           (if isCorrection fullOut then correction else chat)
                           (timestamp_out now))
      else ret tt) ;;
     modify (set_currentOutput ""))
  else ret tt.

(** [await decodeAudioData(decodeFromBase64(base64Audio), audioCtx,
    OUTPUT_SAMPLE_RATE, 1)]: a failure of either step is an exception. *)
Definition decode_chunk (base64Audio : string) : option AudioUtils.AudioBuffer :=
  match AudioUtils.decodeFromBase64 base64Audio with
  | Some bytes => AudioUtils.decodeAudioData bytes OUTPUT_SAMPLE_RATE
  | None => None
  end.

Definition await_decode (base64Audio : string) : Eff AudioUtils.AudioBuffer :=
  match decode_chunk base64Audio with
  | Some b => ret b
  | None => throw (ErrorObject "DecodeError")
  end.

(** Lines 193-208: the audio chunk of the message. [audioCtx] is read
    from the ref, whereas [outputAnalyser] is a constant of the [connect]
    call that installed the handler (line 105): [outputCtx] is the context
    of that analyser, the output context that call created (line 101). The
    [ended] listener registered on the source is the handler [on_ended]
    below. *)
Definition on_audio (outputCtx : nat) (message : LiveServerMessage) : Eff unit :=
  match opt inlineData message with
  | Some base64Audio =>
      if Js.truthy base64Audio then
        c <- get outputAudioContextRef ;;
        match c with
        | None => return_
        | Some audioCtx =>
            modify (fun s => set_nextStartTimeRef
                      (Math_max (nextStartTimeRef s)
                                (time_of (audio_contexts s) audioCtx)) s) ;;
            audioBuffer <- await_decode base64Audio ;;
            source <- createBufferSource audioCtx ;;
            set_buffer source audioBuffer ;;
            node_connect audioCtx outputCtx ;;
            node_connect outputCtx audioCtx ;;
            start <- get nextStartTimeRef ;;
            source_start source start ;;
            modify (fun s => set_nextStartTimeRef
                      (nextStartTimeRef s + AudioUtils.duration audioBuffer)%Q s) ;;
            modify (fun s => set_sourcesRef ({[source]} ∪ sourcesRef s) s)
        end
      else ret tt
  | None => ret tt
  end.

(** Lines 210-214: the interruption marker of the message. *)
Definition on_interrupted (message : LiveServerMessage) : Eff unit :=
  if flag interrupted message then
    sources_forEach (fun s => try_ignore (source_stop s)) ;;
    modify (set_sourcesRef ∅) ;;
    modify (set_nextStartTimeRef 0%Q)
  else ret tt.

(** [onmessage], lines 157-215, as installed by the [connect] call whose
    output context is [outputCtx]. *)
Definition onmessage (outputCtx : nat) (now : DateNow) (message : LiveServerMessage)
  : Eff unit :=
  on_transcription message ;;
  on_turnComplete now message ;;
  on_audio outputCtx message ;;
  on_interrupted message.

(** [onerror], lines 216-220 *)
Definition onerror : Eff unit :=
  modify (set_error (Some "Koneksi terputus. Silakan coba lagi.")) ;;
  disconnect.

(** [onclose], line 221 *)
Definition onclose : Eff unit := disconnect.

(** The [ended] listener of a source, line 204. *)
Definition on_ended (source : nat) : Eff unit :=
  modify (fun s => set_sourcesRef (sourcesRef s ∖ {[source]}) s).

(** The session button, line 281. *)
Definition onClick (world : ConnectAnswers) : Eff unit :=
  st <- get status ;;
  match st with
  | CONNECTED => disconnect
  | _ => connect world
  end.

(** Time passing: the clock of every open context advances by [d]. *)
Definition advance (d : Q) (s : State) : State :=
  set_audio_contexts
    ((fun x => if ctx_closed x then x
               else mkAudioContext (ctx_sampleRate x) (currentTime x + d)%Q false)
       <$> audio_contexts s) s.

(** What can happen to a mounted component. *)
Inductive Event :=
  | Click (world : ConnectAnswers)
  | Onopen
  | Onmessage (outputCtx : nat) (now : DateNow) (message : LiveServerMessage)
  | Onerror
  | Onclose
  | Ended (source : nat)
  | Tick (d : Q).

Definition handle (e : Event) (s : State) : State :=
  match e with
  | Click world => run (onClick world) s
  | Onopen => run onopen s
  | Onmessage outputCtx now message => run (onmessage outputCtx now message) s
  | Onerror => run onerror s
  | Onclose => run onclose s
  | Ended source => run (on_ended source) s
  | Tick d => advance d s
  end.

(** What the browser guarantees about the events it delivers: a message
    goes to a handler some [connect] call installed, whose analyser
    therefore belongs to an output context that exists; [ended] fires on a
    source whose playback is over; and time does not go back. *)
Definition enabled (e : Event) (s : State) : bool :=
  match e with
  | Onmessage outputCtx _ _ =>
      match audio_contexts s !! outputCtx with
      | Some x => Z.eqb (ctx_sampleRate x) OUTPUT_SAMPLE_RATE
      | None => false
      end
  | Ended source =>
      match source_nodes s !! source with
      | Some n => over n (time_of (audio_contexts s) (node_context n))
      | None => false
      end
  | Tick d => Qle_bool 0 d
  | _ => true
  end.

Inductive reachable : State -> Prop :=
  | reachable_initial : reachable initial_state
  | reachable_step s e :
      reachable s -> enabled e s = true -> reachable (handle e s).

Fixpoint run_events (es : list Event) (s : State) : State :=
  match es with
  | [] => s
  | e :: r => run_events r (handle e s)
  end.

(* ===================================================================== *)
(** ** Notions used in the statements *)
(* ===================================================================== *)

(** The current-turn transcript buffer of a role. *)
Definition accumulator (r : Role) (s : State) : string :=
  match r with
  | user => currentInput s
  | model => currentOutput s
  end.

Definition role_eqb (a b : Role) : bool :=
  match a, b with
  | user, user | model, model => true
  | _, _ => false
  end.

(** The messages of a role in a list, and their number. *)
Definition of_role (r : Role) (l : list Message) : list Message :=
  List.filter (fun x => role_eqb (msg_role x) r) l.

Definition count_role (r : Role) (l : list Message) : nat := length (of_role r l).

(** The messages appended to the history between two states. *)
Definition appended (before after : State) : list Message :=
  drop (length (messages before)) (messages after).

(** A server message that carries one transcript fragment for a role and
    nothing else. *)
Definition fragment (r : Role) (t : string) : LiveServerMessage :=
  mkLiveServerMessage (Some
    match r with
    | model => mkServerContent (Some (mkTranscription (Some t))) None false None false
    | user => mkServerContent None (Some (mkTranscription (Some t))) false None false
    end).

(** A server message that carries only the end-of-turn marker. *)
Definition turn_complete : LiveServerMessage :=
  mkLiveServerMessage (Some (mkServerContent None None true None false)).

(** A server message that carries only an audio chunk. *)
Definition audio_chunk (base64Audio : string) : LiveServerMessage :=
  mkLiveServerMessage (Some (mkServerContent None None false (Some base64Audio) false)).

(** A server message that carries only the interruption marker. *)
Definition interruption : LiveServerMessage :=
  mkLiveServerMessage (Some (mkServerContent None None false None true)).

Definition fragment_events (outputCtx : nat) (now : DateNow)
    (frs : list (Role * string)) : list Event :=
  map (fun f => Onmessage outputCtx now (fragment (fst f) (snd f))) frs.

(** The clock reads of a handler run during which the clock shows [t]
    throughout. *)
Definition clock_at (t : Z) : DateNow := mkDateNow t t t t.

(** The texts of the fragments of one role, in arrival order. *)
Definition texts_of (r : Role) (frs : list (Role * string)) : list string :=
  map snd (List.filter (fun f => role_eqb (fst f) r) frs).

Definition concat_strings (l : list string) : string :=
  fold_right String.append "" l.

(** What one [source.stop()] inside [try ... catch] does to a node. *)
Definition stop_node (ctxs : gmap nat AudioContext) (n : AudioBufferSourceNode)
  : AudioBufferSourceNode :=
  default n (stop_effect ctxs n).

Definition quiet_stop (ctxs : gmap nat AudioContext)
  (nodes : gmap nat AudioBufferSourceNode) (h : nat)
  : gmap nat AudioBufferSourceNode :=
  match nodes !! h with
  | Some n => <[h := stop_node ctxs n]> nodes
  | None => nodes
  end.

(** The loop [forEach(s => { try { s.stop() } catch (e) {} })] as a function
    on the table of source nodes. *)
Definition stop_all (ctxs : gmap nat AudioContext) (l : list nat)
  (nodes : gmap nat AudioBufferSourceNode) : gmap nat AudioBufferSourceNode :=
  fold_left (quiet_stop ctxs) l nodes.

Definition close_ref (r : option nat) (ctxs : gmap nat AudioContext)
  : gmap nat AudioContext :=
  match r with
  | Some c =>
      alter (fun x => mkAudioContext (ctx_sampleRate x) (currentTime x) true) c ctxs
  | None => ctxs
  end.

Definition close_session (r : option nat) (ks : gmap nat bool) : gmap nat bool :=
  match r with
  | Some k => match ks !! k with Some true => <[k := false]> ks | _ => ks end
  | None => ks
  end.

(** The state [disconnect] leaves, field by field. *)
Definition disconnected (s : State) : State :=
  {| status := DISCONNECTED; messages := messages s; currentInput := "";
     currentOutput := ""; error := error s;
     inputAudioContextRef := None; outputAudioContextRef := None;
     inputAnalyserRef := None; outputAnalyserRef := None;
     sourcesRef := ∅; nextStartTimeRef := 0%Q; sessionRef := None;
     next_object := next_object s;
     audio_contexts :=
       close_ref (outputAudioContextRef s)
         (close_ref (inputAudioContextRef s) (audio_contexts s));
     source_nodes :=
       stop_all (audio_contexts s) (elements (sourcesRef s)) (source_nodes s);
     live_sessions := close_session (sessionRef s) (live_sessions s);
     media_streams := media_streams s |}.

(** The state in which lines 200-207 leave the scheduler once the chunk is
    decoded: a new source [next_object s] holding the buffer, started at
    the cursor, the cursor moved on by the duration, the source in the set. *)
Definition scheduled (audioCtx : nat) (b : AudioUtils.AudioBuffer) (s : State) : State :=
  {| status := status s; messages := messages s; currentInput := currentInput s;
     currentOutput := currentOutput s; error := error s;
     inputAudioContextRef := inputAudioContextRef s;
     outputAudioContextRef := outputAudioContextRef s;
     inputAnalyserRef := inputAnalyserRef s;
     outputAnalyserRef := outputAnalyserRef s;
     sourcesRef := {[next_object s]} ∪ sourcesRef s;
     nextStartTimeRef := (nextStartTimeRef s + AudioUtils.duration b)%Q;
     sessionRef := sessionRef s;
     next_object := S (next_object s);
     audio_contexts := audio_contexts s;
     source_nodes :=
       <[next_object s :=
           mkSourceNode audioCtx (Some b) (Some (nextStartTimeRef s)) None]>
         (source_nodes s);
     live_sessions := live_sessions s;
     media_streams := media_streams s |}.

(** The state in which line 202 leaves the scheduler when it throws: a
    new source [next_object s] holding the buffer, never started and not in
    the set; the cursor is not moved on. *)
Definition unconnected (audioCtx : nat) (b : AudioUtils.AudioBuffer) (s : State) : State :=
  set_source_nodes
    (<[next_object s := mkSourceNode audioCtx (Some b) None None]> (source_nodes s))
    (set_next_object (S (next_object s)) s).

(** What holds of the scheduler in every state the component can reach:
    without an output context nothing is scheduled; every source of the
    set has been started; a source outside the set is over or was never
    started; a stop never lies in the future; the numbers of the contexts
    and of the sources of the set are below the next object number. *)
Definition scheduler_invariant (s : State) : Prop :=
  (outputAudioContextRef s = None ->
     sourcesRef s = ∅ /\ nextStartTimeRef s = 0%Q)
  /\ (forall h, h ∈ sourcesRef s ->
        exists n, source_nodes s !! h = Some n /\ is_Some (started n))
  /\ (forall h n, source_nodes s !! h = Some n -> h ∉ sourcesRef s ->
        started n = None
        \/ over n (time_of (audio_contexts s) (node_context n)) = true)
  /\ (forall h n ts, source_nodes s !! h = Some n -> stopped n = Some ts ->
        Qle_bool ts (time_of (audio_contexts s) (node_context n)) = true)
  /\ (forall c x, audio_contexts s !! c = Some x -> (c < next_object s)%nat)
  /\ (forall h, h ∈ sourcesRef s -> (h < next_object s)%nat).

(** Every audio context the component has created is closed, and none is
    referenced any more. *)
Definition contexts_released (s : State) : Prop :=
  inputAudioContextRef s = None
  /\ outputAudioContextRef s = None
  /\ forall c x, audio_contexts s !! c = Some x -> ctx_closed x = true.

(** The transcript phases touch only the buffers and the history. *)
Definition same_scheduler (s s' : State) : Prop :=
  status s' = status s /\ error s' = error s
  /\ inputAudioContextRef s' = inputAudioContextRef s
  /\ outputAudioContextRef s' = outputAudioContextRef s
  /\ sourcesRef s' = sourcesRef s /\ nextStartTimeRef s' = nextStartTimeRef s
  /\ sessionRef s' = sessionRef s /\ next_object s' = next_object s
  /\ audio_contexts s' = audio_contexts s /\ source_nodes s' = source_nodes s
  /\ live_sessions s' = live_sessions s /\ media_streams s' = media_streams s.


(** The state after lines 97-111 of [connect]: both contexts and both
    analysers created and stored in the refs. *)
Definition acquiring (s : State) : State :=
  {| status := CONNECTING; messages := messages s; currentInput := currentInput s;
     currentOutput := currentOutput s; error := None;
     inputAudioContextRef := Some (next_object s);
     outputAudioContextRef := Some (S (next_object s));
     inputAnalyserRef := Some (S (S (next_object s)));
     outputAnalyserRef := Some (S (S (S (next_object s))));
     sourcesRef := sourcesRef s; nextStartTimeRef := nextStartTimeRef s;
     sessionRef := sessionRef s;
     next_object := S (S (S (S (next_object s))));
     audio_contexts :=
       <[S (next_object s) := mkAudioContext OUTPUT_SAMPLE_RATE 0%Q false]>
         (<[next_object s := mkAudioContext INPUT_SAMPLE_RATE 0%Q false]>
            (audio_contexts s));
     source_nodes := source_nodes s; live_sessions := live_sessions s;
     media_streams := media_streams s |}.

(** The microphone stream obtained at line 113. *)
Definition with_stream (s : State) : State :=
  set_media_streams (<[next_object s := true]> (media_streams s))
    (set_next_object (S (next_object s)) s).

(** The session obtained at line 234. *)
Definition with_session (s : State) : State :=
  set_sessionRef (Some (next_object s))
    (set_live_sessions (<[next_object s := true]> (live_sessions s))
       (set_next_object (S (next_object s)) s)).

(** The [catch] block of [connect], lines 236-239. *)
Definition rejected (err : Thrown) (s : State) : State :=
  set_status DISCONNECTED
    (set_error (Some match err with
                     | ErrorObject m => m
                     | OtherValue => "Gagal memulai sesi"
                     end) s).

Definition connect_result (world : ConnectAnswers) (s : State) : State :=
  match getUserMedia_answer world with
  | Some e => rejected e (acquiring s)
  | None =>
      match live_connect_answer world with
      | Some e => rejected e (with_stream (acquiring s))
      | None => with_session (with_stream (acquiring s))
      end
  end.

(** A connect attempt in which every awaited step succeeds. *)
Definition all_granted : ConnectAnswers := mkConnectAnswers None None.

(** A session that is connected, five seconds old, and idle. *)
Definition idle_session : State :=
  run_events [Click all_granted; Onopen; Tick 5%Q] initial_state.

(** The same session while one decoded chunk (two samples) is playing. *)
Definition playing_session : State :=
  handle (Onmessage 1 (clock_at 1700000000000) (audio_chunk "AQD/fw=="))
    idle_session.

(** A string made of white space only. *)
Fixpoint blank (s : string) : bool :=
  match s with
  | EmptyString => true
  | String c r => Js.is_white_space c && blank r
  end.

(** The text the handler appends to the model buffer for a message (lines
    158-159), and to the user buffer (lines 160-163). *)
Definition model_fragment (message : LiveServerMessage) : string :=
  match opt outputTranscription message with
  | Some tr => Js.or_empty (tr_text tr)
  | None => ""
  end.

Definition user_fragment (message : LiveServerMessage) : string :=
  match opt outputTranscription message, opt inputTranscription message with
  | None, Some tr => Js.trim (Js.replace_noise (Js.or_empty (tr_text tr)))
  | _, _ => ""
  end.

(** The messages lines 166-190 create from the two buffers. *)
Definition finalized (now : DateNow) (fullIn fullOut : string) : list Message :=
  (if Js.truthy (Js.trim fullIn)
   then [mkMessage (pretty (id_in now) +:+ "-in") user fullIn chat (timestamp_in now)]
   else [])
  ++ (if Js.truthy (Js.trim fullOut)
      then [mkMessage (pretty (id_out now) +:+ "-out") model fullOut
              (if isCorrection fullOut then correction else chat)
              (timestamp_out now)]
      else []).

(* ===================================================================== *)
(** ** The grammar-ladder indicator ([App.tsx], lines 57-67 and 247-254) *)
(* ===================================================================== *)

(** [GrammarTense] of [types.ts]: 'Present (Situasi)', 'Past (Masa Lalu)',
    'Future (Rencana)'. *)
Inductive GrammarTense := Present | Past | Future.

(** The effect that runs when [currentOutput] changes, lines 57-67: the
    value it leaves in [learningConfig.currentTense]. *)
Definition detect_tense (currentOutput : string) (currentTense : GrammarTense)
  : GrammarTense :=
  if Js.truthy currentOutput then
    let lower := Js.toLowerCase currentOutput in
    if Js.includes lower "yesterday" || Js.includes lower "happened"
       || Js.includes lower "was it" || Js.includes lower "did you"
    then Past
    else if Js.includes lower "tomorrow" || Js.includes lower "future"
            || Js.includes lower "will you" || Js.includes lower "going to"
    then Future
    else currentTense
  else currentTense.

(** The keywords of line 61 and of line 63. *)
Definition past_keywords : list string :=
  ["yesterday"; "happened"; "was it"; "did you"].

Definition future_keywords : list string :=
  ["tomorrow"; "future"; "will you"; "going to"].

(** Whether a text, in lower case, contains one of the keywords. *)
Definition mentions (text : string) (keywords : list string) : bool :=
  existsb (Js.includes (Js.toLowerCase text)) keywords.

(** What writes [learningConfig.currentTense]: a run of the effect of
    lines 57-67 with the new value of [currentOutput], and [disconnect],
    which sets it back to 'Present (Situasi)' at line 92. *)
Inductive TenseChange :=
  | OutputChanged (currentOutput : string)
  | TenseReset.

Definition tense_step (currentTense : GrammarTense) (c : TenseChange)
  : GrammarTense :=
  match c with
  | OutputChanged currentOutput => detect_tense currentOutput currentTense
  | TenseReset => Present
  end.

Definition tense_after (changes : list TenseChange) (currentTense : GrammarTense)
  : GrammarTense :=
  fold_left tense_step changes currentTense.

(** [getTenseStep], lines 247-254. *)
Definition getTenseStep (currentTense : GrammarTense) : Z :=
  match currentTense with
  | Present => 1
  | Past => 2
  | Future => 3
  end.

(* ===================================================================== *)
(** ** The transcript view ([components/Transcript.tsx]) *)
(* ===================================================================== *)

Module Transcript.

(** [msg.text.split('\n')]: the pieces between line feeds; never empty. *)
Fixpoint split_lines (s : string) : list string :=
  match s with
  | EmptyString => [EmptyString]
  | String c r =>
      if Ascii.eqb c "010" then EmptyString :: split_lines r
      else match split_lines r with
           | h :: t => String c h :: t
           | [] => [String c EmptyString]
           end
  end.

(** [pieces.join(sep)] *)
Fixpoint join (sep : string) (pieces : list string) : string :=
  match pieces with
  | [] => EmptyString
  | [p] => p
  | p :: rest => p +:+ sep +:+ join sep rest
  end.

(** Line 21 of [renderMessage]. *)
Definition isCorrection (msg : Message) : bool :=
  Js.includes (Js.toLowerCase (msg_text msg)) "correction:"
  || Js.includes (Js.toLowerCase (msg_text msg)) "tip:".

Definition correction_bubble : string :=
  "bg-amber-900/40 text-amber-200 border-amber-500/50 italic".
Definition model_bubble : string := "bg-slate-800 text-slate-200 border-slate-700".
Definition user_bubble : string := "bg-emerald-600 text-white border-transparent".

(** Lines 23-29 of [renderMessage]. *)
Definition bubbleClass (msg : Message) : string :=
  if isCorrection msg then correction_bubble
  else match msg_role msg with
       | model => model_bubble
       | user => user_bubble
       end.

(** The paragraphs of a bubble, lines 37-39: the class of each (the first
    has none, the others 'mt-2') and its line. *)
Fixpoint numbered (i : nat) (lines : list string) : list (string * string) :=
  match lines with
  | [] => []
  | l :: r => ((if (0 <? i)%nat then "mt-2" else ""), l) :: numbered (S i) r
  end.

Record Bubble := mkBubble {
  key : string;
  justify : string;
  bubble : string;
  corner : string;
  paragraphs : list (string * string)
}.

(** [renderMessage], lines 19-43. *)
Definition renderMessage (msg : Message) : Bubble :=
  let isModel := role_eqb (msg_role msg) model in
  {| key := msg_id msg;
     justify := if isModel then "justify-start" else "justify-end";
     bubble := bubbleClass msg;
     corner := if isModel then "rounded-tl-none" else "rounded-tr-none";
     paragraphs := numbered 0 (split_lines (msg_text msg)) |}.

End Transcript.

(* ===================================================================== *)
(** ** The spectrum bars ([components/Visualizer.tsx]) *)
(* ===================================================================== *)

Module Visualizer.

(** One [ctx.fillRect(x, y, w, h)]. *)
Record Rect := mkRect { rect_x : Q; rect_y : Q; rect_w : Q; rect_h : Q }.

(** The loop of [draw], lines 32-39, from the position [x] on. *)
Fixpoint bars (barWidth height x : Q) (dataArray : list Z) : list Rect :=
  match dataArray with
  | [] => []
  | d :: rest =>
      let barHeight := ((inject_Z d / 255) * height)%Q in
      mkRect x (height - barHeight)%Q barWidth barHeight
        :: bars barWidth height (x + (barWidth + 1))%Q rest
  end.

(** One frame of [draw], lines 22-40, on a canvas of the given size: the
    rectangles filled, in order. [dataArray] holds the byte of each
    frequency bin. *)
Definition draw (width height : Q) (dataArray : list Z) : list Rect :=
  let bufferLength := inject_Z (Z.of_nat (length dataArray)) in
  let barWidth := ((width / bufferLength) * (5 # 2))%Q in
  bars barWidth height 0%Q dataArray.

End Visualizer.

(* ===================================================================== *)
(** ** The earlier variant of the transcript handler *)
(* ===================================================================== *)

Module Earlier.

(** Lines 130-136 of the earlier [App.tsx]: the texts are used without the
    [|| ''] guard. [prev + undefined] is the text "undefined" appended, and
    [undefined.replace(...)] throws a TypeError. *)
Definition on_transcription (message : LiveServerMessage) : Eff unit :=
  match opt outputTranscription message with
  | Some tr =>
      modify (fun s => set_currentOutput
                (currentOutput s +:+ match tr_text tr with
                                     | Some t => t
                                     | None => "undefined"
                                     end) s)
  | None =>
      match opt inputTranscription message with
      | Some tr =>
          match tr_text tr with
          | Some t =>
              let text := Js.trim (Js.replace_noise t) in
              if Js.truthy text
              then modify (fun s => set_currentInput (currentInput s +:+ text) s)
              else ret tt
          | None => throw (ErrorObject "TypeError")
          end
      | None => ret tt
      end
  end.

End Earlier.

(* ===================================================================== *)
(** ** Notions used in the further statements *)
(* ===================================================================== *)

(** A sequence of events each of which the browser can deliver in the
    state it meets. *)
Fixpoint admissible (es : list Event) (s : State) : bool :=
  match es with
  | [] => true
  | e :: r => enabled e s && admissible r (handle e s)
  end.

(** The events that reset the cursor: an interruption, a transport error
    or close, and the button pressed while connected. *)
Definition is_reset (e : Event) (s : State) : bool :=
  match e with
  | Onmessage _ _ message => flag interrupted message
  | Onerror | Onclose => true
  | Click _ => match status s with CONNECTED => true | _ => false end
  | _ => false
  end.

(** The interval of its context's clock during which a source plays. *)
Definition interval (n : AudioBufferSourceNode) : option (Q * Q) :=
  match started n, buffer n with
  | Some st, Some b => Some (st, (st + AudioUtils.duration b)%Q)
  | _, _ => None
  end.

(** A string without white space at either end. *)
Definition clean (s : string) : Prop := Js.trimStart s = s /\ Js.trimEnd s = s.

(** A string in which no noise marker can start. *)
Fixpoint no_bracket (s : string) : bool :=
  match s with
  | EmptyString => true
  | String c r => negb (Ascii.eqb c "<") && negb (Ascii.eqb c "[") && no_bracket r
  end.

(** The parts of a server message, each as a message of its own. *)
Definition transcript_part (m : LiveServerMessage) : LiveServerMessage :=
  mkLiveServerMessage (Some (mkServerContent
    (opt outputTranscription m) (opt inputTranscription m) false None false)).

Definition turn_part (m : LiveServerMessage) : LiveServerMessage :=
  mkLiveServerMessage (Some (mkServerContent
    None None (flag turnComplete m) None false)).

Definition audio_part (m : LiveServerMessage) : LiveServerMessage :=
  mkLiveServerMessage (Some (mkServerContent
    None None false (opt inlineData m) false)).

Definition interrupt_part (m : LiveServerMessage) : LiveServerMessage :=
  mkLiveServerMessage (Some (mkServerContent
    None None false None (flag interrupted m))).

(** The sources of the set are scheduled one after the other: each was
    created before [next_object], ends at or before the cursor, and ends
    at or before the start of every source of the set created after it. *)
Definition sequenced (s : State) : Prop :=
  (forall h, h ∈ sourcesRef s -> (h < next_object s)%nat)
  /\ (forall h n, h ∈ sourcesRef s -> source_nodes s !! h = Some n ->
        exists a b, interval n = Some (a, b) /\ (b <= nextStartTimeRef s)%Q)
  /\ (forall h1 h2 n1 n2, h1 ∈ sourcesRef s -> h2 ∈ sourcesRef s ->
        (h1 < h2)%nat ->
        source_nodes s !! h1 = Some n1 -> source_nodes s !! h2 = Some n2 ->
        exists a1 b1 a2 b2,
          interval n1 = Some (a1, b1) /\ interval n2 = Some (a2, b2)
          /\ (b1 <= a2)%Q).

(** The refs hold contexts that exist and are open. *)
Definition refs_open (s : State) : Prop :=
  forall c, (inputAudioContextRef s = Some c \/ outputAudioContextRef s = Some c) ->
    exists x, audio_contexts s !! c = Some x /\ ctx_closed x = false.

(** The session after one successful connect, before the transport opens. *)
Definition connecting_session : State := handle (Click all_granted) initial_state.

(** The idle session after two decoded chunks arrived one right after the
    other. *)
Definition two_chunk_session : State :=
  handle (Onmessage 1 (clock_at 0) (audio_chunk "AQD/fw=="))
    (handle (Onmessage 1 (clock_at 0) (audio_chunk "AQD/fw==")) idle_session).

(** The button pressed a second time while the first connect is still
    connecting (the button is not disabled then, line 281), five seconds
    ago: the refs hold the contexts of the second connect, 6 and 7, while
    the session of the first, 5, is still open, its handlers closing over
    the analyser of context 1. *)
Definition double_connect_session : State :=
  run_events [Click all_granted; Click all_granted; Onopen; Tick 5%Q] initial_state.

(** A connect attempt in which the microphone is refused. *)
Definition microphone_denied : ConnectAnswers :=
  mkConnectAnswers (Some (ErrorObject "Permission denied")) None.

(** A session connected at the second attempt, after a first attempt in
    which the microphone was refused. *)
Definition retried_session : State :=
  handle (Click all_granted) (handle (Click microphone_denied) initial_state).

(** The identifier lines 169 and 182 build from a reading [t] of the
    clock. *)
Definition id_of (t : Z) (r : Role) : string :=
  pretty t +:+ match r with user => "-in" | model => "-out" end.

(** The last code unit of a string. *)
Fixpoint last_char (s : string) : option ascii :=
  match s with
  | EmptyString => None
  | String c r => match last_char r with
                  | Some l => Some l
                  | None => Some c
                  end
  end.

(** A conversation of two finalized turns. *)
Definition two_turn_session : State :=
  run_events [Onmessage 1 (clock_at 1700000000000) (fragment user " Hello ");
              Onmessage 1 (clock_at 1700000000500) (fragment model "Hi. Tip: say hello.");
              Onmessage 1 (clock_at 1700000001000) turn_complete;
              Onmessage 1 (clock_at 1700000002000) (fragment model "Go on.");
              Onmessage 1 (clock_at 1700000003000) turn_complete] idle_session.

(** A turn finalized while the clock ticks between the four reads. *)
Definition ticking_turn_session : State :=
  run_events [Onmessage 1 (clock_at 1700000000000) (fragment user " Hello ");
              Onmessage 1 (clock_at 1700000000500) (fragment model "Hi.");
              Onmessage 1 (mkDateNow 1700000001000 1700000001001
                                     1700000001001 1700000001002) turn_complete]
             idle_session.

(** The number of line feeds of a string. *)
Fixpoint line_feeds (s : string) : nat :=
  match s with
  | EmptyString => 0
  | String c r => ((if Ascii.eqb c "010" then 1 else 0) + line_feeds r)%nat
  end.

(** A server message with a fragment, the end-of-turn marker, an audio
    chunk and the interruption marker all at once. *)
Definition full_message : LiveServerMessage :=
  mkLiveServerMessage (Some (mkServerContent
    (Some (mkTranscription (Some "Good."))) None true (Some "AQD/fw==") true)).

(* ===================================================================== *)
(** ** Examples *)
(* ===================================================================== *)

Example trim_ex : Js.trim "  Hello world  " = "Hello world".
Proof. reflexivity. Qed.

Example replace_noise_ex :
  Js.replace_noise "a<NOISE>b[noise]c<noise" = "abc<noise".
Proof. reflexivity. Qed.

Example includes_ex :
  Js.includes (Js.toLowerCase "Nice try. Correction: It is called a chair.")
              "correction:" = true.
Proof. reflexivity. Qed.

Example base64_ex : AudioUtils.decodeFromBase64 "AQD/fw==" = Some [1; 0; 255; 127].
Proof. reflexivity. Qed.

Example base64_bad : AudioUtils.decodeFromBase64 "!!!!" = None.
Proof. reflexivity. Qed.

Example decode_ex :
  AudioUtils.int16_samples [1; 0; 255; 127; 0; 128] = Some [1; 32767; -32768].
Proof. reflexivity. Qed.

Example encode_ex :
  AudioUtils.createPcmBlob [1%Q; (-1)%Q; (3 # 2)%Q; 0%Q]
  = [255; 127; 1; 128; 255; 127; 0; 0].
Proof. reflexivity. Qed.

(* ===================================================================== *)
(** ** Symbolic execution of the handlers *)
(* ===================================================================== *)

Lemma set_source_nodes_id s : set_source_nodes (source_nodes s) s = s.
Proof. by destruct s. Qed.

Lemma try_stop_eq h s :
  try_ignore (source_stop h) s
  = (Normal tt, set_source_nodes
                  (quiet_stop (audio_contexts s) (source_nodes s) h) s).
Proof.
  unfold try_ignore, try_catch, source_stop, quiet_stop, stop_node, ret.
  destruct (source_nodes s !! h) as [n|] eqn:Hn.
  - destruct (stop_effect (audio_contexts s) n) as [n'|] eqn:He; simpl.
    + reflexivity.
    + rewrite insert_id by done. by rewrite set_source_nodes_id.
  - by rewrite set_source_nodes_id.
Qed.

Lemma for_each_stop l s :
  for_each l (fun h => try_ignore (source_stop h)) s
  = (Normal tt, set_source_nodes
                  (stop_all (audio_contexts s) l (source_nodes s)) s).
Proof.
  revert s. induction l as [|h l IH]; intros s; simpl.
  - unfold ret. by rewrite set_source_nodes_id.
  - unfold bind. rewrite try_stop_eq, IH. reflexivity.
Qed.

Lemma stop_node_idem ctxs n : stop_node ctxs (stop_node ctxs n) = stop_node ctxs n.
Proof.
  unfold stop_node, stop_effect.
  destruct n as [c b [st|] [ts|]]; reflexivity.
Qed.

Lemma stop_node_context ctxs n : node_context (stop_node ctxs n) = node_context n.
Proof.
  unfold stop_node, stop_effect.
  destruct n as [c b [st|] [ts|]]; reflexivity.
Qed.

Lemma stop_all_lookup ctxs l nodes h :
  stop_all ctxs l nodes !! h
  = if decide (h ∈ l) then stop_node ctxs <$> nodes !! h else nodes !! h.
Proof.
  revert nodes. induction l as [|x l IH]; intros nodes.
  - destruct (decide (h ∈ [])) as [Hin|_]; [set_solver|reflexivity].
  - change (stop_all ctxs (x :: l) nodes)
      with (stop_all ctxs l (quiet_stop ctxs nodes x)).
    rewrite IH. unfold quiet_stop.
    destruct (decide (x = h)) as [->|Hne].
    + destruct (decide (h ∈ h :: l)) as [_|Hn]; [|set_solver].
      destruct (nodes !! h) as [n|] eqn:Hn.
      * rewrite lookup_insert_eq.
        destruct (decide (h ∈ l)); simpl; [by rewrite stop_node_idem|done].
      * rewrite Hn. by destruct (decide (h ∈ l)).
    + assert (Hsame : (match nodes !! x with
                       | Some n => <[x:=stop_node ctxs n]> nodes
                       | None => nodes end) !! h = nodes !! h).
      { destruct (nodes !! x); [by rewrite lookup_insert_ne|done]. }
      rewrite Hsame.
      destruct (decide (h ∈ l)) as [Hl|Hl].
      * rewrite decide_True by (apply elem_of_cons; by right). reflexivity.
      * rewrite decide_False; [reflexivity|].
        intros [?|?]%elem_of_cons; congruence.
Qed.

Lemma on_interrupted_eq m s :
  on_interrupted m s
  = (Normal tt,
     if flag interrupted m
     then set_nextStartTimeRef 0%Q
            (set_sourcesRef ∅
               (set_source_nodes
                  (stop_all (audio_contexts s) (elements (sourcesRef s))
                            (source_nodes s)) s))
     else s).
Proof.
  unfold on_interrupted. destruct (flag interrupted m); [|reflexivity].
  unfold sources_forEach, bind, get, modify. rewrite for_each_stop. reflexivity.
Qed.

(** Reduction of the record projections and setters only. *)
Ltac proj :=   cbn [fst snd status messages currentInput currentOutput error
     inputAudioContextRef outputAudioContextRef inputAnalyserRef
     outputAnalyserRef sourcesRef nextStartTimeRef sessionRef next_object
     audio_contexts source_nodes live_sessions media_streams set_status
     set_messages set_currentInput set_currentOutput set_error
     set_inputAudioContextRef set_outputAudioContextRef set_inputAnalyserRef
     set_outputAnalyserRef set_sourcesRef set_nextStartTimeRef set_sessionRef
     set_next_object set_audio_contexts set_source_nodes set_live_sessions
     set_media_streams] in *.

Lemma disconnect_eq s : disconnect s = (Normal tt, disconnected s).
Proof.
  unfold disconnect, disconnected, sources_forEach, try_ignore, try_catch,
    session_close, ctx_close, close_ref, close_session.
  unfold bind at 1. unfold get at 1. unfold bind at 1.
  destruct (sessionRef s) as [k|] eqn:Hk.
  - unfold bind at 1.
    destruct (live_sessions s !! k) as [[|]|] eqn:Hl;
      unfold bind, get, modify, ret; proj;
      rewrite for_each_stop; proj;
      (destruct (inputAudioContextRef s); proj);
      (destruct (outputAudioContextRef s); proj; reflexivity).
  - unfold ret at 1. unfold bind, get, modify, ret; proj.
    rewrite for_each_stop; proj.
    destruct (inputAudioContextRef s); proj;
      (destruct (outputAudioContextRef s); proj; f_equal;
       unfold set_currentOutput at 1; proj; rewrite Hk; reflexivity).
Qed.

Lemma disconnected_idem s : disconnected (disconnected s) = disconnected s.
Proof.
  unfold disconnected; proj. rewrite elements_empty. reflexivity.
Qed.

Lemma pair_eta {A B} (p : A * B) : p = (fst p, snd p).
Proof. by destruct p. Qed.

Lemma on_transcription_eq m s :
  on_transcription m s = (Normal tt, run (on_transcription m) s).
Proof.
  unfold run, on_transcription.
  destruct (opt outputTranscription m); [reflexivity|].
  destruct (opt inputTranscription m); [|reflexivity].
  destruct (Js.truthy _); reflexivity.
Qed.

Lemma on_turnComplete_eq now m s :
  on_turnComplete now m s = (Normal tt, run (on_turnComplete now m) s).
Proof.
  unfold run, on_turnComplete.
  destruct (flag turnComplete m); [|reflexivity].
  unfold bind, get, push_message, modify, ret; proj.
  destruct (Js.truthy (Js.trim (currentInput s))); proj;
    destruct (Js.truthy (Js.trim (currentOutput s))); reflexivity.
Qed.

Lemma on_audio_eq outputCtx m s :
  on_audio outputCtx m s
  = match opt inlineData m with
    | Some base64Audio =>
        if Js.truthy base64Audio then
          match outputAudioContextRef s with
          | None => (Return, s)
          | Some audioCtx =>
              let s1 := set_nextStartTimeRef
                          (Math_max (nextStartTimeRef s)
                                    (time_of (audio_contexts s) audioCtx)) s in
              match decode_chunk base64Audio with
              | Some b =>
                  if Nat.eqb audioCtx outputCtx
                  then (Normal tt, scheduled audioCtx b s1)
                  else (Throw (ErrorObject "InvalidAccessError"),
                        unconnected audioCtx b s1)
              | None => (Throw (ErrorObject "DecodeError"), s1)
              end
          end
        else (Normal tt, s)
    | None => (Normal tt, s)
    end.
Proof.
  unfold on_audio.
  destruct (opt inlineData m) as [d|]; [|reflexivity].
  destruct (Js.truthy d); [|reflexivity].
  destruct s as [st ms ci co er iac oac ian oan src nx se no acs sns lss mss].
  unfold bind at 1. unfold get at 1. proj.
  destruct oac as [c|]; [|reflexivity].
  unfold bind at 1. unfold modify at 1. unfold set_nextStartTimeRef at 1. proj.
  unfold bind at 1. unfold await_decode.
  destruct (decode_chunk d) as [b|]; [|reflexivity].
  unfold ret at 1. cbv zeta. unfold node_connect.
  destruct (Nat.eqb_spec c outputCtx) as [<-|Hne].
  - rewrite Nat.eqb_refl.
    unfold createBufferSource, set_buffer, source_start, fresh, bind, get, modify, ret.
    proj. unfold scheduled, set_nextStartTimeRef. proj.
    rewrite !alter_insert_eq. reflexivity.
  - unfold createBufferSource, set_buffer, fresh, bind, get, modify, ret, throw.
    proj. unfold unconnected, set_nextStartTimeRef. proj.
    rewrite !alter_insert_eq. reflexivity.
Qed.

(** The handler, phase by phase. *)
Lemma onmessage_eq outputCtx now m s :
  onmessage outputCtx now m s
  = match on_audio outputCtx m (run (on_turnComplete now m) (run (on_transcription m) s)) with
    | (Normal _, s3) => on_interrupted m s3
    | (Return, s3) => (Return, s3)
    | (Throw e, s3) => (Throw e, s3)
    end.
Proof.
  unfold onmessage. unfold bind at 1. rewrite on_transcription_eq.
  unfold bind at 1. rewrite on_turnComplete_eq.
  unfold bind at 1. reflexivity.
Qed.

Lemma on_transcription_scheduler m s :
  same_scheduler s (run (on_transcription m) s).
Proof.
  unfold run, on_transcription, same_scheduler.
  destruct (opt outputTranscription m); [repeat split|].
  destruct (opt inputTranscription m); [|repeat split].
  destruct (Js.truthy _); repeat split.
Qed.

Lemma on_turnComplete_scheduler now m s :
  same_scheduler s (run (on_turnComplete now m) s).
Proof.
  unfold run, on_turnComplete, same_scheduler.
  destruct (flag turnComplete m); [|repeat split].
  unfold bind, get, push_message, modify, ret; proj.
  destruct (Js.truthy (Js.trim (currentInput s))); proj;
    destruct (Js.truthy (Js.trim (currentOutput s))); repeat split.
Qed.

Lemma same_scheduler_trans a b c :
  same_scheduler a b -> same_scheduler b c -> same_scheduler a c.
Proof.
  unfold same_scheduler. intros H1 H2.
  repeat match goal with H : _ /\ _ |- _ => destruct H end.
  repeat split; congruence.
Qed.

Lemma transcript_phases_scheduler now m s :
  same_scheduler s (run (on_turnComplete now m) (run (on_transcription m) s)).
Proof.
  eapply same_scheduler_trans;
    [apply on_transcription_scheduler | apply on_turnComplete_scheduler].
Qed.

(* ===================================================================== *)
(** ** Clocks and playback *)
(* ===================================================================== *)

Lemma Qle_bool_refl x : Qle_bool x x = true.
Proof. apply Qle_bool_iff, Qle_refl. Qed.

Lemma Qle_bool_trans x y z :
  Qle_bool x y = true -> (y <= z)%Q -> Qle_bool x z = true.
Proof.
  intros H1 H2. apply Qle_bool_iff. eapply Qle_trans; [|exact H2].
  by apply Qle_bool_iff.
Qed.

Lemma Math_max_is_max a b :
  (a <= Math_max a b)%Q /\ (b <= Math_max a b)%Q
  /\ (Math_max a b = a \/ Math_max a b = b).
Proof.
  unfold Math_max. destruct (Qle_bool a b) eqn:E.
  - apply Qle_bool_iff in E. repeat split; [done|apply Qle_refl|by right].
  - repeat split; [apply Qle_refl| |by left].
    destruct (Qlt_le_dec a b) as [Hlt|Hle]; [|done].
    apply Qlt_le_weak, Qle_bool_iff in Hlt. congruence.
Qed.

Lemma over_mono n t t' : over n t = true -> (t <= t')%Q -> over n t' = true.
Proof.
  unfold over. intros H Hle.
  destruct (started n) as [st|]; [|done].
  apply orb_true_iff in H. apply orb_true_iff.
  destruct H as [H|H]; [left|right].
  - destruct (stopped n); [|done]. by eapply Qle_bool_trans.
  - destruct (buffer n); [|done]. by eapply Qle_bool_trans.
Qed.

(** A source whose playback is over stays silent. *)
Lemma over_silent n now t :
  over n now = true -> (now <= t)%Q -> playing n t = false.
Proof.
  intros H Hle. pose proof (over_mono _ _ _ H Hle) as H'.
  unfold over in H'. unfold playing, Qlt_bool.
  destruct (started n) as [st|]; [|done].
  destruct (buffer n) as [b|]; [|done].
  apply orb_true_iff in H'. destruct H' as [H'|H'].
  - destruct (stopped n); [|done]. rewrite H'. simpl. apply andb_false_r.
  - rewrite H'. simpl. by rewrite andb_false_r.
Qed.

Lemma time_of_close_ref r ctxs c : time_of (close_ref r ctxs) c = time_of ctxs c.
Proof.
  unfold time_of, close_ref. destruct r as [c0|]; [|done].
  rewrite lookup_alter. case_decide; [subst|done].
  by destruct (ctxs !! c).
Qed.

Lemma time_of_insert_fresh (ctxs : gmap nat AudioContext) c x c' :
  ctxs !! c = None -> currentTime x = 0%Q ->
  time_of (<[c := x]> ctxs) c' = time_of ctxs c'.
Proof.
  intros Hnone Hx. unfold time_of.
  destruct (decide (c = c')) as [->|Hne].
  - by rewrite lookup_insert_eq, Hnone.
  - by rewrite lookup_insert_ne.
Qed.

Lemma time_of_advance d s c :
  (0 <= d)%Q ->
  (time_of (audio_contexts s) c <= time_of (audio_contexts (advance d s)) c)%Q.
Proof.
  intros Hd. unfold advance, time_of; proj. rewrite lookup_fmap.
  destruct (audio_contexts s !! c) as [x|]; simpl; [|apply Qle_refl].
  destruct (ctx_closed x); simpl; [apply Qle_refl|].
  rewrite <- (Qplus_0_r (currentTime x)) at 1.
  apply Qplus_le_r. exact Hd.
Qed.

Lemma stop_node_over ctxs n :
  is_Some (started n) ->
  (forall ts, stopped n = Some ts ->
     Qle_bool ts (time_of ctxs (node_context n)) = true) ->
  over (stop_node ctxs n) (time_of ctxs (node_context n)) = true.
Proof.
  intros [st Hst] Hts. unfold stop_node, stop_effect, over. rewrite Hst.
  destruct (stopped n) as [ts|] eqn:Hs; simpl; rewrite ?Hst.
  - rewrite ?Hs, (Hts ts eq_refl). reflexivity.
  - simpl. by rewrite Qle_bool_refl.
Qed.

Lemma stop_node_stopped ctxs n :
  is_Some (started n) -> is_Some (stopped (stop_node ctxs n)).
Proof.
  intros [st Hst]. unfold stop_node, stop_effect. rewrite Hst.
  destruct (stopped n) as [ts|] eqn:Hs; simpl; [rewrite Hs|]; eauto.
Qed.

Lemma stop_node_stop_time ctxs n ts :
  stopped (stop_node ctxs n) = Some ts ->
  stopped n = Some ts \/ ts = time_of ctxs (node_context n).
Proof.
  unfold stop_node, stop_effect.
  destruct (started n); simpl; [|by left].
  destruct (stopped n) eqn:Hs; simpl; [rewrite Hs; by left|].
  intros [= <-]. by right.
Qed.

(* ===================================================================== *)
(** ** The scheduler invariant *)
(* ===================================================================== *)

Lemma invariant_initial : scheduler_invariant initial_state.
Proof.
  unfold scheduler_invariant, initial_state; proj.
  repeat split; try done; intros *; try rewrite lookup_empty; try done.
Qed.

(** The invariant reads six fields only. *)
Lemma invariant_ext s s' :
  outputAudioContextRef s' = outputAudioContextRef s ->
  sourcesRef s' = sourcesRef s ->
  nextStartTimeRef s' = nextStartTimeRef s ->
  source_nodes s' = source_nodes s ->
  audio_contexts s' = audio_contexts s ->
  next_object s' = next_object s ->
  scheduler_invariant s -> scheduler_invariant s'.
Proof.
  unfold scheduler_invariant. intros -> -> -> -> -> ->. done.
Qed.

Lemma invariant_same s s' :
  same_scheduler s s' -> scheduler_invariant s -> scheduler_invariant s'.
Proof.
  unfold same_scheduler. intros H.
  repeat match goal with H : _ /\ _ |- _ => destruct H end.
  by apply invariant_ext.
Qed.

(** After the stop loop every source is over and no stop lies ahead. *)
Lemma stop_all_over s h n' :
  scheduler_invariant s ->
  stop_all (audio_contexts s) (elements (sourcesRef s)) (source_nodes s) !! h
    = Some n' ->
  (started n' = None
   \/ over n' (time_of (audio_contexts s) (node_context n')) = true)
  /\ (forall ts, stopped n' = Some ts ->
        Qle_bool ts (time_of (audio_contexts s) (node_context n')) = true)
  /\ (h ∈ sourcesRef s -> is_Some (stopped n')).
Proof.
  intros (_ & Hstarted & Hover & Hstop & _). rewrite stop_all_lookup.
  destruct (decide (h ∈ elements (sourcesRef s))) as [Hin|Hin].
  - apply elem_of_elements in Hin.
    destruct (Hstarted h Hin) as (n & Hn & Hst). rewrite Hn. simpl.
    intros [= <-]. rewrite stop_node_context. split; [|split].
    + right. apply stop_node_over; [done|]. intros ts. by apply (Hstop h).
    + intros ts [Hs| ->]%stop_node_stop_time.
      * by apply (Hstop h).
      * apply Qle_bool_refl.
    + intros _. by apply stop_node_stopped.
  - intros Hn. rewrite elem_of_elements in Hin. split; [|split].
    + by apply (Hover h).
    + intros ts. by apply (Hstop h).
    + done.
Qed.

Lemma invariant_disconnected s :
  scheduler_invariant s -> scheduler_invariant (disconnected s).
Proof.
  intros Hinv. pose proof Hinv as (_ & _ & _ & _ & Hfresh & _).
  unfold scheduler_invariant, disconnected; proj.
  split; [done|]. split; [intros h H; by apply not_elem_of_empty in H|].
  split; [|split; [|split]].
  - intros h n' Hn' _. rewrite !time_of_close_ref.
    by destruct (stop_all_over s h n' Hinv Hn') as (? & _).
  - intros h n' ts Hn' Hts. rewrite !time_of_close_ref.
    destruct (stop_all_over s h n' Hinv Hn') as (_ & H & _). by apply H.
  - intros c x Hc. unfold close_ref in Hc.
    assert (is_Some (audio_contexts s !! c)) as [y Hy]; [|by eapply Hfresh].
    destruct (outputAudioContextRef s), (inputAudioContextRef s);
      repeat (apply lookup_alter_is_Some in Hc || apply mk_is_Some in Hc);
      done.
  - intros h H. by apply not_elem_of_empty in H.
Qed.

(** The state the interruption block leaves. *)
Lemma invariant_interrupted s :
  scheduler_invariant s ->
  scheduler_invariant
    (set_nextStartTimeRef 0%Q
       (set_sourcesRef ∅
          (set_source_nodes
             (stop_all (audio_contexts s) (elements (sourcesRef s))
                       (source_nodes s)) s))).
Proof.
  intros Hinv. pose proof Hinv as (_ & _ & _ & _ & Hfresh & _).
  unfold scheduler_invariant; proj.
  split; [done|]. split; [intros h H; by apply not_elem_of_empty in H|].
  split; [|split; [|split; [done|]]].
  - intros h n' Hn' _. by destruct (stop_all_over s h n' Hinv Hn') as (? & _).
  - intros h n' ts Hn' Hts.
    destruct (stop_all_over s h n' Hinv Hn') as (_ & H & _). by apply H.
  - intros h H. by apply not_elem_of_empty in H.
Qed.

Lemma invariant_cursor s c q :
  outputAudioContextRef s = Some c ->
  scheduler_invariant s -> scheduler_invariant (set_nextStartTimeRef q s).
Proof.
  intros Hc (_ & H2 & H3 & H4 & H5 & H6). unfold scheduler_invariant; proj.
  rewrite Hc. repeat split; done.
Qed.

Lemma invariant_scheduled s c b :
  outputAudioContextRef s = Some c ->
  scheduler_invariant s -> scheduler_invariant (scheduled c b s).
Proof.
  intros Hc (_ & H2 & H3 & H4 & H5 & H6). unfold scheduler_invariant, scheduled; proj.
  rewrite Hc. split; [done|]. split; [|split; [|split; [|split]]].
  - intros h [->%elem_of_singleton|Hin]%elem_of_union.
    + rewrite lookup_insert_eq. eexists; split; [done|]. simpl. eauto.
    + destruct (decide (next_object s = h)) as [<-|Hne].
      * rewrite lookup_insert_eq. eexists; split; [done|]. simpl. eauto.
      * rewrite lookup_insert_ne by done. by apply H2.
  - intros h n Hn Hnot.
    apply not_elem_of_union in Hnot as [Hne%not_elem_of_singleton Hnot].
    rewrite lookup_insert_ne in Hn by done. by apply (H3 h).
  - intros h n ts Hn Hts.
    destruct (decide (next_object s = h)) as [<-|Hne].
    + rewrite lookup_insert_eq in Hn. by injection Hn as <-.
    + rewrite lookup_insert_ne in Hn by done. by apply (H4 h).
  - intros c' x Hx. apply H5 in Hx. lia.
  - intros h [->%elem_of_singleton|Hin%H6]%elem_of_union; lia.
Qed.

Lemma invariant_unconnected s c b :
  outputAudioContextRef s = Some c ->
  scheduler_invariant s -> scheduler_invariant (unconnected c b s).
Proof.
  intros Hc (_ & H2 & H3 & H4 & H5 & H6). unfold scheduler_invariant, unconnected; proj.
  rewrite Hc. split; [done|]. split; [|split; [|split; [|split]]].
  - intros h Hin. destruct (H2 h Hin) as (n & Hn & Hst).
    apply H6 in Hin. rewrite lookup_insert_ne by lia. eauto.
  - intros h n Hn Hnot.
    destruct (decide (next_object s = h)) as [<-|Hne].
    + rewrite lookup_insert_eq in Hn. injection Hn as <-. by left.
    + rewrite lookup_insert_ne in Hn by done. by apply (H3 h).
  - intros h n ts Hn Hts.
    destruct (decide (next_object s = h)) as [<-|Hne].
    + rewrite lookup_insert_eq in Hn. by injection Hn as <-.
    + rewrite lookup_insert_ne in Hn by done. by apply (H4 h).
  - intros c' x Hx. apply H5 in Hx. lia.
  - intros h Hin%H6. lia.
Qed.

Lemma invariant_ended s h :
  enabled (Ended h) s = true ->
  scheduler_invariant s -> scheduler_invariant (run (on_ended h) s).
Proof.
  unfold enabled, run, on_ended, modify; proj.
  intros Hen (H1 & H2 & H3 & H4 & H5 & H6). unfold scheduler_invariant; proj.
  split; [|split; [|split; [|split; [done|split; [done|]]]]].
  - intros Hc. destruct (H1 Hc) as [-> ->]. split; [|done].
    apply leibniz_equiv. intros x. rewrite elem_of_difference.
    split; [by intros [? _]|]. intros Hx. by apply not_elem_of_empty in Hx.
  - intros h' [Hin _]%elem_of_difference. by apply H2.
  - intros h' n Hn Hnot.
    destruct (decide (h' ∈ sourcesRef s)) as [Hin|Hout]; [|by apply (H3 h')].
    destruct (decide (h' = h)) as [->|Hne].
    + right. by rewrite Hn in Hen.
    + exfalso. apply Hnot, elem_of_difference. split; [done|].
      by apply not_elem_of_singleton.
  - intros h' [Hin _]%elem_of_difference. by apply H6.
Qed.

Lemma invariant_advance s d :
  enabled (Tick d) s = true ->
  scheduler_invariant s -> scheduler_invariant (advance d s).
Proof.
  unfold enabled. intros Hd%Qle_bool_iff (H1 & H2 & H3 & H4 & H5 & H6).
  unfold scheduler_invariant.
  split; [exact H1|]. split; [exact H2|]. split; [|split; [|split; [|exact H6]]].
  - intros h n Hn Hnot. destruct (H3 h n Hn Hnot) as [Hs|Ho]; [by left|right].
    eapply over_mono; [exact Ho|]. by apply time_of_advance.
  - intros h n ts Hn Hts. eapply Qle_bool_trans; [by apply (H4 h n)|].
    by apply time_of_advance.
  - intros c x. unfold advance; proj. rewrite lookup_fmap.
    destruct (audio_contexts s !! c) as [y|] eqn:Hy; [|done].
    intros _. by apply (H5 c y).
Qed.

Lemma connect_eq world s : connect world s = (Normal tt, connect_result world s).
Proof.
  destruct s as [st ms ci co er iac oac ian oan src nx se no acs sns lss mss].
  destruct world as [[e1|] [e2|]];
    unfold connect, connect_result, acquiring, with_stream, with_session, rejected,
      try_catch, new_AudioContext, createAnalyser, getUserMedia, live_connect,
      fresh, bind, get, modify, ret, throw;
    proj; reflexivity.
Qed.

Lemma invariant_grow s s' :
  outputAudioContextRef s' = outputAudioContextRef s ->
  sourcesRef s' = sourcesRef s ->
  nextStartTimeRef s' = nextStartTimeRef s ->
  source_nodes s' = source_nodes s ->
  audio_contexts s' = audio_contexts s ->
  (next_object s <= next_object s')%nat ->
  scheduler_invariant s -> scheduler_invariant s'.
Proof.
  unfold scheduler_invariant. intros -> -> -> -> -> Hle (H1 & H2 & H3 & H4 & H5 & H6).
  repeat split; try done; try apply H1; try done.
  - intros c x Hx. apply H5 in Hx. lia.
  - intros h Hin%H6. lia.
Qed.

Lemma invariant_acquiring s :
  scheduler_invariant s -> scheduler_invariant (acquiring s).
Proof.
  intros (H1 & H2 & H3 & H4 & H5 & H6). unfold scheduler_invariant, acquiring; proj.
  assert (Hnone : forall c, (next_object s <= c)%nat -> audio_contexts s !! c = None).
  { intros c Hc. destruct (audio_contexts s !! c) eqn:E; [|done].
    apply H5 in E. lia. }
  assert (Htime : forall c,
    time_of (<[S (next_object s) := mkAudioContext OUTPUT_SAMPLE_RATE 0%Q false]>
               (<[next_object s := mkAudioContext INPUT_SAMPLE_RATE 0%Q false]>
                  (audio_contexts s))) c
    = time_of (audio_contexts s) c).
  { intros c. rewrite time_of_insert_fresh; [|rewrite lookup_insert_ne by lia|done].
    - apply time_of_insert_fresh; [apply Hnone; lia|done].
    - apply Hnone. lia. }
  split; [done|]. split; [done|]. split; [|split; [|split]].
  - intros h n Hn Hnot. rewrite Htime. by apply (H3 h).
  - intros h n ts Hn Hts. rewrite Htime. by apply (H4 h n).
  - intros c x Hx.
    destruct (decide (c = S (next_object s))) as [->|Hne1]; [lia|].
    rewrite lookup_insert_ne in Hx by done.
    destruct (decide (c = next_object s)) as [->|Hne2]; [lia|].
    rewrite lookup_insert_ne in Hx by done.
    apply H5 in Hx. lia.
  - intros h Hin%H6. lia.
Qed.

Lemma invariant_connect world s :
  scheduler_invariant s -> scheduler_invariant (connect_result world s).
Proof.
  intros Hinv%invariant_acquiring. revert Hinv.
  unfold connect_result. generalize (acquiring s). intros a Ha.
  unfold rejected, with_session, with_stream.
  destruct (getUserMedia_answer world);
    [|destruct (live_connect_answer world)];
    (apply (invariant_grow a); [..|exact Ha]); proj; try reflexivity; lia.
Qed.

Lemma invariant_onmessage outputCtx now m s :
  scheduler_invariant s -> scheduler_invariant (run (onmessage outputCtx now m) s).
Proof.
  intros Hinv. unfold run. rewrite onmessage_eq.
  pose proof (transcript_phases_scheduler now m s) as Hsame.
  apply invariant_same in Hsame; [|done]. revert Hsame.
  generalize (run (on_turnComplete now m) (run (on_transcription m) s)).
  intros s2 H2. rewrite on_audio_eq.
  assert (Hint : forall s3, scheduler_invariant s3 ->
                   scheduler_invariant (snd (on_interrupted m s3))).
  { intros s3 H3. rewrite on_interrupted_eq; proj.
    destruct (flag interrupted m); [by apply invariant_interrupted|done]. }
  destruct (opt inlineData m) as [d|]; [|by apply Hint].
  destruct (Js.truthy d); [|by apply Hint].
  destruct (outputAudioContextRef s2) as [c|] eqn:Hc; [|done].
  cbv zeta.
  destruct (decode_chunk d) as [b|].
  - destruct (Nat.eqb c outputCtx).
    + apply Hint, invariant_scheduled; [done|]. by eapply invariant_cursor.
    + proj. apply invariant_unconnected; [done|]. by eapply invariant_cursor.
  - proj. by eapply invariant_cursor.
Qed.

Lemma invariant_disconnect s :
  scheduler_invariant s -> scheduler_invariant (run disconnect s).
Proof.
  intros H. unfold run. rewrite disconnect_eq. by apply invariant_disconnected.
Qed.

Lemma invariant_handle e s :
  enabled e s = true ->
  scheduler_invariant s -> scheduler_invariant (handle e s).
Proof.
  intros Hen Hinv. destruct e as [world| |outputCtx now m| | |h|d]; unfold handle.
  - unfold run, onClick, bind, get.
    destruct (status s); rewrite ?connect_eq, ?disconnect_eq; proj;
      first [by apply invariant_disconnected | by apply invariant_connect].
  - unfold run, onopen, modify; proj. eapply invariant_ext; [..|exact Hinv]; done.
  - by apply invariant_onmessage.
  - unfold run, onerror, bind, modify. rewrite disconnect_eq; proj.
    apply invariant_disconnected.
    eapply invariant_ext; [..|exact Hinv]; done.
  - by apply invariant_disconnect.
  - by apply invariant_ended.
  - by apply invariant_advance.
Qed.

(** Every reachable state satisfies the scheduler invariant. *)
Lemma reachable_invariant s : reachable s -> scheduler_invariant s.
Proof.
  induction 1 as [|s e _ IH Hen]; [apply invariant_initial|].
  by apply invariant_handle.
Qed.

Lemma reachable_idle_session : reachable idle_session.
Proof.
  unfold idle_session.
  change (reachable (handle (Tick 5%Q)
            (handle Onopen (handle (Click all_granted) initial_state)))).
  repeat (apply reachable_step; [|reflexivity]). apply reachable_initial.
Qed.

Lemma reachable_playing_session : reachable playing_session.
Proof.
  unfold playing_session. apply reachable_step; [|reflexivity].
  apply reachable_idle_session.
Qed.

(* ===================================================================== *)
(** ** Teardown *)
(* ===================================================================== *)

(** C4. Invoking [disconnect] twice in succession yields the same end state
    as invoking it once: from any state whatever (sources already stopped,
    session already closed, set already empty, nothing connected at all),
    the first call completes normally in a state [s1] with status
    DISCONNECTED, an empty set of sources, the cursor at 0 and both
    transcript buffers empty, and the second call completes normally and
    leaves [s1] exactly as it is. *)
Theorem disconnect_idempotent (s : State) :
  exists s1,
    disconnect s = (Normal tt, s1)
    /\ disconnect s1 = (Normal tt, s1)
    /\ status s1 = DISCONNECTED
    /\ sourcesRef s1 = ∅
    /\ nextStartTimeRef s1 = 0%Q
    /\ currentInput s1 = ""
    /\ currentOutput s1 = "".
Proof.
  exists (disconnected s). split; [apply disconnect_eq|].
  split; [by rewrite disconnect_eq, disconnected_idem|].
  repeat split.
Qed.

(* ===================================================================== *)
(** ** Playback scheduler *)
(* ===================================================================== *)





(** A message without an audio chunk is handled without an exception. *)
Lemma onmessage_without_audio outputCtx now m s e :
  opt inlineData m = None -> fst (onmessage outputCtx now m s) <> Throw e.
Proof.
  intros Hnone. rewrite onmessage_eq, on_audio_eq, Hnone, on_interrupted_eq.
  discriminate.
Qed.

(** C3, as the claim states it, fails: a message that carries the
    interruption marker together with an audio chunk that does not decode
    ends in the DecodeError before the interruption block is reached; the
    source that was playing stays in the set, is not stopped, and is still
    playing. *)
Lemma interruption_lost_with_bad_chunk :
  let message :=
    mkLiveServerMessage
      (Some (mkServerContent None None false (Some "!!!!") true)) in
  let s' := run (onmessage 1 (clock_at 0) message) playing_session in
  flag interrupted message = true
  /\ elements (sourcesRef playing_session) = [6%nat]
  /\ elements (sourcesRef s') = [6%nat]
  /\ sourcesRef s' <> ∅
  /\ exists n,
       source_nodes s' !! 6%nat = Some n
       /\ stopped n = None
       /\ time_of (audio_contexts s') (node_context n) = 5%Q
       /\ playing n 5%Q = true.
Proof.
  cbv zeta. split; [reflexivity|]. split; [reflexivity|].
  split; [reflexivity|]. split.
  - intros H. apply (f_equal elements) in H. rewrite elements_empty in H.
    discriminate H.
  - exists (mkSourceNode 1
              (Some (AudioUtils.mkAudioBuffer
                       [(1 # 32767)%Q; (32767 # 32767)%Q] 24000))
              (Some 5%Q) None).
    split; [reflexivity|]. split; [reflexivity|]. split; reflexivity.
Qed.

(** C3, amended. A message carrying the interruption marker, handled in
    any reachable state by a handler run that does not end in an exception
    (that is, no audio chunk of the same message fails to decode or to be
    connected):
    afterwards the set of sources is empty, the cursor is 0, every source
    that was in the set has been stopped, and no source the scheduler ever
    created plays at any time from now on (on the clock of its context). *)
Theorem interruption_silences (outputCtx : nat) (now : DateNow)
    (message : LiveServerMessage) (s : State) :
  reachable s ->
  flag interrupted message = true ->
  (forall e, fst (onmessage outputCtx now message s) <> Throw e) ->
  let s' := run (onmessage outputCtx now message) s in
  sourcesRef s' = ∅
  /\ nextStartTimeRef s' = 0%Q
  /\ (forall h, h ∈ sourcesRef s ->
        exists n, source_nodes s' !! h = Some n /\ is_Some (stopped n))
  /\ (forall h n t, source_nodes s' !! h = Some n ->
        (time_of (audio_contexts s') (node_context n) <= t)%Q ->
        playing n t = false).
Proof.
  intros Hreach Hint Hnothrow s'.
  pose proof (reachable_invariant s Hreach) as Hinv.
  pose proof (invariant_onmessage outputCtx now message s Hinv) as Hinv'.
  fold s' in Hinv'.
  assert (Hsilent : sourcesRef s' = ∅ ->
            forall h n t, source_nodes s' !! h = Some n ->
              (time_of (audio_contexts s') (node_context n) <= t)%Q ->
              playing n t = false).
  { intros Hempty h n t Hn Ht. destruct Hinv' as (_ & _ & Hover & _).
    destruct (Hover h n Hn) as [Hnever|Hover'].
    - rewrite Hempty. apply not_elem_of_empty.
    - unfold playing. by rewrite Hnever.
    - eapply over_silent; [exact Hover'|exact Ht]. }
  cut (sourcesRef s' = ∅ /\ nextStartTimeRef s' = 0%Q
       /\ (forall h, h ∈ sourcesRef s ->
             exists n, source_nodes s' !! h = Some n /\ is_Some (stopped n))).
  { intros (H1 & H2 & H3). repeat split; try done. by apply Hsilent. }
  clear Hsilent Hinv'. subst s'. unfold run. revert Hnothrow.
  rewrite onmessage_eq.
  pose proof (transcript_phases_scheduler now message s) as Hsame.
  pose proof (invariant_same _ _ Hsame Hinv) as Hinv2. revert Hsame Hinv2.
  generalize (run (on_turnComplete now message) (run (on_transcription message) s)).
  intros s2 (_ & _ & _ & Ho & Hsrc & Hcur & _ & _ & _ & Hnodes & _) Hinv2.
  assert (Hblock : forall s3, scheduler_invariant s3 ->
            sourcesRef s ⊆ sourcesRef s3 ->
            sourcesRef (snd (on_interrupted message s3)) = ∅
            /\ nextStartTimeRef (snd (on_interrupted message s3)) = 0%Q
            /\ (forall h, h ∈ sourcesRef s ->
                  exists n, source_nodes (snd (on_interrupted message s3)) !! h
                            = Some n /\ is_Some (stopped n))).
  { intros s3 H3 Hsub. rewrite on_interrupted_eq, Hint; proj.
    split; [done|]. split; [done|]. intros h Hh. apply Hsub in Hh.
    pose proof H3 as (_ & Hstarted & _).
    destruct (Hstarted h Hh) as (n & Hn & Hst).
    assert (is_Some (stop_all (audio_contexts s3) (elements (sourcesRef s3))
                       (source_nodes s3) !! h)) as [n' Hn'].
    { rewrite stop_all_lookup, Hn. by destruct (decide _). }
    exists n'. split; [done|].
    by destruct (stop_all_over s3 h n' H3 Hn') as (_ & _ & Hs); apply Hs. }
  rewrite on_audio_eq.
  destruct (opt inlineData message) as [d|];
    [|intros _; apply Hblock; [done|by rewrite Hsrc]].
  destruct (Js.truthy d); [|intros _; apply Hblock; [done|by rewrite Hsrc]].
  destruct (outputAudioContextRef s2) as [c|] eqn:Hc.
  - cbv zeta. destruct (decode_chunk d) as [b|].
    + destruct (Nat.eqb c outputCtx).
      * intros _. apply Hblock.
        -- apply invariant_scheduled; [done|]. by eapply invariant_cursor.
        -- unfold scheduled; proj. rewrite Hsrc. apply union_subseteq_r.
      * intros Hno. exfalso. by apply (Hno (ErrorObject "InvalidAccessError")).
    + intros Hno. exfalso. by apply (Hno (ErrorObject "DecodeError")).
  - intros _. proj. destruct Hinv2 as (H1 & _).
    destruct (H1 Hc) as [He Hz]. split; [done|]. split; [done|].
    intros h Hh. rewrite <- Hsrc, He in Hh. by apply not_elem_of_empty in Hh.
Qed.

Lemma interruption_silences_witness :
  let s' := run (onmessage 1 (clock_at 0) interruption) playing_session in
  elements (sourcesRef playing_session) = [6%nat]
  /\ sourcesRef s' = ∅
  /\ nextStartTimeRef s' = 0%Q
  /\ (forall h, h ∈ sourcesRef playing_session ->
        exists n, source_nodes s' !! h = Some n /\ is_Some (stopped n))
  /\ (forall h n t, source_nodes s' !! h = Some n ->
        (time_of (audio_contexts s') (node_context n) <= t)%Q ->
        playing n t = false).
Proof.
  intros s'. split; [reflexivity|].
  apply (interruption_silences 1 (clock_at 0) interruption playing_session).
  - apply reachable_playing_session.
  - reflexivity.
  - intros e. by apply onmessage_without_audio.
Defined.

(* ===================================================================== *)
(** ** A failed connect attempt *)
(* ===================================================================== *)

(** C5, what the code does. When the microphone is refused or the
    transport does not open, [connect] completes with the error message
    set and the status DISCONNECTED, but without any teardown: both audio
    contexts created for the attempt stay open and stay in the refs (and
    after a transport failure the microphone stream stays live), whereas
    [onerror], the sibling failure path, goes through [disconnect] and
    leaves both refs empty and both contexts closed. *)
Theorem connect_failure_leaks_contexts (s : State) (err : Thrown)
    (world : ConnectAnswers) :
  getUserMedia_answer world = Some err
  \/ (getUserMedia_answer world = None /\ live_connect_answer world = Some err) ->
  let s' := run (connect world) s in
  let input := next_object s in
  let output := S (next_object s) in
  status s' = DISCONNECTED
  /\ error s' = Some match err with
                     | ErrorObject m => m
                     | OtherValue => "Gagal memulai sesi"
                     end
  /\ inputAudioContextRef s' = Some input
  /\ outputAudioContextRef s' = Some output
  /\ audio_contexts s' !! input = Some (mkAudioContext INPUT_SAMPLE_RATE 0%Q false)
  /\ audio_contexts s' !! output = Some (mkAudioContext OUTPUT_SAMPLE_RATE 0%Q false)
  /\ (getUserMedia_answer world = None ->
      media_streams s' !! (4 + next_object s)%nat = Some true)
  /\ ~ contexts_released s'
  /\ (let s'' := run onerror s' in
      status s'' = DISCONNECTED
      /\ inputAudioContextRef s'' = None
      /\ outputAudioContextRef s'' = None
      /\ audio_contexts s'' !! input = Some (mkAudioContext INPUT_SAMPLE_RATE 0%Q true)
      /\ audio_contexts s'' !! output = Some (mkAudioContext OUTPUT_SAMPLE_RATE 0%Q true)).
Proof.
  intros Hfail s' input output. subst s'. unfold run. rewrite connect_eq; proj.
  unfold onerror, bind, modify. rewrite disconnect_eq; proj.
  unfold connect_result.
  assert (Hin : forall m : gmap nat AudioContext,
            <[output := mkAudioContext OUTPUT_SAMPLE_RATE 0%Q false]>
              (<[input := mkAudioContext INPUT_SAMPLE_RATE 0%Q false]> m) !! input
            = Some (mkAudioContext INPUT_SAMPLE_RATE 0%Q false)).
  { intros m. rewrite lookup_insert_ne by (subst input output; lia).
    apply lookup_insert_eq. }
  destruct Hfail as [-> | [-> ->]];
    unfold rejected, with_stream, acquiring, disconnected, close_ref; proj;
    (split; [reflexivity|]); (split; [reflexivity|]);
    (split; [reflexivity|]); (split; [reflexivity|]);
    (split; [apply Hin|]); (split; [apply lookup_insert_eq|]).
  - split; [intros; congruence|]. split.
    + intros (Hi & _). discriminate Hi.
    + repeat split.
      * rewrite lookup_alter_ne by (subst input output; lia).
        rewrite lookup_alter_eq, Hin. reflexivity.
      * rewrite lookup_alter_eq, lookup_alter_ne by (subst input output; lia).
        rewrite lookup_insert_eq. reflexivity.
  - split; [intros _; apply lookup_insert_eq|]. split.
    + intros (Hi & _). discriminate Hi.
    + repeat split.
      * rewrite lookup_alter_ne by (subst input output; lia).
        rewrite lookup_alter_eq, Hin. reflexivity.
      * rewrite lookup_alter_eq, lookup_alter_ne by (subst input output; lia).
        rewrite lookup_insert_eq. reflexivity.
Qed.

Lemma connect_failure_leaks_contexts_witness :
  let s' := run (connect (mkConnectAnswers
                            (Some (ErrorObject "Permission denied")) None))
                initial_state in
  status s' = DISCONNECTED
  /\ error s' = Some "Permission denied"
  /\ inputAudioContextRef s' = Some 0%nat
  /\ outputAudioContextRef s' = Some 1%nat
  /\ audio_contexts s' !! 0%nat = Some (mkAudioContext 16000 0%Q false)
  /\ audio_contexts s' !! 1%nat = Some (mkAudioContext 24000 0%Q false).
Proof.
  intros s'.
  destruct (connect_failure_leaks_contexts initial_state
              (ErrorObject "Permission denied")
              (mkConnectAnswers (Some (ErrorObject "Permission denied")) None)
              (or_introl eq_refl))
    as (H1 & H2 & H3 & H4 & H5 & H6 & _).
  repeat split; assumption.
Defined.

(* ===================================================================== *)
(** ** Strings *)
(* ===================================================================== *)

Lemma append_empty_r s : s +:+ "" = s.
Proof.
  induction s as [|c s IH]; [done|].
  change (String c (s +:+ "") = String c s). by f_equal.
Qed.

Lemma append_assoc a b c : (a +:+ b) +:+ c = a +:+ (b +:+ c).
Proof.
  induction a as [|x a IH]; [done|].
  change (String x ((a +:+ b) +:+ c) = String x (a +:+ (b +:+ c))). by f_equal.
Qed.

Lemma or_empty_Some t : Js.or_empty (Some t) = t.
Proof. by destruct t. Qed.

Lemma truthy_false s : Js.truthy s = false <-> s = "".
Proof. by destruct s. Qed.

Lemma trimStart_blank s : Js.trimStart s = "" <-> blank s = true.
Proof.
  induction s as [|c s IH]; simpl; [done|].
  destruct (Js.is_white_space c); simpl; [exact IH|done].
Qed.

Lemma trimStart_head s c r :
  Js.trimStart s = String c r -> Js.is_white_space c = false.
Proof.
  induction s as [|x s IH]; simpl; [done|].
  destruct (Js.is_white_space x) eqn:E; [exact IH|].
  by intros [= <- _].
Qed.

Lemma trimEnd_head c r :
  Js.is_white_space c = false -> Js.trimEnd (String c r) <> "".
Proof.
  intros Hc. simpl. rewrite Hc. by destruct (Js.trimEnd r).
Qed.

(** [s.trim()] is empty exactly when [s] is white space only. *)
Lemma trim_empty s : Js.trim s = "" <-> blank s = true.
Proof.
  unfold Js.trim. rewrite <- trimStart_blank.
  destruct (Js.trimStart s) as [|c r] eqn:E; [done|].
  split; [|done]. intros H. exfalso.
  by apply (trimEnd_head c r (trimStart_head s c r E)).
Qed.

Lemma blank_append a b : blank (a +:+ b) = blank a && blank b.
Proof.
  induction a as [|c a IH]; [done|].
  change (Js.is_white_space c && blank (a +:+ b)
          = Js.is_white_space c && blank a && blank b).
  by rewrite IH, andb_assoc.
Qed.

Lemma blank_replace_noise k s :
  blank s = true -> blank (Js.replace_noise_from k s) = true.
Proof.
  revert k. induction s as [|c s IH]; intros k; simpl; [done|].
  intros [Hc Hs]%andb_true_iff.
  destruct k; [|by apply IH].
  destruct (Js.noise_at (String c s)); [by apply IH|].
  simpl. by rewrite Hc, IH.
Qed.

Lemma blank_concat l t :
  blank (concat_strings l) = true -> In t l -> blank t = true.
Proof.
  induction l as [|x l IH]; [done|].
  cbn [concat_strings fold_right In]. fold (concat_strings l).
  rewrite blank_append. intros [Hx Hl]%andb_true_iff [->|Hin]; [done|by apply IH].
Qed.

(* ===================================================================== *)
(** ** Turn aggregator *)
(* ===================================================================== *)

(** The audio and interruption phases leave history and buffers alone. *)
Lemma onmessage_view outputCtx now m s :
  let s2 := run (on_turnComplete now m) (run (on_transcription m) s) in
  let s' := run (onmessage outputCtx now m) s in
  messages s' = messages s2
  /\ currentInput s' = currentInput s2
  /\ currentOutput s' = currentOutput s2.
Proof.
  cbv zeta. unfold run at 1 4 7. rewrite onmessage_eq.
  generalize (run (on_turnComplete now m) (run (on_transcription m) s)).
  intros s2. rewrite on_audio_eq.
  assert (Hint : forall s3,
            messages (snd (on_interrupted m s3)) = messages s3
            /\ currentInput (snd (on_interrupted m s3)) = currentInput s3
            /\ currentOutput (snd (on_interrupted m s3)) = currentOutput s3).
  { intros s3. rewrite on_interrupted_eq; proj. by destruct (flag interrupted m). }
  destruct (opt inlineData m) as [d|]; [|apply Hint].
  destruct (Js.truthy d); [|apply Hint].
  destruct (outputAudioContextRef s2) as [c|]; [|done].
  cbv zeta. destruct (decode_chunk d) as [b|]; [|done].
  destruct (Nat.eqb c outputCtx); [|done].
  destruct (Hint (scheduled c b
              (set_nextStartTimeRef
                 (Math_max (nextStartTimeRef s2) (time_of (audio_contexts s2) c))
                 s2))) as (-> & -> & ->).
  done.
Qed.

Lemma on_transcription_view m s :
  let s1 := run (on_transcription m) s in
  messages s1 = messages s
  /\ currentInput s1 = currentInput s +:+ user_fragment m
  /\ currentOutput s1 = currentOutput s +:+ model_fragment m.
Proof.
  cbv zeta. unfold run, on_transcription, user_fragment, model_fragment.
  destruct (opt outputTranscription m) as [tr|].
  { unfold modify; proj. by rewrite append_empty_r. }
  destruct (opt inputTranscription m) as [tr|];
    [|unfold ret; proj; by rewrite !append_empty_r].
  cbv zeta.
  destruct (Js.truthy _) eqn:E; unfold modify, ret; proj;
    rewrite ?append_empty_r; [done|].
  apply truthy_false in E. by rewrite E, append_empty_r.
Qed.

Lemma on_turnComplete_view now m s :
  let s2 := run (on_turnComplete now m) s in
  if flag turnComplete m then
    messages s2 = messages s ++ finalized now (currentInput s) (currentOutput s)
    /\ currentInput s2 = "" /\ currentOutput s2 = ""
  else
    messages s2 = messages s
    /\ currentInput s2 = currentInput s /\ currentOutput s2 = currentOutput s.
Proof.
  cbv zeta. unfold run, on_turnComplete, finalized.
  destruct (flag turnComplete m); [|done].
  unfold bind, get, push_message, modify, ret; proj.
  destruct (Js.truthy (Js.trim (currentInput s))); proj;
    destruct (Js.truthy (Js.trim (currentOutput s))); proj;
    rewrite <- ?app_assoc, ?app_nil_r; done.
Qed.

(** Fragment-only messages accumulate in arrival order, with nothing in
    between, and add nothing to the history. *)
Lemma fragments_accumulate outputCtx now frs s :
  let s1 := run_events (fragment_events outputCtx now frs) s in
  messages s1 = messages s
  /\ currentInput s1
     = currentInput s
       +:+ concat_strings
             (map (fun t => Js.trim (Js.replace_noise t)) (texts_of user frs))
  /\ currentOutput s1 = currentOutput s +:+ concat_strings (texts_of model frs).
Proof.
  cbv zeta. revert s. induction frs as [|[r t] frs IH]; intros s.
  { simpl. by rewrite !append_empty_r. }
  change (run_events (fragment_events outputCtx now ((r, t) :: frs)) s)
    with (run_events (fragment_events outputCtx now frs)
            (run (onmessage outputCtx now (fragment r t)) s)).
  destruct (IH (run (onmessage outputCtx now (fragment r t)) s)) as (-> & -> & ->).
  destruct (onmessage_view outputCtx now (fragment r t) s) as (-> & -> & ->).
  pose proof (on_turnComplete_view now (fragment r t)
                (run (on_transcription (fragment r t)) s)) as Htc.
  assert (flag turnComplete (fragment r t) = false) as Hflag by by destruct r.
  rewrite Hflag in Htc. destruct Htc as (-> & -> & ->).
  destruct (on_transcription_view (fragment r t) s) as (-> & -> & ->).
  split; [done|].
  destruct r.
  - change (texts_of user ((user, t) :: frs)) with (t :: texts_of user frs).
    change (texts_of model ((user, t) :: frs)) with (texts_of model frs).
    change (user_fragment (fragment user t))
      with (Js.trim (Js.replace_noise (Js.or_empty (Some t)))).
    change (model_fragment (fragment user t)) with "".
    change (concat_strings (map ?f (t :: ?l)))
      with (f t +:+ concat_strings (map f l)).
    by rewrite or_empty_Some, append_empty_r, append_assoc.
  - change (texts_of model ((model, t) :: frs)) with (t :: texts_of model frs).
    change (texts_of user ((model, t) :: frs)) with (texts_of user frs).
    change (model_fragment (fragment model t)) with (Js.or_empty (Some t)).
    change (user_fragment (fragment model t)) with "".
    change (concat_strings (t :: ?l)) with (t +:+ concat_strings l).
    by rewrite or_empty_Some, append_empty_r, append_assoc.
Qed.

Lemma finalized_cases now fullIn fullOut :
  finalized now fullIn fullOut
  = (if Js.truthy (Js.trim fullIn)
     then [mkMessage (pretty (id_in now) +:+ "-in") user fullIn chat
             (timestamp_in now)]
     else [])
    ++ (if Js.truthy (Js.trim fullOut)
        then [mkMessage (pretty (id_out now) +:+ "-out") model fullOut
                (if isCorrection fullOut then correction else chat)
                (timestamp_out now)]
        else []).
Proof. reflexivity. Qed.

Lemma finalized_count now fullIn fullOut r :
  (count_role r (finalized now fullIn fullOut) <= 1)%nat
  /\ (Js.trim (match r with user => fullIn | model => fullOut end) = "" ->
      count_role r (finalized now fullIn fullOut) = 0%nat).
Proof.
  rewrite finalized_cases. unfold count_role, of_role.
  destruct r.
  - destruct (Js.truthy (Js.trim fullIn)) eqn:Ein;
      destruct (Js.truthy (Js.trim fullOut)); cbn [app List.filter msg_role role_eqb length];
      (split; [lia|]); intros Ht; rewrite Ht in Ein; done.
  - destruct (Js.truthy (Js.trim fullIn));
      destruct (Js.truthy (Js.trim fullOut)) eqn:Eout;
      cbn [app List.filter msg_role role_eqb length];
      (split; [lia|]); intros Ht; rewrite Ht in Eout; done.
Qed.

Lemma finalized_types now fullIn fullOut x :
  In x (finalized now fullIn fullOut) ->
  (msg_role x = user /\ msg_text x = fullIn /\ msg_type x = chat)
  \/ (msg_role x = model /\ msg_text x = fullOut
      /\ msg_type x = if isCorrection fullOut then correction else chat).
Proof.
  rewrite finalized_cases. intros [H|H]%in_app_iff.
  - destruct (Js.truthy (Js.trim fullIn)); [|done].
    destruct H as [<-|[]]. by left.
  - destruct (Js.truthy (Js.trim fullOut)); [|done].
    destruct H as [<-|[]]. by right.
Qed.

(** What one message adds to the history. *)
Lemma onmessage_history outputCtx now m s :
  messages (run (onmessage outputCtx now m) s)
  = messages s
    ++ (if flag turnComplete m
        then finalized now (currentInput s +:+ user_fragment m)
                           (currentOutput s +:+ model_fragment m)
        else []).
Proof.
  destruct (onmessage_view outputCtx now m s) as (-> & _ & _).
  pose proof (on_turnComplete_view now m (run (on_transcription m) s)) as Htc.
  destruct (on_transcription_view m s) as (Hm & Hi & Ho).
  destruct (flag turnComplete m).
  - destruct Htc as (-> & _ & _). by rewrite Hm, Hi, Ho.
  - destruct Htc as (-> & _ & _). by rewrite Hm, app_nil_r.
Qed.

Lemma onmessage_buffers outputCtx now m s :
  let s' := run (onmessage outputCtx now m) s in
  if flag turnComplete m then currentInput s' = "" /\ currentOutput s' = ""
  else currentInput s' = currentInput s +:+ user_fragment m
       /\ currentOutput s' = currentOutput s +:+ model_fragment m.
Proof.
  cbv zeta. destruct (onmessage_view outputCtx now m s) as (_ & -> & ->).
  pose proof (on_turnComplete_view now m (run (on_transcription m) s)) as Htc.
  destruct (on_transcription_view m s) as (Hm & Hi & Ho).
  destruct (flag turnComplete m).
  - by destruct Htc as (_ & -> & ->).
  - destruct Htc as (_ & -> & ->). by rewrite Hi, Ho.
Qed.

(** C6, as the claim states it, fails: the user fragments "Hello " and
    "world" accumulate to "Helloworld", while the fragments, stripped of
    noise markers only and concatenated, read "Hello world". *)
Lemma user_fragment_loses_spaces :
  currentInput
    (run_events (fragment_events 1 (clock_at 0) [(user, "Hello "); (user, "world")])
                idle_session)
  = "Helloworld"
  /\ concat_strings (map Js.replace_noise ["Hello "; "world"]) = "Hello world".
Proof. split; reflexivity. Qed.

(** C6, amended. After any sequence of fragment messages followed by a
    message without the end-of-turn marker, the model buffer is its old
    content followed by the model fragments verbatim, in arrival order, with
    nothing in between; the user buffer is its old content followed, in
    arrival order and with nothing in between, by each user fragment with
    the noise markers removed and then trimmed of white space at both ends.
    Of a message that carries both kinds of fragment only the model one is
    appended. *)
Theorem fragments_are_appended (outputCtx : nat) (now : DateNow)
    (frs : list (Role * string))
    (message : LiveServerMessage) (s : State) :
  flag turnComplete message = false ->
  let s' := run (onmessage outputCtx now message)
              (run_events (fragment_events outputCtx now frs) s) in
  currentOutput s'
  = currentOutput s +:+ concat_strings (texts_of model frs)
    +:+ match opt outputTranscription message with
        | Some tr => Js.or_empty (tr_text tr)
        | None => ""
        end
  /\ currentInput s'
     = currentInput s
       +:+ concat_strings
             (map (fun t => Js.trim (Js.replace_noise t)) (texts_of user frs))
       +:+ match opt outputTranscription message, opt inputTranscription message with
           | None, Some tr => Js.trim (Js.replace_noise (Js.or_empty (tr_text tr)))
           | _, _ => ""
           end.
Proof.
  intros Hflag s'. subst s'.
  pose proof (onmessage_buffers outputCtx now message
                (run_events (fragment_events outputCtx now frs) s)) as Hb.
  rewrite Hflag in Hb. cbv zeta in Hb. destruct Hb as (-> & ->).
  destruct (fragments_accumulate outputCtx now frs s) as (_ & -> & ->).
  rewrite !append_assoc. done.
Qed.

Lemma fragments_are_appended_witness :
  currentOutput
    (run (onmessage 1 (clock_at 0) (fragment model " wor"))
       (run_events (fragment_events 1 (clock_at 0) [(model, "Hel"); (user, " <noise> ");
                                       (model, "lo")]) idle_session))
  = "Hello wor"
  /\ currentInput
       (run (onmessage 1 (clock_at 0) (fragment user " there [NOISE]"))
          (run_events (fragment_events 1 (clock_at 0) [(user, "Hi "); (model, "x")])
                      idle_session))
     = "Hithere".
Proof.
  split.
  - exact (proj1 (fragments_are_appended 1 (clock_at 0)
             [(model, "Hel"); (user, " <noise> "); (model, "lo")]
             (fragment model " wor") idle_session eq_refl)).
  - exact (proj2 (fragments_are_appended 1 (clock_at 0) [(user, "Hi "); (model, "x")]
             (fragment user " there [NOISE]") idle_session eq_refl)).
Defined.

Lemma appended_onmessage outputCtx now m s :
  appended s (run (onmessage outputCtx now m) s)
  = if flag turnComplete m
    then finalized now (currentInput s +:+ user_fragment m)
                       (currentOutput s +:+ model_fragment m)
    else [].
Proof. unfold appended. by rewrite onmessage_history, drop_app_length. Qed.

(** C7, as the claim states it, fails: a user turn whose text contains
    the marker "tip:" is finalized with type chat, not correction. *)
Lemma user_turn_with_marker_is_chat :
  exists x,
    messages (run_events [Onmessage 1 (clock_at 0) (fragment user "Tip: speak slowly");
                          Onmessage 1 (clock_at 0) turn_complete] idle_session) = [x]
    /\ msg_role x = user
    /\ Js.includes (Js.toLowerCase (msg_text x)) "tip:" = true
    /\ msg_type x = chat
    /\ msg_type x <> correction.
Proof.
  eexists. split; [reflexivity|]. split; [reflexivity|].
  split; [reflexivity|]. split; [reflexivity|discriminate].
Qed.

(** C7, amended. Of the messages a turn-complete event appends to the
    history, a model-role message has type correction exactly when its text,
    in lower case, contains "correction:" or "tip:", and type chat
    otherwise; a user-role message always has type chat. *)
Theorem finalized_message_type (outputCtx : nat) (now : DateNow)
    (message : LiveServerMessage)
    (s : State) (x : Message) :
  flag turnComplete message = true ->
  In x (appended s (run (onmessage outputCtx now message) s)) ->
  (msg_role x = model ->
     msg_type x
     = if Js.includes (Js.toLowerCase (msg_text x)) "correction:"
          || Js.includes (Js.toLowerCase (msg_text x)) "tip:"
       then correction else chat)
  /\ (msg_role x = user -> msg_type x = chat).
Proof.
  intros Hflag. rewrite appended_onmessage, Hflag.
  intros [(Hr & Ht & Hty)|(Hr & Ht & Hty)]%finalized_types.
  - split; [intros Hm; congruence|done].
  - split; [|intros Hu; congruence].
    intros _. rewrite Hty, Ht. reflexivity.
Qed.

(** The example of the specification: the model fragments that assemble
    to the sentence below, followed by turn-complete, yield one message of
    type correction. *)
Lemma finalized_message_type_witness :
  let s := run_events (fragment_events 1 (clock_at 0)
             [(model, "Nice try. "); (model, "Correction: It is ");
              (model, "called a chair.")]) idle_session in
  let x := mkMessage "0-out" model "Nice try. Correction: It is called a chair."
             correction 0 in
  appended s (run (onmessage 1 (clock_at 0) turn_complete) s) = [x]
  /\ (msg_role x = model ->
        msg_type x
        = if Js.includes (Js.toLowerCase (msg_text x)) "correction:"
             || Js.includes (Js.toLowerCase (msg_text x)) "tip:"
          then correction else chat)
  /\ (msg_role x = user -> msg_type x = chat).
Proof.
  intros s x. split; [reflexivity|].
  apply (finalized_message_type 1 (clock_at 0) turn_complete s x eq_refl).
  left. reflexivity.
Defined.

(** C8. A turn-complete event, arriving after any sequence of fragment
    messages: the history grows by a list [new] that holds at most one
    message per role; a role whose buffer at that moment trims to the empty
    string gets none; in particular a role that started with an empty
    buffer and received only fragments whose concatenation trims to the
    empty string gets none; and both buffers are empty afterwards. *)
Theorem turn_complete_emits_at_most_one (outputCtx : nat) (now : DateNow)
    (frs : list (Role * string))
    (message : LiveServerMessage) (s : State) :
  flag turnComplete message = true ->
  let s1 := run_events (fragment_events outputCtx now frs) s in
  let s' := run (onmessage outputCtx now message) s1 in
  exists new,
    messages s' = messages s ++ new
    /\ (forall r, (count_role r new <= 1)%nat)
    /\ (forall r, Js.trim (accumulator r (run (on_transcription message) s1)) = "" ->
          count_role r new = 0%nat)
    /\ (forall r, accumulator r s = "" ->
          opt outputTranscription message = None ->
          opt inputTranscription message = None ->
          Js.trim (concat_strings (texts_of r frs)) = "" ->
          count_role r new = 0%nat)
    /\ (forall r, accumulator r s' = "").
Proof.
  intros Hflag s1 s'. subst s'.
  pose proof (onmessage_history outputCtx now message s1) as Hh.
  pose proof (onmessage_buffers outputCtx now message s1) as Hb.
  rewrite Hflag in Hh, Hb. cbv zeta in Hb. destruct Hb as (Hi & Ho).
  destruct (on_transcription_view message s1) as (_ & Hti & Hto).
  destruct (fragments_accumulate outputCtx now frs s) as (Hm1 & Hi1 & Ho1). fold s1 in Hm1, Hi1, Ho1.
  exists (finalized now (currentInput s1 +:+ user_fragment message)
                        (currentOutput s1 +:+ model_fragment message)).
  split; [by rewrite Hh, Hm1|].
  split; [intros r; apply finalized_count|].
  split.
  { intros r Hr. apply finalized_count. destruct r; simpl in Hr; congruence. }
  split; [|by intros []].
  intros r Hempty Hno_out Hno_in Hblank%trim_empty.
  apply finalized_count. apply trim_empty.
  unfold user_fragment, model_fragment. rewrite Hno_out, Hno_in.
  destruct r; simpl in Hempty; rewrite append_empty_r.
  - rewrite Hi1, Hempty. change ("" +:+ ?x) with x.
    clear -Hblank. induction (texts_of user frs) as [|t l IH]; [done|].
    change (concat_strings (t :: l)) with (t +:+ concat_strings l) in Hblank.
    rewrite blank_append in Hblank. apply andb_true_iff in Hblank as [Ht Hl].
    change (blank (Js.trim (Js.replace_noise t)
                   +:+ concat_strings (map (fun t => Js.trim (Js.replace_noise t)) l))
            = true).
    rewrite blank_append, (IH Hl), andb_true_r.
    assert (Js.trim (Js.replace_noise t) = "") as ->; [|done].
    apply trim_empty. by apply blank_replace_noise.
  - rewrite Ho1, Hempty. exact Hblank.
Qed.

Lemma turn_complete_emits_at_most_one_witness :
  let s1 := run_events (fragment_events 1 (clock_at 0)
              [(user, "Hel"); (model, "  "); (user, "lo wor"); (user, "ld")])
              idle_session in
  let s' := run (onmessage 1 (clock_at 0) turn_complete) s1 in
  messages s' = [mkMessage "0-in" user "Hello world" chat 0]
  /\ exists new,
       messages s' = messages idle_session ++ new
       /\ (forall r, (count_role r new <= 1)%nat)
       /\ (forall r, Js.trim (accumulator r (run (on_transcription turn_complete) s1)) = "" ->
             count_role r new = 0%nat)
       /\ (forall r, accumulator r idle_session = "" ->
             opt outputTranscription turn_complete = None ->
             opt inputTranscription turn_complete = None ->
             Js.trim (concat_strings (texts_of r
                [(user, "Hel"); (model, "  "); (user, "lo wor"); (user, "ld")])) = "" ->
             count_role r new = 0%nat)
       /\ (forall r, accumulator r s' = "").
Proof.
  intros s1 s'. split; [reflexivity|].
  exact (turn_complete_emits_at_most_one 1 (clock_at 0)
           [(user, "Hel"); (model, "  "); (user, "lo wor"); (user, "ld")]
           turn_complete idle_session eq_refl).
Defined.

(* ===================================================================== *)
(** ** Message types in the history *)
(* ===================================================================== *)

Lemma handle_history e s x :
  In x (messages (handle e s)) ->
  In x (messages s) \/ msg_type x = chat \/ msg_type x = correction.
Proof.
  destruct e as [world| |outputCtx now m| | |h|d]; unfold handle.
  - unfold run, onClick, bind, get.
    destruct (status s); rewrite ?connect_eq, ?disconnect_eq; proj;
      try (by left);
      (unfold connect_result, rejected, with_session, with_stream;
       destruct (getUserMedia_answer world);
       [|destruct (live_connect_answer world)]; proj; by left).
  - by left.
  - rewrite onmessage_history. intros [H|H]%in_app_iff; [by left|right].
    destruct (flag turnComplete m); [|done].
    apply finalized_types in H as [(_ & _ & ->)|(_ & _ & ->)]; [by left|].
    destruct (isCorrection _); [by right|by left].
  - unfold run, onerror, bind, modify. rewrite disconnect_eq; proj. by left.
  - unfold run, onclose. rewrite disconnect_eq; proj. by left.
  - by left.
  - by left.
Qed.

(** C10. In every reachable state, every message of the conversation
    history has type chat or type correction; none has type tip. *)
Theorem history_has_no_tip (s : State) (x : Message) :
  reachable s ->
  In x (messages s) ->
  (msg_type x = chat \/ msg_type x = correction) /\ msg_type x <> tip.
Proof.
  intros Hreach. induction Hreach as [|s e _ IH _]; [done|].
  intros [Hin|Hty]%handle_history; [by apply IH|].
  split; [done|]. destruct Hty as [-> | ->]; discriminate.
Qed.

Lemma history_has_no_tip_witness :
  let s := run_events [Onmessage 1 (clock_at 0) (fragment model "Good. Tip: say chair.");
                       Onmessage 1 (clock_at 0) turn_complete] idle_session in
  let x := mkMessage "0-out" model "Good. Tip: say chair." correction 0 in
  messages s = [x]
  /\ (msg_type x = chat \/ msg_type x = correction) /\ msg_type x <> tip.
Proof.
  intros s x. split; [reflexivity|].
  apply (history_has_no_tip s x).
  - unfold s.
    change (reachable
              (handle (Onmessage 1 (clock_at 0) turn_complete)
                 (handle (Onmessage 1 (clock_at 0) (fragment model "Good. Tip: say chair."))
                    idle_session))).
    do 2 (apply reachable_step; [|reflexivity]). apply reachable_idle_session.
  - left. reflexivity.
Defined.

(* ===================================================================== *)
(** ** Quantization *)
(* ===================================================================== *)

Module AudioUtilsFacts.
Import AudioUtils.

Lemma clamp_in_range x : (-1 <= x <= 1)%Q -> (clamp x == x)%Q.
Proof.
  intros [Hlo Hhi]. unfold clamp.
  destruct (Qle_bool x (-1)) eqn:E1.
  - apply Qle_bool_iff in E1. symmetry. by apply Qle_antisym.
  - destruct (Qle_bool 1 x) eqn:E2; [|reflexivity].
    apply Qle_bool_iff in E2. by apply Qle_antisym.
Qed.

Lemma round_nearest y :
  (inject_Z (round y) <= y + (1 # 2))%Q /\ (y + (1 # 2) < inject_Z (round y) + 1)%Q.
Proof.
  unfold round. split; [apply Qfloor_le|].
  pose proof (Qlt_floor (y + (1 # 2))) as H.
  rewrite inject_Z_plus in H. exact H.
Qed.

Lemma round_range y :
  (- inject_Z INT16_MAX <= y <= inject_Z INT16_MAX)%Q ->
  - INT16_MAX <= round y <= INT16_MAX.
Proof.
  intros [Hlo Hhi]. unfold round. split.
  - change (- INT16_MAX) with (Qfloor (- inject_Z INT16_MAX + (1 # 2))).
    apply Qfloor_resp_le. by apply Qplus_le_l.
  - change INT16_MAX with (Qfloor (inject_Z INT16_MAX + (1 # 2))).
    apply Qfloor_resp_le. by apply Qplus_le_l.
Qed.

Lemma low_high_bytes u :
  Z.lor (Z.land u 255) (Z.shiftl (Z.shiftr u 8) 8) = u.
Proof.
  apply Z.bits_inj'. intros i Hi.
  rewrite Z.lor_spec, Z.land_spec, Z.shiftl_spec by lia.
  change 255 with (Z.ones 8).
  destruct (Z.ltb_spec i 8) as [Hlt|Hge].
  - rewrite (Z.testbit_neg_r _ (i - 8)) by lia.
    rewrite Z.ones_spec_low by lia. by rewrite andb_true_r, orb_false_r.
  - rewrite Z.shiftr_spec by lia. rewrite Z.ones_spec_high by lia.
    rewrite andb_false_r. simpl. f_equal. lia.
Qed.

(** Packing a 16-bit value low byte first and reading it back. *)
Lemma int16_bytes_round_trip n :
  -32768 <= n <= 32767 ->
  exists lo hi,
    int16_to_le_bytes n = [lo; hi]
    /\ 0 <= lo < 256 /\ 0 <= hi < 256
    /\ int16_of_le_bytes lo hi = n.
Proof.
  intros Hn. unfold int16_to_le_bytes, int16_of_le_bytes.
  eexists _, _. split; [reflexivity|].
  assert (Hu : 0 <= n mod 65536 < 65536) by (apply Z.mod_pos_bound; lia).
  split; [|split].
  - change 255 with (Z.ones 8). rewrite Z.land_ones by lia.
    apply Z.mod_pos_bound. lia.
  - rewrite Z.shiftr_div_pow2 by lia. change (2 ^ 8) with 256.
    split; [apply Z.div_pos; lia|]. apply Z.div_lt_upper_bound; lia.
  - cbv zeta. rewrite low_high_bytes.
    destruct (Z.ltb_spec (n mod 65536) 32768) as [Hlt|Hge].
    + destruct (Z_lt_le_dec n 0) as [Hneg|Hpos].
      * rewrite <- (Z.mod_add n 1 65536) in Hlt by lia.
        rewrite Z.mod_small in Hlt by lia. lia.
      * apply Z.mod_small. lia.
    + destruct (Z_lt_le_dec n 0) as [Hneg|Hpos].
      * rewrite <- (Z.mod_add n 1 65536) by lia.
        rewrite Z.mod_small by lia. lia.
      * rewrite Z.mod_small in Hge by lia. lia.
Qed.

Lemma sample_round_trip x :
  (-1 <= x <= 1)%Q ->
  exists lo hi,
    encode_sample x = [lo; hi]
    /\ 0 <= lo < 256 /\ 0 <= hi < 256
    /\ (Qabs (normalize (int16_of_le_bytes lo hi) - x) <= 1 # 32768)%Q.
Proof.
  intros Hx. pose proof (clamp_in_range x Hx) as Hc. destruct Hx as [Hlo Hhi].
  unfold encode_sample. revert Hc. generalize (clamp x). intros c Hc.
  assert (Hy : (- inject_Z INT16_MAX <= c * inject_Z INT16_MAX
                <= inject_Z INT16_MAX)%Q).
  { unfold INT16_MAX. change (inject_Z 32767) with (32767 # 1)%Q. split; lra. }
  pose proof (round_range _ Hy) as Hr.
  assert (HM : INT16_MAX = 32767) by reflexivity.
  destruct (int16_bytes_round_trip (round (c * inject_Z INT16_MAX)%Q))
    as (lo & hi & Hb & Hl & Hh & Hback); [lia|].
  exists lo, hi. split; [exact Hb|]. split; [exact Hl|]. split; [exact Hh|].
  rewrite Hback. destruct (round_nearest (c * inject_Z INT16_MAX)%Q) as [H1 H2].
  unfold normalize. revert H1 H2.
  generalize (inject_Z (round (c * inject_Z INT16_MAX)%Q)).
  clear -Hc Hlo Hhi. intros q H1 H2.
  unfold INT16_MAX in *. change (inject_Z 32767) with (32767 # 1)%Q in *.
  unfold Qdiv. change (/ (32767 # 1))%Q with (1 # 32767)%Q.
  apply Qabs_Qle_condition. split; lra.
Qed.

End AudioUtilsFacts.

(** C9. Round-trip quantization. For a block of samples that all lie in
    [-1, 1], decoding the bytes produced by the encoder (clamp, scale by
    32767, round to nearest, pack as little-endian signed 16-bit integers;
    then read the integers back and divide by 32767) succeeds and yields,
    sample for sample, a value within 1/32768 of the original. *)
Theorem round_trip_quantization (data : list Q) (rate : Z) :
  Forall (fun x => (-1 <= x <= 1)%Q) data ->
  exists b,
    AudioUtils.decodeAudioData (AudioUtils.createPcmBlob data) rate = Some b
    /\ AudioUtils.sampleRate b = rate
    /\ Forall2 (fun x y => (Qabs (y - x) <= 1 # 32768)%Q)
               data (AudioUtils.channelData b).
Proof.
  intros Hdata. unfold AudioUtils.decodeAudioData.
  cut (exists l,
         AudioUtils.int16_samples (AudioUtils.createPcmBlob data) = Some l
         /\ Forall2 (fun x y => (Qabs (y - x) <= 1 # 32768)%Q)
                    data (map AudioUtils.normalize l)).
  { intros (l & -> & Hl). eexists. split; [reflexivity|]. split; [reflexivity|].
    exact Hl. }
  induction Hdata as [|x data Hx _ IH].
  - exists []. split; [reflexivity|constructor].
  - destruct IH as (l & Hl & Hall).
    destruct (AudioUtilsFacts.sample_round_trip x Hx)
      as (lo & hi & Hb & _ & _ & Hclose).
    exists (AudioUtils.int16_of_le_bytes lo hi :: l). split.
    + change (AudioUtils.createPcmBlob (x :: data))
        with (AudioUtils.encode_sample x ++ AudioUtils.createPcmBlob data).
      rewrite Hb.
      change (AudioUtils.int16_samples (lo :: hi :: AudioUtils.createPcmBlob data)
              = Some (AudioUtils.int16_of_le_bytes lo hi :: l)).
      cbn [AudioUtils.int16_samples]. by rewrite Hl.
    + constructor; [exact Hclose|exact Hall].
Qed.

Lemma round_trip_quantization_witness :
  exists b,
    AudioUtils.decodeAudioData
      (AudioUtils.createPcmBlob [(1 # 3)%Q; (-1)%Q; 1%Q; (-7 # 10)%Q]) 16000
    = Some b
    /\ AudioUtils.sampleRate b = 16000
    /\ Forall2 (fun x y => (Qabs (y - x) <= 1 # 32768)%Q)
               [(1 # 3)%Q; (-1)%Q; 1%Q; (-7 # 10)%Q] (AudioUtils.channelData b).
Proof.
  apply (round_trip_quantization [(1 # 3)%Q; (-1)%Q; 1%Q; (-7 # 10)%Q] 16000).
  repeat constructor; unfold Qle; simpl; lia.
Defined.

(* ===================================================================== *)
(** ** Further properties of the playback scheduler *)
(* ===================================================================== *)

Lemma decode_chunk_duration d b :
  decode_chunk d = Some b -> (0 <= AudioUtils.duration b)%Q.
Proof.
  unfold decode_chunk, AudioUtils.decodeAudioData.
  destruct (AudioUtils.decodeFromBase64 d) as [bytes|]; [|done].
  destruct (AudioUtils.int16_samples bytes) as [l|]; [|done].
  intros [= <-]. unfold AudioUtils.duration, Qdiv.
  cbn [AudioUtils.channelData AudioUtils.sampleRate].
  apply Qmult_le_0_compat.
  - unfold Qle. cbn [Qnum Qden inject_Z]. lia.
  - unfold OUTPUT_SAMPLE_RATE. by compute.
Qed.

Lemma Qle_plus_nonneg a d : (0 <= d)%Q -> (a <= a + d)%Q.
Proof.
  intros Hd. rewrite <- (Qplus_0_r a) at 1. by apply Qplus_le_r.
Qed.

(** The state in which a message that carries only an audio chunk leaves
    the scheduler, when the handler is the one installed together with the
    output context of the ref. *)
Lemma handle_audio_chunk now d s c b :
  outputAudioContextRef s = Some c ->
  Js.truthy d = true ->
  decode_chunk d = Some b ->
  handle (Onmessage c now (audio_chunk d)) s
  = scheduled c b
      (set_nextStartTimeRef
         (Math_max (nextStartTimeRef s) (time_of (audio_contexts s) c)) s).
Proof.
  intros Hc Ht Hd. unfold handle, run. rewrite onmessage_eq.
  change (run (on_turnComplete now (audio_chunk d))
            (run (on_transcription (audio_chunk d)) s)) with s.
  rewrite on_audio_eq.
  change (opt inlineData (audio_chunk d)) with (Some d). cbv beta iota.
  rewrite Ht, Hc, Hd, Nat.eqb_refl. cbv beta iota zeta.
  rewrite on_interrupted_eq. reflexivity.
Qed.

(** X1. The cursor never goes back under an event that is not an
    interruption, a transport error or close, or the button pressed while
    connected. *)
Theorem cursor_never_goes_back (e : Event) (s : State) :
  is_reset e s = false ->
  (nextStartTimeRef s <= nextStartTimeRef (handle e s))%Q.
Proof.
  intros Hreset. destruct e as [world| |outputCtx now m| | |h|d]; unfold handle;
    try discriminate Hreset; try apply Qle_refl.
  - unfold run, onClick, bind, get. unfold is_reset in Hreset.
    destruct (status s); try discriminate Hreset;
      rewrite connect_eq; proj;
      unfold connect_result, rejected, with_session, with_stream;
      (destruct (getUserMedia_answer world);
       [|destruct (live_connect_answer world)]); proj; apply Qle_refl.
  - unfold is_reset in Hreset. unfold run. rewrite onmessage_eq.
    pose proof (transcript_phases_scheduler now m s) as Hsame. revert Hsame.
    generalize (run (on_turnComplete now m) (run (on_transcription m) s)).
    intros s2 (_ & _ & _ & _ & _ & Hcur & _). rewrite <- Hcur.
    rewrite on_audio_eq.
    assert (Hint : forall s3, nextStartTimeRef (snd (on_interrupted m s3))
                              = nextStartTimeRef s3).
    { intros s3. by rewrite on_interrupted_eq, Hreset. }
    destruct (opt inlineData m) as [d|]; [|rewrite Hint; apply Qle_refl].
    destruct (Js.truthy d); [|rewrite Hint; apply Qle_refl].
    destruct (outputAudioContextRef s2) as [c|]; [|apply Qle_refl].
    cbv zeta.
    destruct (Math_max_is_max (nextStartTimeRef s2) (time_of (audio_contexts s2) c))
      as (Hmax & _).
    destruct (decode_chunk d) as [b|] eqn:Hd; [|exact Hmax].
    destruct (Nat.eqb c outputCtx); [|unfold unconnected; proj; exact Hmax].
    rewrite Hint. unfold scheduled; proj.
    eapply Qle_trans; [exact Hmax|].
    apply Qle_plus_nonneg. by eapply decode_chunk_duration.
Qed.

Lemma cursor_never_goes_back_witness :
  (nextStartTimeRef idle_session
   <= nextStartTimeRef
        (handle (Onmessage 1 (clock_at 0) (audio_chunk "AQD/fw==")) idle_session))%Q.
Proof.
  exact (cursor_never_goes_back
           (Onmessage 1 (clock_at 0) (audio_chunk "AQD/fw==")) idle_session
           eq_refl).
Defined.

Lemma sequenced_empty s : sourcesRef s = ∅ -> sequenced s.
Proof.
  intros He. unfold sequenced. rewrite He. split; [|split].
  - intros h Hh. by apply not_elem_of_empty in Hh.
  - intros h n Hh. by apply not_elem_of_empty in Hh.
  - intros h1 h2 n1 n2 Hh. by apply not_elem_of_empty in Hh.
Qed.

Lemma sequenced_keep s s' :
  sourcesRef s' ⊆ sourcesRef s ->
  (forall h, h ∈ sourcesRef s' -> source_nodes s' !! h = source_nodes s !! h) ->
  (nextStartTimeRef s <= nextStartTimeRef s')%Q ->
  (next_object s <= next_object s')%nat ->
  sequenced s -> sequenced s'.
Proof.
  intros Hsub Hnodes Hcur Hnext (H1 & H2 & H3). split; [|split].
  - intros h Hh. apply Hsub in Hh. apply H1 in Hh. lia.
  - intros h n Hh Hn. rewrite (Hnodes h Hh) in Hn.
    destruct (H2 h n (Hsub h Hh) Hn) as (a & b & Hi & Hb).
    exists a, b. split; [done|]. by eapply Qle_trans.
  - intros h1 h2 n1 n2 Hh1 Hh2 Hlt Hn1 Hn2.
    rewrite (Hnodes h1 Hh1) in Hn1. rewrite (Hnodes h2 Hh2) in Hn2.
    by apply (H3 h1 h2 n1 n2); try apply Hsub.
Qed.

Lemma sequenced_scheduled c b s :
  (0 <= AudioUtils.duration b)%Q -> sequenced s -> sequenced (scheduled c b s).
Proof.
  intros Hdur (H1 & H2 & H3). unfold sequenced, scheduled; proj.
  assert (Hold : forall h, h ∈ ({[next_object s]} ∪ sourcesRef s : gset nat) ->
                   h <> next_object s -> h ∈ sourcesRef s).
  { intros h [Hh%elem_of_singleton|Hh]%elem_of_union Hne; [done|exact Hh]. }
  split; [|split].
  - intros h [->%elem_of_singleton|Hh%H1]%elem_of_union; lia.
  - intros h n Hh Hn. destruct (decide (h = next_object s)) as [->|Hne].
    + rewrite lookup_insert_eq in Hn. injection Hn as <-.
      eexists _, _. split; [reflexivity|]. apply Qle_refl.
    + rewrite lookup_insert_ne in Hn by done.
      destruct (H2 h n (Hold h Hh Hne) Hn) as (a & e & Hi & He).
      exists a, e. split; [done|].
      eapply Qle_trans; [exact He|]. by apply Qle_plus_nonneg.
  - intros h1 h2 n1 n2 Hh1 Hh2 Hlt Hn1 Hn2.
    destruct (decide (h2 = next_object s)) as [->|Hne2].
    + assert (h1 <> next_object s) as Hne1 by lia.
      rewrite lookup_insert_eq in Hn2. injection Hn2 as <-.
      rewrite lookup_insert_ne in Hn1 by done.
      destruct (H2 h1 n1 (Hold h1 Hh1 Hne1) Hn1) as (a & e & Hi & He).
      eexists a, e, _, _. split; [done|]. split; [reflexivity|done].
    + pose proof (H1 h2 (Hold h2 Hh2 Hne2)) as Hlt2.
      assert (h1 <> next_object s) as Hne1 by lia.
      rewrite lookup_insert_ne in Hn1, Hn2 by done.
      by apply (H3 h1 h2 n1 n2); try apply Hold.
Qed.

Lemma sequenced_onmessage outputCtx now m s :
  sequenced s -> sequenced (run (onmessage outputCtx now m) s).
Proof.
  intros Hseq. unfold run. rewrite onmessage_eq.
  pose proof (transcript_phases_scheduler now m s) as Hsame.
  assert (H2 : sequenced (run (on_turnComplete now m) (run (on_transcription m) s))).
  { destruct Hsame as (_ & _ & _ & _ & Hsrc & Hcur & _ & Hnext & _ & Hnodes & _).
    eapply sequenced_keep; [..|exact Hseq].
    - by rewrite Hsrc.
    - intros h _. by rewrite Hnodes.
    - rewrite Hcur. apply Qle_refl.
    - by rewrite Hnext. }
  clear Hsame Hseq. revert H2.
  generalize (run (on_turnComplete now m) (run (on_transcription m) s)).
  intros s2 H2. rewrite on_audio_eq.
  assert (Hint : forall s3, sequenced s3 -> sequenced (snd (on_interrupted m s3))).
  { intros s3 H3. rewrite on_interrupted_eq; proj.
    destruct (flag interrupted m); [by apply sequenced_empty|done]. }
  destruct (opt inlineData m) as [d|]; [|by apply Hint].
  destruct (Js.truthy d); [|by apply Hint].
  destruct (outputAudioContextRef s2) as [c|]; [|done].
  cbv zeta.
  assert (Hbump : sequenced (set_nextStartTimeRef
                    (Math_max (nextStartTimeRef s2) (time_of (audio_contexts s2) c))
                    s2)).
  { eapply sequenced_keep; [..|exact H2]; proj; try done.
    by destruct (Math_max_is_max (nextStartTimeRef s2)
                   (time_of (audio_contexts s2) c)) as (? & _). }
  destruct (decode_chunk d) as [b|] eqn:Hd; [|exact Hbump].
  destruct (Nat.eqb c outputCtx).
  - apply Hint, sequenced_scheduled; [by eapply decode_chunk_duration|exact Hbump].
  - proj. eapply sequenced_keep; [..|exact Hbump]; unfold unconnected; proj.
    + done.
    + intros h Hh. destruct H2 as (Hlt & _). apply Hlt in Hh.
      rewrite lookup_insert_ne by lia. done.
    + apply Qle_refl.
    + lia.
Qed.

Lemma sequenced_same s s' :
  sourcesRef s' = sourcesRef s ->
  source_nodes s' = source_nodes s ->
  nextStartTimeRef s' = nextStartTimeRef s ->
  (next_object s <= next_object s')%nat ->
  sequenced s -> sequenced s'.
Proof.
  intros Hsrc Hnodes Hcur Hnext. apply sequenced_keep.
  - by rewrite Hsrc.
  - intros h _. by rewrite Hnodes.
  - rewrite Hcur. apply Qle_refl.
  - exact Hnext.
Qed.

Lemma sequenced_connect world s : sequenced s -> sequenced (connect_result world s).
Proof.
  apply sequenced_same;
    unfold connect_result, rejected, with_session, with_stream, acquiring;
    (destruct (getUserMedia_answer world);
     [|destruct (live_connect_answer world)]); proj;
    first [reflexivity | lia].
Qed.

Lemma sequenced_handle e s : sequenced s -> sequenced (handle e s).
Proof.
  intros Hseq. destruct e as [world| |outputCtx now m| | |h|d]; unfold handle.
  - unfold run, onClick, bind, get.
    destruct (status s); rewrite ?connect_eq, ?disconnect_eq; proj;
      first [by apply sequenced_empty | by apply sequenced_connect].
  - done.
  - by apply sequenced_onmessage.
  - unfold run, onerror, bind, modify. rewrite disconnect_eq; proj.
    by apply sequenced_empty.
  - unfold run, onclose. rewrite disconnect_eq; proj. by apply sequenced_empty.
  - revert Hseq. apply sequenced_keep; unfold run, on_ended, modify; proj.
    + intros x [Hx _]%elem_of_difference. exact Hx.
    + done.
    + apply Qle_refl.
    + lia.
  - revert Hseq. by apply sequenced_same.
Qed.

(** In every reachable state the sources of the set are scheduled one
    after the other. *)
Lemma reachable_sequenced s : reachable s -> sequenced s.
Proof.
  induction 1 as [|s e _ IH _].
  - apply sequenced_empty. reflexivity.
  - by apply sequenced_handle.
Qed.

Lemma playing_within n t a b :
  interval n = Some (a, b) -> playing n t = true -> (a <= t)%Q /\ (t < b)%Q.
Proof.
  unfold interval, playing, Qlt_bool.
  destruct (started n) as [st|]; [|done].
  destruct (buffer n) as [buf|]; [|done].
  intros [= <- <-] [[H1 H2]%andb_true_iff _]%andb_true_iff.
  split; [by apply Qle_bool_iff|].
  apply Qnot_le_lt. intros Hle%Qle_bool_iff. by rewrite Hle in H2.
Qed.

(** X2. In every reachable state, two different sources of the active set
    never play at the same time: whenever one of them is playing, the
    other is not. *)
Theorem sources_never_overlap (s : State) (h1 h2 : nat)
    (n1 n2 : AudioBufferSourceNode) (t : Q) :
  reachable s ->
  h1 <> h2 ->
  h1 ∈ sourcesRef s -> h2 ∈ sourcesRef s ->
  source_nodes s !! h1 = Some n1 -> source_nodes s !! h2 = Some n2 ->
  playing n1 t = true -> playing n2 t = false.
Proof.
  intros Hreach Hne Hh1 Hh2 Hn1 Hn2 Hp1.
  destruct (reachable_sequenced s Hreach) as (_ & _ & H3).
  destruct (playing n2 t) eqn:Hp2; [exfalso|reflexivity].
  destruct (Nat.lt_total h1 h2) as [Hlt|[Heq|Hgt]]; [|done|].
  - destruct (H3 h1 h2 n1 n2 Hh1 Hh2 Hlt Hn1 Hn2)
      as (a1 & b1 & a2 & b2 & Hi1 & Hi2 & Hle).
    destruct (playing_within n1 t a1 b1 Hi1 Hp1) as [_ Ht1].
    destruct (playing_within n2 t a2 b2 Hi2 Hp2) as [Ht2 _].
    apply (Qlt_irrefl t). eapply Qlt_le_trans; [exact Ht1|].
    by eapply Qle_trans.
  - destruct (H3 h2 h1 n2 n1 Hh2 Hh1 Hgt Hn2 Hn1)
      as (a2 & b2 & a1 & b1 & Hi2 & Hi1 & Hle).
    destruct (playing_within n1 t a1 b1 Hi1 Hp1) as [Ht1 _].
    destruct (playing_within n2 t a2 b2 Hi2 Hp2) as [_ Ht2].
    apply (Qlt_irrefl t). eapply Qlt_le_trans; [exact Ht2|].
    by eapply Qle_trans.
Qed.

Lemma reachable_two_chunk_session : reachable two_chunk_session.
Proof.
  unfold two_chunk_session.
  do 2 (apply reachable_step; [|reflexivity]). apply reachable_idle_session.
Qed.

Lemma sources_never_overlap_witness :
  let first := mkSourceNode 1
                 (Some (AudioUtils.mkAudioBuffer
                          [(1 # 32767)%Q; (32767 # 32767)%Q] 24000))
                 (Some 5%Q) None in
  let second := mkSourceNode 1
                  (Some (AudioUtils.mkAudioBuffer
                           [(1 # 32767)%Q; (32767 # 32767)%Q] 24000))
                  (Some (120002 # 24000)%Q) None in
  elements (sourcesRef two_chunk_session) = [6%nat; 7%nat]
  /\ playing first 5%Q = true
  /\ playing second 5%Q = false.
Proof.
  intros first second.
  assert (He : elements (sourcesRef two_chunk_session) = [6%nat; 7%nat])
    by reflexivity.
  split; [exact He|]. split; [reflexivity|].
  apply (sources_never_overlap two_chunk_session 6 7 first second 5%Q).
  - apply reachable_two_chunk_session.
  - discriminate.
  - apply elem_of_elements. rewrite He. apply list_elem_of_here.
  - apply elem_of_elements. rewrite He. apply list_elem_of_further, list_elem_of_here.
  - reflexivity.
  - reflexivity.
  - reflexivity.
Defined.

Lemma Math_max_left a t : (t <= a)%Q -> (Math_max a t == a)%Q.
Proof.
  intros Hle. unfold Math_max. destruct (Qle_bool a t) eqn:E; [|reflexivity].
  apply Qle_antisym; [exact Hle|]. by apply Qle_bool_iff.
Qed.

(** X3. Gapless scheduling. Two chunks that decode, both delivered to the
    handler installed together with the output context of the ref (its
    analyser belongs to that context), the second arriving while the clock
    of the (open) output context has not yet passed the end of the first:
    the second source starts exactly where the first ends, and the cursor
    ends up at the end of the second. *)
Theorem back_to_back_chunks (now1 now2 : DateNow) (s : State) (c : nat)
    (x : AudioContext) (d1 d2 : string) (b1 b2 : AudioUtils.AudioBuffer) (dt : Q) :
  outputAudioContextRef s = Some c ->
  audio_contexts s !! c = Some x ->
  ctx_closed x = false ->
  Js.truthy d1 = true -> decode_chunk d1 = Some b1 ->
  Js.truthy d2 = true -> decode_chunk d2 = Some b2 ->
  (0 <= dt)%Q ->
  let start1 := Math_max (nextStartTimeRef s) (currentTime x) in
  (currentTime x + dt <= start1 + AudioUtils.duration b1)%Q ->
  let s' := run_events [Onmessage c now1 (audio_chunk d1); Tick dt;
                        Onmessage c now2 (audio_chunk d2)] s in
  exists start2,
    source_nodes s' !! next_object s
    = Some (mkSourceNode c (Some b1) (Some start1) None)
    /\ source_nodes s' !! S (next_object s)
       = Some (mkSourceNode c (Some b2) (Some start2) None)
    /\ (start2 == start1 + AudioUtils.duration b1)%Q
    /\ (nextStartTimeRef s' == start1 + AudioUtils.duration b1 + AudioUtils.duration b2)%Q.
Proof.
  intros Hc Hx Hopen Ht1 Hd1 Ht2 Hd2 Hdt start1 Hearly s'.
  subst s'.
  change (run_events [Onmessage c now1 (audio_chunk d1); Tick dt;
                      Onmessage c now2 (audio_chunk d2)] s)
    with (handle (Onmessage c now2 (audio_chunk d2))
            (advance dt (handle (Onmessage c now1 (audio_chunk d1)) s))).
  rewrite (handle_audio_chunk now1 d1 s c b1 Hc Ht1 Hd1).
  assert (Htime : time_of (audio_contexts s) c = currentTime x)
    by (unfold time_of; by rewrite Hx).
  rewrite Htime. fold start1.
  set (s1 := scheduled c b1 (set_nextStartTimeRef start1 s)).
  assert (Hc1 : outputAudioContextRef (advance dt s1) = Some c) by exact Hc.
  rewrite (handle_audio_chunk now2 d2 (advance dt s1) c b2 Hc1 Ht2 Hd2).
  assert (Hcur1 : nextStartTimeRef (advance dt s1)
                  = (start1 + AudioUtils.duration b1)%Q) by reflexivity.
  assert (Htime1 : time_of (audio_contexts (advance dt s1)) c
                   = (currentTime x + dt)%Q).
  { unfold advance, time_of; proj. rewrite lookup_fmap.
    change (audio_contexts s1) with (audio_contexts s). rewrite Hx. simpl.
    by rewrite Hopen. }
  rewrite Hcur1, Htime1.
  set (start2 := Math_max (start1 + AudioUtils.duration b1)%Q (currentTime x + dt)%Q).
  assert (Hstart2 : (start2 == start1 + AudioUtils.duration b1)%Q)
    by by apply Math_max_left.
  exists start2. unfold scheduled at 1 2 3; proj.
  change (next_object (advance dt s1)) with (S (next_object s)).
  change (source_nodes (advance dt s1))
    with (<[next_object s := mkSourceNode c (Some b1) (Some start1) None]>
            (source_nodes s)).
  split; [|split; [|split]].
  - rewrite lookup_insert_ne by lia. apply lookup_insert_eq.
  - apply lookup_insert_eq.
  - exact Hstart2.
  - by rewrite Hstart2.
Qed.

Lemma back_to_back_chunks_witness :
  let s' := run_events [Onmessage 1 (clock_at 0) (audio_chunk "AQD/fw=="); Tick 0%Q;
                        Onmessage 1 (clock_at 0) (audio_chunk "AQD/fw==")] idle_session in
  exists start2,
    source_nodes s' !! 6%nat
    = Some (mkSourceNode 1
              (Some (AudioUtils.mkAudioBuffer [(1 # 32767)%Q; (32767 # 32767)%Q] 24000))
              (Some 5%Q) None)
    /\ source_nodes s' !! 7%nat
       = Some (mkSourceNode 1
                 (Some (AudioUtils.mkAudioBuffer [(1 # 32767)%Q; (32767 # 32767)%Q] 24000))
                 (Some start2) None)
    /\ (start2 == 5 + (2 # 24000))%Q.
Proof.
  intros s'. subst s'.
  destruct (back_to_back_chunks (clock_at 0) (clock_at 0) idle_session 1
              (mkAudioContext 24000 5%Q false) "AQD/fw==" "AQD/fw=="
              (AudioUtils.mkAudioBuffer [(1 # 32767)%Q; (32767 # 32767)%Q] 24000)
              (AudioUtils.mkAudioBuffer [(1 # 32767)%Q; (32767 # 32767)%Q] 24000)
              0%Q eq_refl eq_refl eq_refl eq_refl eq_refl eq_refl eq_refl)
    as (start2 & H1 & H2 & H3 & _).
  - discriminate.
  - discriminate.
  - exists start2. split; [|split].
    + exact H1.
    + exact H2.
    + exact H3.
Defined.

(* ===================================================================== *)
(** ** Further properties of the session lifecycle *)
(* ===================================================================== *)

(** What a message never touches. *)
Lemma onmessage_frame outputCtx now m s :
  let s' := run (onmessage outputCtx now m) s in
  status s' = status s /\ error s' = error s
  /\ inputAudioContextRef s' = inputAudioContextRef s
  /\ outputAudioContextRef s' = outputAudioContextRef s
  /\ sessionRef s' = sessionRef s
  /\ audio_contexts s' = audio_contexts s
  /\ live_sessions s' = live_sessions s
  /\ media_streams s' = media_streams s.
Proof.
  cbv zeta. unfold run. rewrite onmessage_eq.
  pose proof (transcript_phases_scheduler now m s) as Hsame. revert Hsame.
  generalize (run (on_turnComplete now m) (run (on_transcription m) s)).
  intros s2 (<- & <- & <- & <- & _ & _ & <- & _ & <- & _ & <- & <-).
  rewrite on_audio_eq.
  assert (Hint : forall s3,
    status (snd (on_interrupted m s3)) = status s3
    /\ error (snd (on_interrupted m s3)) = error s3
    /\ inputAudioContextRef (snd (on_interrupted m s3)) = inputAudioContextRef s3
    /\ outputAudioContextRef (snd (on_interrupted m s3)) = outputAudioContextRef s3
    /\ sessionRef (snd (on_interrupted m s3)) = sessionRef s3
    /\ audio_contexts (snd (on_interrupted m s3)) = audio_contexts s3
    /\ live_sessions (snd (on_interrupted m s3)) = live_sessions s3
    /\ media_streams (snd (on_interrupted m s3)) = media_streams s3).
  { intros s3. rewrite on_interrupted_eq; proj. by destruct (flag interrupted m). }
  destruct (opt inlineData m) as [d|]; [|apply Hint].
  destruct (Js.truthy d); [|apply Hint].
  destruct (outputAudioContextRef s2) as [c|] eqn:Hc;
    [|proj; rewrite ?Hc; repeat split].
  cbv zeta. destruct (decode_chunk d) as [b|];
    [|proj; rewrite ?Hc; repeat split].
  destruct (Nat.eqb c outputCtx);
    [|unfold unconnected; proj; rewrite ?Hc; repeat split].
  match goal with
  | |- context [on_interrupted m ?s3] =>
      destruct (Hint s3) as (-> & -> & -> & -> & -> & -> & -> & ->)
  end.
  unfold scheduled; proj. rewrite ?Hc. repeat split.
Qed.

Lemma status_handle e s :
  status (handle e s) = status s
  \/ status (handle e s) = DISCONNECTED
  \/ status (handle e s) = CONNECTING
  \/ status (handle e s) = CONNECTED.
Proof.
  destruct e as [world| |outputCtx now m| | |h|d]; unfold handle.
  - unfold run, onClick, bind, get.
    destruct (status s); rewrite ?connect_eq, ?disconnect_eq; proj;
      try (right; left; reflexivity);
      unfold connect_result, rejected, with_session, with_stream, acquiring;
      (destruct (getUserMedia_answer world);
       [|destruct (live_connect_answer world)]); proj; auto.
  - right. right. right. reflexivity.
  - left. by destruct (onmessage_frame outputCtx now m s) as (-> & _).
  - right. left. unfold run, onerror, bind, modify. by rewrite disconnect_eq.
  - right. left. unfold run, onclose. by rewrite disconnect_eq.
  - by left.
  - by left.
Qed.

(** X4. The status ERROR of the enumeration is never taken: in every
    reachable state the status is DISCONNECTED, CONNECTING or CONNECTED. *)
Theorem status_is_never_error (s : State) :
  reachable s -> status s <> ERROR.
Proof.
  induction 1 as [|s e _ IH _]; [discriminate|].
  destruct (status_handle e s) as [-> | [-> | [-> | ->]]];
    [exact IH|discriminate..].
Qed.

Lemma status_is_never_error_witness : status playing_session <> ERROR.
Proof. exact (status_is_never_error playing_session reachable_playing_session). Defined.

Lemma media_streams_handle e s m :
  media_streams s !! m = Some true -> media_streams (handle e s) !! m = Some true.
Proof.
  intros Hm. destruct e as [world| |outputCtx now msg| | |h|d]; unfold handle.
  - unfold run, onClick, bind, get.
    destruct (status s); rewrite ?connect_eq, ?disconnect_eq; proj; try exact Hm;
      unfold connect_result, rejected, with_session, with_stream, acquiring;
      (destruct (getUserMedia_answer world);
       [|destruct (live_connect_answer world)]); proj; try exact Hm;
      (destruct (decide (S (S (S (S (next_object s)))) = m)) as [->|Hne];
       [apply lookup_insert_eq|by rewrite lookup_insert_ne]).
  - exact Hm.
  - destruct (onmessage_frame outputCtx now msg s) as (_ & _ & _ & _ & _ & _ & _ & ->).
    exact Hm.
  - unfold run, onerror, bind, modify. by rewrite disconnect_eq.
  - unfold run, onclose. by rewrite disconnect_eq.
  - exact Hm.
  - exact Hm.
Qed.

(** X5. No event ever stops a microphone stream: a stream that is live
    stays live under every sequence of events, teardown included. *)
Theorem microphone_stream_stays_live (es : list Event) (s : State) (m : nat) :
  media_streams s !! m = Some true ->
  media_streams (run_events es s) !! m = Some true.
Proof.
  revert s. induction es as [|e es IH]; intros s Hm; [exact Hm|].
  apply IH. by apply media_streams_handle.
Qed.

Lemma microphone_stream_stays_live_witness :
  media_streams connecting_session !! 4%nat = Some true
  /\ status (run_events [Onopen; Onerror; Onclose] connecting_session) = DISCONNECTED
  /\ media_streams (run_events [Onopen; Onerror; Onclose] connecting_session) !! 4%nat
     = Some true.
Proof.
  split; [reflexivity|]. split; [reflexivity|].
  exact (microphone_stream_stays_live [Onopen; Onerror; Onclose]
           connecting_session 4 eq_refl).
Defined.

Lemma audio_contexts_handle e s :
  (exists world, audio_contexts (handle e s)
     = <[S (next_object s) := mkAudioContext OUTPUT_SAMPLE_RATE 0%Q false]>
         (<[next_object s := mkAudioContext INPUT_SAMPLE_RATE 0%Q false]>
            (audio_contexts s))
     /\ inputAudioContextRef (handle e s) = Some (next_object s)
     /\ outputAudioContextRef (handle e s) = Some (S (next_object s))
     /\ e = Click world /\ status s <> CONNECTED)
  \/ (audio_contexts (handle e s)
      = close_ref (outputAudioContextRef s)
          (close_ref (inputAudioContextRef s) (audio_contexts s))
      /\ inputAudioContextRef (handle e s) = None
      /\ outputAudioContextRef (handle e s) = None)
  \/ (audio_contexts (handle e s) = audio_contexts s
      /\ inputAudioContextRef (handle e s) = inputAudioContextRef s
      /\ outputAudioContextRef (handle e s) = outputAudioContextRef s)
  \/ (exists d, e = Tick d
      /\ handle e s = advance d s
      /\ inputAudioContextRef (handle e s) = inputAudioContextRef s
      /\ outputAudioContextRef (handle e s) = outputAudioContextRef s).
Proof.
  destruct e as [world| |outputCtx now m| | |h|d]; unfold handle.
  - unfold run, onClick, bind, get.
    destruct (status s) eqn:Hst; rewrite ?connect_eq, ?disconnect_eq; proj;
      try (right; left; by unfold disconnected);
      (left; exists world;
       unfold connect_result, rejected, with_session, with_stream, acquiring;
       (destruct (getUserMedia_answer world);
        [|destruct (live_connect_answer world)]); proj; repeat split; discriminate).
  - right. right. left. done.
  - right. right. left.
    by destruct (onmessage_frame outputCtx now m s) as (_ & _ & -> & -> & _ & -> & _).
  - right. left. unfold run, onerror, bind, modify. by rewrite disconnect_eq.
  - right. left. unfold run, onclose. by rewrite disconnect_eq.
  - right. right. left. done.
  - right. right. right. exists d. done.
Qed.

Lemma close_ref_lookup r ctxs c x :
  close_ref r ctxs !! c = Some x ->
  exists y, ctxs !! c = Some y
            /\ (ctx_closed x = false -> r <> Some c /\ x = y).
Proof.
  unfold close_ref. destruct r as [c0|]; [|intros H; exists x; by split].
  destruct (decide (c0 = c)) as [->|Hne].
  - rewrite lookup_alter_eq. destruct (ctxs !! c) as [y|]; [|done].
    simpl. intros [= <-]. exists y. split; [done|]. simpl. discriminate.
  - rewrite lookup_alter_ne by done. intros H. exists x. split; [done|].
    intros _. split; [|done]. intros [= ->]. done.
Qed.

Lemma close_ref_other r ctxs c :
  r <> Some c -> close_ref r ctxs !! c = ctxs !! c.
Proof.
  unfold close_ref. destruct r as [c0|]; [|done].
  intros Hne. apply lookup_alter_ne. intros ->. done.
Qed.

Lemma advance_lookup d s c x :
  audio_contexts s !! c = Some x -> ctx_closed x = false ->
  audio_contexts (advance d s) !! c
  = Some (mkAudioContext (ctx_sampleRate x) (currentTime x + d)%Q false).
Proof.
  intros Hx Hopen. unfold advance; proj. rewrite lookup_fmap, Hx. simpl.
  by rewrite Hopen.
Qed.

Lemma refs_open_handle e s : refs_open s -> refs_open (handle e s).
Proof.
  intros Hopen.
  destruct (audio_contexts_handle e s)
    as [(world & Hctx & Hi & Ho & _)|[(Hctx & Hi & Ho)|[(Hctx & Hi & Ho)
       |(d & -> & Hh & Hi & Ho)]]];
    unfold refs_open; rewrite ?Hctx, ?Hi, ?Ho.
  - intros c [[= <-]|[= <-]].
    + eexists. split.
      * rewrite lookup_insert_ne by lia. apply lookup_insert_eq.
      * reflexivity.
    + eexists. split.
      * apply lookup_insert_eq.
      * reflexivity.
  - intros c [H|H]; discriminate H.
  - exact Hopen.
  - intros c Hc. destruct (Hopen c Hc) as (x & Hx & Hx').
    eexists. split.
    + rewrite Hh. by apply advance_lookup.
    + reflexivity.
Qed.

(** X6. In every reachable state a context held in one of the two refs
    exists and is open: [close] is never called on a closed context, and
    the clock is never read from one. *)
Theorem refs_hold_open_contexts (s : State) (c : nat) :
  reachable s ->
  inputAudioContextRef s = Some c \/ outputAudioContextRef s = Some c ->
  exists x, audio_contexts s !! c = Some x /\ ctx_closed x = false.
Proof.
  intros Hreach. revert c. change (refs_open s).
  induction Hreach as [|s e _ IH _].
  - intros c [H|H]; discriminate H.
  - by apply refs_open_handle.
Qed.

Lemma refs_hold_open_contexts_witness :
  exists x, audio_contexts playing_session !! 1%nat = Some x /\ ctx_closed x = false.
Proof.
  exact (refs_hold_open_contexts playing_session 1 reachable_playing_session
           (or_intror eq_refl)).
Defined.

Lemma reachable_run_events es s :
  reachable s -> admissible es s = true -> reachable (run_events es s).
Proof.
  revert s. induction es as [|e es IH]; intros s Hreach Hadm; [exact Hreach|].
  cbn [admissible] in Hadm. apply andb_true_iff in Hadm as [Hen Hadm].
  apply IH; [|exact Hadm]. by apply reachable_step.
Qed.

Lemma leaked_context_step e s c x :
  scheduler_invariant s ->
  audio_contexts s !! c = Some x -> ctx_closed x = false ->
  inputAudioContextRef s <> Some c -> outputAudioContextRef s <> Some c ->
  exists x', audio_contexts (handle e s) !! c = Some x'
             /\ ctx_closed x' = false
             /\ inputAudioContextRef (handle e s) <> Some c
             /\ outputAudioContextRef (handle e s) <> Some c.
Proof.
  intros (_ & _ & _ & _ & Hfresh & _) Hx Hopen Hi Ho.
  pose proof (Hfresh c x Hx) as Hlt.
  destruct (audio_contexts_handle e s)
    as [(world & Hctx & Hi' & Ho' & _)|[(Hctx & Hi' & Ho')|[(Hctx & Hi' & Ho')
       |(d & -> & Hh & Hi' & Ho')]]]; rewrite ?Hctx, ?Hi', ?Ho'.
  - exists x. rewrite !lookup_insert_ne by lia.
    repeat split; try done; intros [= Heq]; lia.
  - exists x. rewrite !close_ref_other by done. done.
  - exists x. done.
  - eexists. split; [rewrite Hh; by apply advance_lookup|]. done.
Qed.

(** X7. A context that is open and held in neither ref is never closed:
    from any reachable state and under every sequence of events the
    browser can deliver, it stays open and stays out of the refs. *)
Theorem unreferenced_context_stays_open (es : list Event) (s : State)
    (c : nat) (x : AudioContext) :
  reachable s ->
  admissible es s = true ->
  audio_contexts s !! c = Some x -> ctx_closed x = false ->
  inputAudioContextRef s <> Some c -> outputAudioContextRef s <> Some c ->
  exists x', audio_contexts (run_events es s) !! c = Some x'
             /\ ctx_closed x' = false
             /\ inputAudioContextRef (run_events es s) <> Some c
             /\ outputAudioContextRef (run_events es s) <> Some c.
Proof.
  revert s x. induction es as [|e es IH]; intros s x Hreach Hadm Hx Hopen Hi Ho.
  - exists x. done.
  - cbn [admissible] in Hadm. apply andb_true_iff in Hadm as [Hen Hadm].
    destruct (leaked_context_step e s c x (reachable_invariant s Hreach)
                Hx Hopen Hi Ho) as (x' & Hx' & Hopen' & Hi' & Ho').
    apply (IH (handle e s) x'); try done. by apply reachable_step.
Qed.

Lemma reachable_retried_session : reachable retried_session.
Proof.
  unfold retried_session.
  do 2 (apply reachable_step; [|reflexivity]). apply reachable_initial.
Qed.

Lemma unreferenced_context_stays_open_witness :
  let s' := run_events [Onopen; Tick 3%Q; Onerror; Onclose] retried_session in
  audio_contexts retried_session !! 0%nat
  = Some (mkAudioContext INPUT_SAMPLE_RATE 0%Q false)
  /\ exists x', audio_contexts s' !! 0%nat = Some x'
                /\ ctx_closed x' = false
                /\ inputAudioContextRef s' <> Some 0%nat
                /\ outputAudioContextRef s' <> Some 0%nat.
Proof.
  intros s'. split; [reflexivity|].
  apply (unreferenced_context_stays_open [Onopen; Tick 3%Q; Onerror; Onclose]
           retried_session 0 (mkAudioContext INPUT_SAMPLE_RATE 0%Q false)).
  - apply reachable_retried_session.
  - reflexivity.
  - reflexivity.
  - reflexivity.
  - discriminate.
  - discriminate.
Defined.

(** X8. A transport error followed by the transport's close leaves the
    state the error alone leaves: status DISCONNECTED, the reconnect
    message still shown, refs, set and buffers cleared, and the history
    as it was. *)
Theorem error_then_close (s : State) :
  let s1 := run onerror s in
  run onclose s1 = s1
  /\ status s1 = DISCONNECTED
  /\ error s1 = Some "Koneksi terputus. Silakan coba lagi."
  /\ sessionRef s1 = None
  /\ inputAudioContextRef s1 = None /\ outputAudioContextRef s1 = None
  /\ sourcesRef s1 = ∅ /\ nextStartTimeRef s1 = 0%Q
  /\ currentInput s1 = "" /\ currentOutput s1 = ""
  /\ messages s1 = messages s.
Proof.
  cbv zeta. unfold run, onerror, onclose, bind, modify.
  rewrite disconnect_eq; proj. rewrite disconnect_eq; proj.
  split; [apply disconnected_idem|]. repeat split.
Qed.

Lemma handle_appends e s : exists new, messages (handle e s) = messages s ++ new.
Proof.
  destruct e as [world| |outputCtx now m| | |h|d]; unfold handle;
    try (exists []; by rewrite app_nil_r).
  - exists []. rewrite app_nil_r.
    unfold run, onClick, bind, get.
    destruct (status s); rewrite ?connect_eq, ?disconnect_eq; proj; try done;
      unfold connect_result, rejected, with_session, with_stream, acquiring;
      (destruct (getUserMedia_answer world);
       [|destruct (live_connect_answer world)]); done.
  - eexists. apply onmessage_history.
  - exists []. rewrite app_nil_r.
    unfold run, onerror, bind, modify. by rewrite disconnect_eq.
  - exists []. rewrite app_nil_r. unfold run, onclose. by rewrite disconnect_eq.
Qed.

(** X9. The conversation history is append-only: after any sequence of
    events the history is the earlier history followed by new messages;
    no event removes, reorders or changes a message, teardown included. *)
Theorem history_is_append_only (es : list Event) (s : State) :
  exists new, messages (run_events es s) = messages s ++ new.
Proof.
  revert s. induction es as [|e es IH]; intros s.
  - exists []. by rewrite app_nil_r.
  - destruct (IH (handle e s)) as (new2 & H2).
    destruct (handle_appends e s) as (new1 & H1).
    exists (new1 ++ new2).
    change (run_events (e :: es) s) with (run_events es (handle e s)).
    by rewrite H2, H1, app_assoc.
Qed.

(* ===================================================================== *)
(** ** Further properties of the history *)
(* ===================================================================== *)

Lemma string_length_append a b :
  String.length (a +:+ b) = (String.length a + String.length b)%nat.
Proof.
  induction a as [|c a IH]; [done|].
  change (S (String.length (a +:+ b)) = S (String.length a + String.length b)%nat).
  by rewrite IH.
Qed.

Lemma append_inj_r s1 s2 t : s1 +:+ t = s2 +:+ t -> s1 = s2.
Proof.
  revert s2. induction s1 as [|c s1 IH]; intros [|c2 s2] H; [done| | |].
  - apply (f_equal String.length) in H.
    change ("" +:+ t) with t in H.
    rewrite string_length_append in H. simpl in H. lia.
  - apply (f_equal String.length) in H.
    change ("" +:+ t) with t in H.
    rewrite string_length_append in H. simpl in H. lia.
  - change (String c (s1 +:+ t) = String c2 (s2 +:+ t)) in H.
    injection H as -> H. f_equal. by apply IH.
Qed.

Lemma last_char_append s t : t <> "" -> last_char (s +:+ t) = last_char t.
Proof.
  intros Ht. induction s as [|c s IH]; [done|].
  change (match last_char (s +:+ t) with
          | Some l => Some l
          | None => Some c
          end = last_char t).
  rewrite IH. destruct t as [|c' t]; [done|].
  simpl. by destruct (last_char t).
Qed.

Lemma id_of_inj a r b r' : id_of a r = id_of b r' -> a = b /\ r = r'.
Proof.
  unfold id_of. intros H.
  assert (r = r') as <-.
  { apply (f_equal last_char) in H.
    assert (Hne : forall q, match q with user => "-in" | model => "-out" end <> "")
      by by intros [].
    rewrite !last_char_append in H by apply Hne.
    destruct r, r'; first [reflexivity | cbv in H; discriminate H]. }
  split; [|done]. apply append_inj_r in H. by apply (inj pretty).
Qed.

Lemma handle_new_messages e s x :
  In x (messages (handle e s)) ->
  In x (messages s)
  \/ exists outputCtx now message,
       e = Onmessage outputCtx now message
       /\ In x (finalized now (currentInput s +:+ user_fragment message)
                              (currentOutput s +:+ model_fragment message)).
Proof.
  destruct (handle_appends e s) as (new & Hnew).
  destruct e as [world| |outputCtx now m| | |h|d];
    try (unfold handle in *;
         first [ unfold run, onClick, bind, get;
                 destruct (status s); rewrite ?connect_eq, ?disconnect_eq; proj;
                 try (by left);
                 unfold connect_result, rejected, with_session, with_stream, acquiring;
                 (destruct (getUserMedia_answer world);
                  [|destruct (live_connect_answer world)]); by left
               | unfold run, onerror, bind, modify; rewrite disconnect_eq; by left
               | unfold run, onclose; rewrite disconnect_eq; by left
               | by left ]).
  unfold handle. rewrite onmessage_history. intros [H|H]%in_app_iff; [by left|].
  right. exists outputCtx, now, m. split; [done|].
  by destruct (flag turnComplete m).
Qed.

Lemma finalized_ids now fullIn fullOut x :
  In x (finalized now fullIn fullOut) ->
  exists t, msg_id x = id_of t (msg_role x).
Proof.
  rewrite finalized_cases. intros [H|H]%in_app_iff.
  - destruct (Js.truthy (Js.trim fullIn)); [|done].
    destruct H as [<-|[]]. by exists (id_in now).
  - destruct (Js.truthy (Js.trim fullOut)); [|done].
    destruct H as [<-|[]]. by exists (id_out now).
Qed.

Lemma reachable_ids s x :
  reachable s -> In x (messages s) ->
  exists t, msg_id x = id_of t (msg_role x).
Proof.
  intros Hreach. induction Hreach as [|s e _ IH _]; [done|].
  intros [H|(outputCtx & now & m & _ & H)]%handle_new_messages; [by apply IH|].
  by eapply finalized_ids.
Qed.

(** X10. In every reachable state the id of a message of the history is
    the decimal text of a reading of the clock followed by "-in" for the
    user and "-out" for the model; that reading is a call of [Date.now()]
    of its own, not the one stored as the timestamp. Two messages with the
    same id therefore have the same role, and their ids were built from
    the same reading. *)
Theorem message_ids (s : State) (x y : Message) :
  reachable s ->
  In x (messages s) -> In y (messages s) ->
  exists tx ty : Z,
    msg_id x = pretty tx
               +:+ match msg_role x with user => "-in" | model => "-out" end
    /\ msg_id y = pretty ty
                  +:+ match msg_role y with user => "-in" | model => "-out" end
    /\ (msg_id x = msg_id y -> tx = ty /\ msg_role x = msg_role y).
Proof.
  intros Hreach Hx Hy.
  destruct (reachable_ids s x Hreach Hx) as (tx & Hidx).
  destruct (reachable_ids s y Hreach Hy) as (ty & Hidy).
  exists tx, ty. split; [exact Hidx|]. split; [exact Hidy|].
  rewrite Hidx, Hidy. apply id_of_inj.
Qed.

Lemma reachable_two_turn_session : reachable two_turn_session.
Proof.
  apply (reachable_run_events _ idle_session reachable_idle_session).
  reflexivity.
Qed.

Lemma reachable_ticking_turn_session : reachable ticking_turn_session.
Proof.
  apply (reachable_run_events _ idle_session reachable_idle_session).
  reflexivity.
Qed.

Lemma message_ids_witness :
  let x := mkMessage "1700000001000-in" user "Hello" chat 1700000001001 in
  let y := mkMessage "1700000001001-out" model "Hi." chat 1700000001002 in
  messages ticking_turn_session = [x; y]
  /\ exists tx ty : Z,
       msg_id x = pretty tx
                  +:+ match msg_role x with user => "-in" | model => "-out" end
       /\ msg_id y = pretty ty
                     +:+ match msg_role y with user => "-in" | model => "-out" end
       /\ (msg_id x = msg_id y -> tx = ty /\ msg_role x = msg_role y).
Proof.
  intros x y.
  assert (Hm : messages ticking_turn_session = [x; y]) by reflexivity.
  split; [exact Hm|].
  apply (message_ids ticking_turn_session x y reachable_ticking_turn_session).
  - rewrite Hm. left. reflexivity.
  - rewrite Hm. right. left. reflexivity.
Defined.

(* ===================================================================== *)
(** ** Further properties of the transcript buffers *)
(* ===================================================================== *)

Lemma noise_at_head c r :
  Js.noise_at (String c r) = true -> c = "<"%char \/ c = "["%char.
Proof.
  unfold Js.noise_at. intros [H|H]%orb_true_iff;
    cbn [Js.startsWith_i] in H; apply andb_true_iff in H as [H _];
    apply Ascii.eqb_eq in H; [left|right];
    destruct c as [[] [] [] [] [] [] [] []];
    first [reflexivity | cbv in H; discriminate H].
Qed.

Lemma replace_noise_no_bracket s :
  no_bracket s = true -> Js.replace_noise s = s.
Proof.
  unfold Js.replace_noise. induction s as [|c s IH]; [done|].
  cbn [no_bracket]. intros [[Hlt Hbr]%andb_true_iff Hs]%andb_true_iff.
  cbn [Js.replace_noise_from].
  destruct (Js.noise_at (String c s)) eqn:E.
  - apply noise_at_head in E as [-> | ->]; discriminate.
  - by rewrite (IH Hs).
Qed.

(** X11. A user fragment that contains neither '<' nor '[' is appended to
    the user buffer trimmed of white space at both ends and otherwise
    unchanged: noise stripping removes nothing from it. *)
Theorem plain_user_fragment (outputCtx : nat) (now : DateNow) (t : string) (s : State) :
  no_bracket t = true ->
  currentInput (run (onmessage outputCtx now (fragment user t)) s)
  = currentInput s +:+ Js.trim t.
Proof.
  intros Hplain.
  pose proof (onmessage_buffers outputCtx now (fragment user t) s) as Hb.
  change (flag turnComplete (fragment user t)) with false in Hb.
  cbv zeta in Hb. destruct Hb as (-> & _).
  change (user_fragment (fragment user t))
    with (Js.trim (Js.replace_noise (Js.or_empty (Some t)))).
  by rewrite or_empty_Some, replace_noise_no_bracket.
Qed.

Lemma plain_user_fragment_witness :
  currentInput
    (run (onmessage 1 (clock_at 0) (fragment user "  it's 5 > 3  ")) idle_session)
  = "it's 5 > 3".
Proof.
  exact (plain_user_fragment 1 (clock_at 0) "  it's 5 > 3  " idle_session eq_refl).
Defined.

Lemma trimStart_length s : (String.length (Js.trimStart s) <= String.length s)%nat.
Proof.
  induction s as [|c s IH]; [done|]. cbn [Js.trimStart].
  destruct (Js.is_white_space c); simpl; lia.
Qed.

Lemma trimStart_fixed c r :
  Js.trimStart (String c r) = String c r -> Js.is_white_space c = false.
Proof.
  cbn [Js.trimStart]. destruct (Js.is_white_space c); [|done].
  intros H. pose proof (trimStart_length r) as Hlen.
  rewrite H in Hlen. simpl in Hlen. lia.
Qed.

Lemma trimEnd_idem s : Js.trimEnd (Js.trimEnd s) = Js.trimEnd s.
Proof.
  induction s as [|c s IH]; [done|]. cbn [Js.trimEnd].
  destruct (Js.trimEnd s) as [|c' e] eqn:E.
  - destruct (Js.is_white_space c) eqn:Hc; [done|].
    cbn [Js.trimEnd]. by rewrite Hc.
  - cbn [Js.trimEnd] in *. by rewrite IH.
Qed.

Lemma trimEnd_keeps_head c r :
  Js.is_white_space c = false -> exists r', Js.trimEnd (String c r) = String c r'.
Proof.
  intros Hc. cbn [Js.trimEnd]. rewrite Hc.
  destruct (Js.trimEnd r); eauto.
Qed.

Lemma trim_clean s : clean (Js.trim s).
Proof.
  unfold clean, Js.trim. split; [|apply trimEnd_idem].
  destruct (Js.trimStart s) as [|c r] eqn:E; [done|].
  destruct (trimEnd_keeps_head c r (trimStart_head s c r E)) as (r' & ->).
  cbn [Js.trimStart]. by rewrite (trimStart_head s c r E).
Qed.

Lemma trimEnd_append a b :
  Js.trimEnd b <> "" -> Js.trimEnd (a +:+ b) = a +:+ Js.trimEnd b.
Proof.
  intros Hb. induction a as [|c a IH]; [done|].
  change (Js.trimEnd (String c (a +:+ b)) = String c (a +:+ Js.trimEnd b)).
  cbn [Js.trimEnd]. rewrite IH.
  destruct a as [|c' a]; [|done].
  change ("" +:+ Js.trimEnd b) with (Js.trimEnd b).
  by destruct (Js.trimEnd b).
Qed.

Lemma clean_append a b : clean a -> clean b -> clean (a +:+ b).
Proof.
  intros [Ha1 Ha2] [Hb1 Hb2]. split.
  - destruct a as [|c r]; [exact Hb1|].
    change (Js.trimStart (String c (r +:+ b)) = String c (r +:+ b)).
    cbn [Js.trimStart]. by rewrite (trimStart_fixed c r Ha1).
  - destruct b as [|c r]; [by rewrite append_empty_r|].
    rewrite trimEnd_append; [by rewrite Hb2|]. by rewrite Hb2.
Qed.

Lemma clean_user_fragment m : clean (user_fragment m).
Proof.
  unfold user_fragment.
  destruct (opt outputTranscription m); [done|].
  destruct (opt inputTranscription m); [apply trim_clean|done].
Qed.

Lemma finalized_user_text now fullIn fullOut x :
  In x (finalized now fullIn fullOut) -> msg_role x = user ->
  msg_text x = fullIn /\ fullIn <> "".
Proof.
  rewrite finalized_cases. intros [H|H]%in_app_iff Hrole.
  - destruct (Js.truthy (Js.trim fullIn)) eqn:E; [|done].
    destruct H as [<-|[]]. split; [done|]. intros ->. done.
  - destruct (Js.truthy (Js.trim fullOut)); [|done].
    by destruct H as [<-|[]].
Qed.

Lemma currentInput_handle e s :
  clean (currentInput s) -> clean (currentInput (handle e s)).
Proof.
  intros Hc. destruct e as [world| |outputCtx now m| | |h|d]; unfold handle; try exact Hc.
  - unfold run, onClick, bind, get.
    destruct (status s); rewrite ?connect_eq, ?disconnect_eq; proj;
      try exact Hc; try done;
      unfold connect_result, rejected, with_session, with_stream, acquiring;
      (destruct (getUserMedia_answer world);
       [|destruct (live_connect_answer world)]); exact Hc.
  - pose proof (onmessage_buffers outputCtx now m s) as Hb. cbv zeta in Hb.
    destruct (flag turnComplete m); destruct Hb as (-> & _); [done|].
    apply clean_append; [exact Hc|apply clean_user_fragment].
  - unfold run, onerror, bind, modify. by rewrite disconnect_eq.
  - unfold run, onclose. by rewrite disconnect_eq.
Qed.

(** X12. In every reachable state the user buffer has no white space at
    either end, and every user-role message of the history has a text that
    is not empty and has no white space at either end. *)
Theorem user_text_is_trimmed (s : State) :
  reachable s ->
  (Js.trimStart (currentInput s) = currentInput s
   /\ Js.trimEnd (currentInput s) = currentInput s)
  /\ forall x, In x (messages s) -> msg_role x = user ->
       msg_text x <> ""
       /\ Js.trimStart (msg_text x) = msg_text x
       /\ Js.trimEnd (msg_text x) = msg_text x.
Proof.
  induction 1 as [|s e _ [IHc IHm] _]; [by split|].
  split; [by apply currentInput_handle|].
  intros x [Hx|(outputCtx & now & m & _ & Hx)]%handle_new_messages Hrole; [by apply IHm|].
  destruct (finalized_user_text _ _ _ x Hx Hrole) as (-> & Hne).
  split; [exact Hne|]. apply clean_append; [exact IHc|apply clean_user_fragment].
Qed.

Lemma user_text_is_trimmed_witness :
  let x := mkMessage "1700000001000-in" user "Hello" chat 1700000001000 in
  In x (messages two_turn_session)
  /\ msg_text x <> ""
  /\ Js.trimStart (msg_text x) = msg_text x
  /\ Js.trimEnd (msg_text x) = msg_text x.
Proof.
  intros x.
  assert (Hin : In x (messages two_turn_session)) by (left; reflexivity).
  split; [exact Hin|].
  exact (proj2 (user_text_is_trimmed two_turn_session reachable_two_turn_session)
           x Hin eq_refl).
Defined.

(* ===================================================================== *)
(** ** A message and its parts *)
(* ===================================================================== *)

Lemma transcript_part_run outputCtx now m s :
  run (onmessage outputCtx now (transcript_part m)) s = run (on_transcription m) s.
Proof.
  unfold run at 1. rewrite onmessage_eq, on_audio_eq.
  change (opt inlineData (transcript_part m)) with (@None string).
  cbv beta iota. rewrite on_interrupted_eq. reflexivity.
Qed.

Lemma turn_part_run outputCtx now m s :
  run (onmessage outputCtx now (turn_part m)) s = run (on_turnComplete now m) s.
Proof.
  unfold run at 1. rewrite onmessage_eq, on_audio_eq.
  change (opt inlineData (turn_part m)) with (@None string).
  cbv beta iota. rewrite on_interrupted_eq. reflexivity.
Qed.

Lemma audio_part_run outputCtx now m s :
  run (onmessage outputCtx now (audio_part m)) s = snd (on_audio outputCtx m s).
Proof.
  unfold run at 1. rewrite onmessage_eq.
  change (run (on_turnComplete now (audio_part m))
            (run (on_transcription (audio_part m)) s)) with s.
  change (on_audio outputCtx (audio_part m) s) with (on_audio outputCtx m s).
  destruct (on_audio outputCtx m s) as [[[]| |err] s3]; [|reflexivity..].
  rewrite on_interrupted_eq. reflexivity.
Qed.

Lemma interrupt_part_run outputCtx now m s :
  run (onmessage outputCtx now (interrupt_part m)) s = snd (on_interrupted m s).
Proof.
  unfold run at 1. rewrite onmessage_eq, on_audio_eq.
  change (opt inlineData (interrupt_part m)) with (@None string).
  cbv beta iota.
  change (run (on_turnComplete now (interrupt_part m))
            (run (on_transcription (interrupt_part m)) s)) with s.
  reflexivity.
Qed.

(** X13. A message that carries several parts and whose handler completes
    normally leaves exactly the state that its parts leave when they
    arrive as four messages in the order the handler treats them:
    transcript fragment, end-of-turn marker, audio chunk, interruption
    marker. *)
Theorem message_as_its_parts (outputCtx : nat) (now : DateNow)
    (message : LiveServerMessage) (s : State) :
  fst (onmessage outputCtx now message s) = Normal tt ->
  run (onmessage outputCtx now message) s
  = run_events [Onmessage outputCtx now (transcript_part message);
                Onmessage outputCtx now (turn_part message);
                Onmessage outputCtx now (audio_part message);
                Onmessage outputCtx now (interrupt_part message)] s.
Proof.
  intros Hnormal.
  change (run_events _ s)
    with (run (onmessage outputCtx now (interrupt_part message))
            (run (onmessage outputCtx now (audio_part message))
               (run (onmessage outputCtx now (turn_part message))
                  (run (onmessage outputCtx now (transcript_part message)) s)))).
  rewrite transcript_part_run, turn_part_run, audio_part_run, interrupt_part_run.
  unfold run at 1. revert Hnormal. rewrite onmessage_eq.
  destruct (on_audio outputCtx message
              (run (on_turnComplete now message)
                 (run (on_transcription message) s))) as [[[]| |err] s3];
    [reflexivity|discriminate..].
Qed.

Lemma message_as_its_parts_witness :
  run (onmessage 1 (clock_at 7) full_message) idle_session
  = run_events [Onmessage 1 (clock_at 7) (transcript_part full_message);
                Onmessage 1 (clock_at 7) (turn_part full_message);
                Onmessage 1 (clock_at 7) (audio_part full_message);
                Onmessage 1 (clock_at 7) (interrupt_part full_message)] idle_session.
Proof.
  exact (message_as_its_parts 1 (clock_at 7) full_message idle_session eq_refl).
Defined.

(* ===================================================================== *)
(** ** The transcript view *)
(* ===================================================================== *)

Lemma reachable_types s x :
  reachable s -> In x (messages s) ->
  msg_type x = match msg_role x with
               | user => chat
               | model => if isCorrection (msg_text x) then correction else chat
               end.
Proof.
  intros Hreach. induction Hreach as [|s e _ IH _]; [done|].
  intros [H|(outputCtx & now & m & _ & H)]%handle_new_messages; [by apply IH|].
  apply finalized_types in H as [(-> & _ & ->)|(-> & -> & ->)]; reflexivity.
Qed.

Lemma bubbleClass_correction msg :
  Transcript.bubbleClass msg = Transcript.correction_bubble
  <-> Transcript.isCorrection msg = true.
Proof.
  unfold Transcript.bubbleClass.
  destruct (Transcript.isCorrection msg); [done|].
  destruct (msg_role msg); split; discriminate.
Qed.

(** X14. The view and the history agree on corrections for the model: in
    every reachable state a model-role message is drawn with the amber
    correction bubble exactly when its stored type is correction. A
    user-role message always has type chat, and is drawn with the
    correction bubble exactly when its text contains one of the markers. *)
Theorem view_agrees_with_type (s : State) (x : Message) :
  reachable s ->
  In x (messages s) ->
  (msg_role x = model ->
     (Transcript.bubble (Transcript.renderMessage x) = Transcript.correction_bubble
      <-> msg_type x = correction))
  /\ (msg_role x = user ->
        msg_type x = chat
        /\ (Transcript.bubble (Transcript.renderMessage x)
            = Transcript.correction_bubble
            <-> Js.includes (Js.toLowerCase (msg_text x)) "correction:"
                || Js.includes (Js.toLowerCase (msg_text x)) "tip:" = true)).
Proof.
  intros Hreach Hin. pose proof (reachable_types s x Hreach Hin) as Hty.
  cbn [Transcript.renderMessage Transcript.bubble].
  split; intros Hrole; rewrite Hrole in Hty.
  - rewrite bubbleClass_correction, Hty.
    change (Transcript.isCorrection x) with (isCorrection (msg_text x)).
    destruct (isCorrection (msg_text x)); split; done.
  - split; [exact Hty|]. apply bubbleClass_correction.
Qed.

Lemma view_agrees_with_type_witness :
  let x := mkMessage "1700000001000-out" model "Hi. Tip: say hello." correction
             1700000001000 in
  In x (messages two_turn_session)
  /\ (Transcript.bubble (Transcript.renderMessage x) = Transcript.correction_bubble
      <-> msg_type x = correction).
Proof.
  intros x.
  assert (Hin : In x (messages two_turn_session)) by (right; left; reflexivity).
  split; [exact Hin|].
  exact (proj1 (view_agrees_with_type two_turn_session x
                  reachable_two_turn_session Hin) eq_refl).
Defined.

Lemma split_lines_nonempty s : Transcript.split_lines s <> [].
Proof.
  destruct s as [|c r]; [done|]. cbn [Transcript.split_lines].
  destruct (Ascii.eqb c "010"); [done|].
  by destruct (Transcript.split_lines r).
Qed.

(** X15. The paragraphs of a bubble lose nothing: the lines into which a
    message text is split, joined again with a line feed between them, are
    the text; there is one line more than the text has line feeds (so at
    least one); and as many paragraphs are drawn as there are lines. *)
Theorem paragraphs_round_trip (msg : Message) :
  Transcript.join (String "010" "") (Transcript.split_lines (msg_text msg))
  = msg_text msg
  /\ length (Transcript.split_lines (msg_text msg)) = S (line_feeds (msg_text msg))
  /\ map snd (Transcript.paragraphs (Transcript.renderMessage msg))
     = Transcript.split_lines (msg_text msg).
Proof.
  cbn [Transcript.renderMessage Transcript.paragraphs].
  generalize (msg_text msg). intros s. split; [|split].
  - induction s as [|c r IH]; [done|]. cbn [Transcript.split_lines].
    pose proof (split_lines_nonempty r) as Hne.
    destruct (Ascii.eqb c "010") eqn:E.
    + apply Ascii.eqb_eq in E as ->.
      destruct (Transcript.split_lines r) as [|h t]; [done|].
      change (Transcript.join (String "010" "") ("" :: h :: t))
        with (String "010" (Transcript.join (String "010" "") (h :: t))).
      by rewrite IH.
    + destruct (Transcript.split_lines r) as [|h t]; [done|].
      destruct t as [|h2 t].
      * cbn [Transcript.join] in *. by rewrite IH.
      * change (Transcript.join (String "010" "") (String c h :: h2 :: t))
          with (String c (Transcript.join (String "010" "") (h :: h2 :: t))).
        by rewrite IH.
  - induction s as [|c r IH]; [done|]. cbn [Transcript.split_lines line_feeds].
    pose proof (split_lines_nonempty r) as Hne.
    destruct (Ascii.eqb c "010").
    + cbn [length]. rewrite IH. lia.
    + destruct (Transcript.split_lines r) as [|h t]; [done|].
      cbn [length] in *. lia.
  - generalize (Transcript.split_lines s) 0%nat.
    intros l. induction l as [|p l IH]; intros i; [done|].
    cbn [Transcript.numbered map snd]. by rewrite IH.
Qed.

(* ===================================================================== *)
(** ** The grammar-ladder indicator *)
(* ===================================================================== *)

Lemma toLowerCase_truthy a b :
  Js.toLowerCase a = Js.toLowerCase b -> Js.truthy a = Js.truthy b.
Proof. by destruct a, b. Qed.

Lemma tense_after_Present changes tense :
  tense_after changes tense = Present -> tense = Present \/ In TenseReset changes.
Proof.
  revert tense. induction changes as [|c changes IH]; intros tense; [by left|].
  change (tense_after (c :: changes) tense)
    with (tense_after changes (tense_step tense c)).
  intros [H|H]%IH; [|right; by right].
  destruct c as [o|]; [|right; by left].
  left. revert H. unfold tense_step, detect_tense.
  destruct (Js.truthy o); [|done]. cbv zeta.
  destruct (_ || _); [discriminate|].
  destruct (_ || _); [discriminate|done].
Qed.

(** X16. The tense indicator. One run of the detection effect depends
    only on the lower-case form of the text; it gives Past when the text
    contains any of the four past keywords, whatever else it contains,
    otherwise Future when it contains any of the four future keywords,
    and otherwise leaves the tense as it is. Over any sequence of effect
    runs and disconnects, the indicator is Present only if it started
    Present or a disconnect took place, it is Present right after a
    disconnect, and the step shown is always 1, 2 or 3. *)
Theorem tense_detection (a b : string) (tense : GrammarTense)
    (changes : list TenseChange) :
  Js.toLowerCase a = Js.toLowerCase b ->
  detect_tense a tense = detect_tense b tense
  /\ detect_tense a tense
     = (if mentions a past_keywords then Past
        else if mentions a future_keywords then Future
        else tense)
  /\ (tense_after changes tense = Present ->
      tense = Present \/ In TenseReset changes)
  /\ tense_after (changes ++ [TenseReset]) tense = Present
  /\ 1 <= getTenseStep (tense_after changes tense) <= 3.
Proof.
  intros Hlow. split; [|split; [|split; [|split]]].
  - unfold detect_tense. by rewrite (toLowerCase_truthy a b Hlow), Hlow.
  - unfold detect_tense, mentions, past_keywords, future_keywords.
    cbn [existsb]. rewrite !orb_false_r, !orb_assoc.
    destruct a as [|c r]; [reflexivity|]. reflexivity.
  - apply tense_after_Present.
  - unfold tense_after. by rewrite fold_left_app.
  - by destruct (tense_after changes tense).
Qed.

Lemma tense_detection_witness :
  detect_tense "What HAPPENED? Will you go tomorrow?" Future
  = detect_tense "what happened? will you go tomorrow?" Future
  /\ detect_tense "What HAPPENED? Will you go tomorrow?" Future = Past
  /\ tense_after [OutputChanged "Did you like it?"; TenseReset;
                  OutputChanged "Tell me more."] Present = Present.
Proof.
  destruct (tense_detection "What HAPPENED? Will you go tomorrow?"
              "what happened? will you go tomorrow?" Future [] eq_refl)
    as (H1 & H2 & _).
  split; [exact H1|]. split; [exact H2|reflexivity].
Defined.

(* ===================================================================== *)
(** ** The spectrum bars *)
(* ===================================================================== *)

Lemma bars_lookup barWidth height dataArray x0 i r :
  Visualizer.bars barWidth height x0 dataArray !! i = Some r ->
  exists d, dataArray !! i = Some d
    /\ (Visualizer.rect_x r == x0 + inject_Z (Z.of_nat i) * (barWidth + 1))%Q
    /\ Visualizer.rect_w r = barWidth
    /\ Visualizer.rect_h r = ((inject_Z d / 255) * height)%Q
    /\ Visualizer.rect_y r = (height - Visualizer.rect_h r)%Q.
Proof.
  revert x0 i. induction dataArray as [|d rest IH]; intros x0 i; [done|].
  cbn [Visualizer.bars]. destruct i as [|i].
  - intros [= <-]. exists d. cbn. repeat split; try done. ring.
  - intros H. change (Visualizer.bars barWidth height (x0 + (barWidth + 1))%Q rest
                        !! i = Some r) in H.
    destruct (IH _ _ H) as (d' & Hd & Hx & Hw & Hh & Hy).
    exists d'. split; [exact Hd|]. split; [|done].
    rewrite Hx. rewrite Nat2Z.inj_succ. unfold Z.succ. rewrite inject_Z_plus.
    ring.
Qed.

Lemma bars_length barWidth height x0 dataArray :
  length (Visualizer.bars barWidth height x0 dataArray) = length dataArray.
Proof.
  revert x0. induction dataArray as [|d rest IH]; intros x0; [done|].
  cbn [Visualizer.bars length]. by rewrite IH.
Qed.

(** X17. One frame of the spectrum on a canvas of non-negative size, for
    frequency bytes in 0..255: one bar is drawn per bin; bar [i] starts at
    [i * (barWidth + 1)], so consecutive bars are one unit apart; every
    bar stands on the bottom edge and is no taller than the canvas; and
    every bar whose index is at least two fifths of the number of bins
    lies entirely to the right of the canvas. *)
Theorem spectrum_bars (width height : Q) (dataArray : list Z) (i : nat)
    (r : Visualizer.Rect) :
  (0 <= width)%Q -> (0 <= height)%Q ->
  Forall (fun d => 0 <= d <= 255) dataArray ->
  Visualizer.draw width height dataArray !! i = Some r ->
  let barWidth := ((width / inject_Z (Z.of_nat (length dataArray))) * (5 # 2))%Q in
  length (Visualizer.draw width height dataArray) = length dataArray
  /\ (Visualizer.rect_x r == inject_Z (Z.of_nat i) * (barWidth + 1))%Q
  /\ Visualizer.rect_w r = barWidth
  /\ (0 <= Visualizer.rect_h r <= height)%Q
  /\ (Visualizer.rect_y r + Visualizer.rect_h r == height)%Q
  /\ (0 <= Visualizer.rect_y r)%Q
  /\ ((2 * length dataArray <= 5 * i)%nat -> (width <= Visualizer.rect_x r)%Q).
Proof.
  intros Hw Hh Hbytes Hr barWidth. unfold Visualizer.draw in *.
  fold barWidth in Hr |- *.
  split; [apply bars_length|].
  destruct (bars_lookup _ _ _ _ _ _ Hr) as (d & Hd & Hx & Hrw & Hrh & Hry).
  assert (Hdr : 0 <= d <= 255).
  { rewrite Forall_forall in Hbytes. apply Hbytes.
    by eapply list_elem_of_lookup_2. }
  assert (Hu : (0 <= inject_Z d / 255 <= 1)%Q).
  { unfold Qdiv. change (/ 255)%Q with (1 # 255)%Q.
    assert (H0 : (inject_Z 0 <= inject_Z d)%Q) by (rewrite <- Zle_Qle; lia).
    assert (H1 : (inject_Z d <= inject_Z 255)%Q) by (rewrite <- Zle_Qle; lia).
    change (inject_Z 0) with 0%Q in H0. change (inject_Z 255) with 255%Q in H1.
    split; lra. }
  assert (Hhh : (0 <= Visualizer.rect_h r <= height)%Q).
  { rewrite Hrh. destruct Hu as [Hu0 Hu1]. split; nra. }
  split; [by rewrite Hx, Qplus_0_l|]. split; [exact Hrw|].
  split; [exact Hhh|]. split; [rewrite Hry; ring|].
  split; [rewrite Hry; destruct Hhh; lra|].
  intros Hfar. rewrite Hx, Qplus_0_l.
  assert (Hi : (i < length dataArray)%nat) by by eapply lookup_lt_Some.
  set (N := inject_Z (Z.of_nat (length dataArray))) in *.
  set (I := inject_Z (Z.of_nat i)) in *.
  assert (HN : (0 < N)%Q).
  { unfold N. change 0%Q with (inject_Z 0). rewrite <- Zlt_Qlt. lia. }
  assert (HI : (2 * N <= 5 * I)%Q).
  { unfold N, I. change 2%Q with (inject_Z 2). change 5%Q with (inject_Z 5).
    rewrite <- !inject_Z_mult, <- Zle_Qle. lia. }
  set (q := (width / N)%Q) in *.
  assert (Hq : (width == q * N)%Q).
  { unfold q. field. intros H0. rewrite H0 in HN. by apply Qlt_irrefl in HN. }
  assert (Hq0 : (0 <= q)%Q).
  { unfold q. apply Qle_shift_div_l; [exact HN|]. by rewrite Qmult_0_l. }
  unfold barWidth. fold q. rewrite Hq at 1. nra.
Qed.

Lemma spectrum_bars_witness :
  let r := Visualizer.mkRect (3 * ((400 / inject_Z 4) * (5 # 2) + 1))%Q
             (80 - (inject_Z 51 / 255) * 80)%Q
             ((400 / inject_Z 4) * (5 # 2))%Q
             ((inject_Z 51 / 255) * 80)%Q in
  (Visualizer.rect_y r + Visualizer.rect_h r == 80)%Q
  /\ (0 <= Visualizer.rect_h r <= 80)%Q
  /\ (400 <= Visualizer.rect_x r)%Q.
Proof.
  intros r.
  assert (Hr : exists r', Visualizer.draw 400 80 [255; 0; 128; 51] !! 3%nat = Some r'
                          /\ (Visualizer.rect_x r' == Visualizer.rect_x r)%Q
                          /\ Visualizer.rect_y r' = Visualizer.rect_y r
                          /\ Visualizer.rect_h r' = Visualizer.rect_h r).
  { eexists. split; [reflexivity|]. split; [|split]; reflexivity. }
  destruct Hr as (r' & Hr' & Hx & Hy & Hh).
  destruct (spectrum_bars 400 80 [255; 0; 128; 51] 3 r') as (_ & _ & _ & H4 & H5 & _ & H7).
  - discriminate.
  - discriminate.
  - repeat constructor; lia.
  - exact Hr'.
  - rewrite Hy, Hh in H5. rewrite Hh in H4. rewrite <- Hx.
    split; [exact H5|]. split; [exact H4|]. apply H7. simpl. lia.
Defined.

(* ===================================================================== *)
(** ** The earlier variant of the transcript handler *)
(* ===================================================================== *)

(** X18. On a message whose transcriptions all carry a text, the earlier
    variant of the transcript handler and the current one do the same. *)
Theorem earlier_variant_agrees (message : LiveServerMessage) (s : State) :
  (forall tr, opt outputTranscription message = Some tr -> is_Some (tr_text tr)) ->
  (forall tr, opt inputTranscription message = Some tr -> is_Some (tr_text tr)) ->
  Earlier.on_transcription message s = on_transcription message s.
Proof.
  intros Hout Hin. unfold Earlier.on_transcription, on_transcription.
  destruct (opt outputTranscription message) as [tr|].
  - destruct (Hout tr eq_refl) as [t Ht]. by rewrite Ht, or_empty_Some.
  - destruct (opt inputTranscription message) as [tr|]; [|done].
    destruct (Hin tr eq_refl) as [t Ht]. by rewrite Ht, or_empty_Some.
Qed.

Lemma earlier_variant_agrees_witness :
  Earlier.on_transcription (fragment user " [noise] ok ") initial_state
  = on_transcription (fragment user " [noise] ok ") initial_state.
Proof.
  apply (earlier_variant_agrees (fragment user " [noise] ok ") initial_state).
  - intros tr H. discriminate H.
  - intros tr [= <-]. by eexists.
Defined.

(** X19. On a transcription without a text the two variants differ. For
    the model the earlier variant appends the text "undefined" to the
    model buffer, the current one appends nothing. For the user the
    earlier variant throws a TypeError before anything else of the message
    is handled, the current one completes and changes nothing. *)
Theorem earlier_variant_without_text (s : State)
    (input : option Transcription) (tc : bool) (data : option string) (i : bool) :
  let from_model :=
    mkLiveServerMessage
      (Some (mkServerContent (Some (mkTranscription None)) input tc data i)) in
  let from_user :=
    mkLiveServerMessage
      (Some (mkServerContent None (Some (mkTranscription None)) tc data i)) in
  currentOutput (run (Earlier.on_transcription from_model) s)
  = currentOutput s +:+ "undefined"
  /\ currentOutput (run (on_transcription from_model) s) = currentOutput s
  /\ Earlier.on_transcription from_user s = (Throw (ErrorObject "TypeError"), s)
  /\ on_transcription from_user s = (Normal tt, s).
Proof.
  cbv zeta. split; [reflexivity|]. split; [|split; reflexivity].
  unfold run, on_transcription; cbn [opt serverContent outputTranscription].
  unfold modify; proj. cbn [tr_text Js.or_empty]. apply append_empty_r.
Qed.

(* ===================================================================== *)
(** ** Reseeding the cursor *)
(* ===================================================================== *)

Lemma clock_handle e s :
  enabled e s = true ->
  (forall c, 0 <= time_of (audio_contexts s) c)%Q ->
  forall c, (0 <= time_of (audio_contexts (handle e s)) c)%Q.
Proof.
  intros Hen Hpos c.
  destruct (audio_contexts_handle e s)
    as [(world & Hctx & _)|[(Hctx & _)|[(Hctx & _)|(d & -> & Hh & _)]]];
    rewrite ?Hctx.
  - unfold time_of.
    destruct (decide (S (next_object s) = c)) as [<-|Hne1];
      [by rewrite lookup_insert_eq|rewrite lookup_insert_ne by done].
    destruct (decide (next_object s = c)) as [<-|Hne2];
      [by rewrite lookup_insert_eq|rewrite lookup_insert_ne by done].
    apply Hpos.
  - rewrite !time_of_close_ref. apply Hpos.
  - apply Hpos.
  - eapply Qle_trans; [apply Hpos|]. rewrite Hh. apply time_of_advance.
    by apply Qle_bool_iff.
Qed.

Lemma reachable_clock s c :
  reachable s -> (0 <= time_of (audio_contexts s) c)%Q.
Proof.
  intros Hreach. revert c. induction Hreach as [|s e _ IH Hen]; [done|].
  by apply clock_handle.
Qed.

(** X20. After an interruption the cursor is reseeded from the clock: in
    a reachable state with an output context, an interruption followed by
    a chunk that decodes, both delivered to the handler installed together
    with that context (its analyser belongs to it), leaves the set holding
    that one new source, started exactly at the current time of the output
    context, with the cursor at that time plus the chunk's duration. *)
Theorem chunk_after_interruption (now1 now2 : DateNow) (s : State) (c : nat)
    (d : string) (b : AudioUtils.AudioBuffer) :
  reachable s ->
  outputAudioContextRef s = Some c ->
  Js.truthy d = true -> decode_chunk d = Some b ->
  let clock := time_of (audio_contexts s) c in
  let s' := run_events [Onmessage c now1 interruption;
                        Onmessage c now2 (audio_chunk d)] s in
  sourcesRef s' = {[next_object s]}
  /\ (exists n, source_nodes s' !! next_object s = Some n
                /\ node_context n = c /\ buffer n = Some b
                /\ started n = Some clock /\ stopped n = None)
  /\ nextStartTimeRef s' = (clock + AudioUtils.duration b)%Q.
Proof.
  intros Hreach Hc Ht Hd clock s'. subst s'.
  change (run_events _ s)
    with (handle (Onmessage c now2 (audio_chunk d))
            (handle (Onmessage c now1 interruption) s)).
  assert (Hint : handle (Onmessage c now1 interruption) s
                 = set_nextStartTimeRef 0%Q
                     (set_sourcesRef ∅
                        (set_source_nodes
                           (stop_all (audio_contexts s) (elements (sourcesRef s))
                                     (source_nodes s)) s))).
  { unfold handle, run. rewrite onmessage_eq, on_audio_eq.
    change (opt inlineData interruption) with (@None string). cbv beta iota.
    change (run (on_turnComplete now1 interruption)
              (run (on_transcription interruption) s)) with s.
    rewrite on_interrupted_eq. reflexivity. }
  rewrite Hint.
  rewrite (handle_audio_chunk now2 d _ c b); [|exact Hc|exact Ht|exact Hd]. proj.
  assert (Hmax : Math_max 0 (time_of (audio_contexts s) c) = clock).
  { unfold Math_max.
    assert (Qle_bool 0 (time_of (audio_contexts s) c) = true) as ->; [|done].
    apply Qle_bool_iff. by apply reachable_clock. }
  rewrite Hmax. unfold scheduled; proj.
  split; [apply leibniz_equiv; apply union_empty_r|].
  split; [|reflexivity].
  eexists. split; [apply lookup_insert_eq|]. done.
Qed.

Lemma chunk_after_interruption_witness :
  let s' := run_events [Onmessage 1 (clock_at 0) interruption;
                        Onmessage 1 (clock_at 0) (audio_chunk "AQD/fw==")] playing_session in
  sourcesRef s' = {[next_object playing_session]}
  /\ (exists n, source_nodes s' !! next_object playing_session = Some n
                /\ node_context n = 1%nat
                /\ buffer n = Some (AudioUtils.mkAudioBuffer
                                      [(1 # 32767)%Q; (32767 # 32767)%Q] 24000)
                /\ started n = Some (time_of (audio_contexts playing_session) 1)
                /\ stopped n = None)
  /\ nextStartTimeRef s'
     = (time_of (audio_contexts playing_session) 1
        + AudioUtils.duration (AudioUtils.mkAudioBuffer
                                 [(1 # 32767)%Q; (32767 # 32767)%Q] 24000))%Q.
Proof.
  exact (chunk_after_interruption (clock_at 0) (clock_at 0) playing_session 1 "AQD/fw=="
           (AudioUtils.mkAudioBuffer [(1 # 32767)%Q; (32767 # 32767)%Q] 24000)
           reachable_playing_session eq_refl eq_refl eq_refl).
Defined.

(* ===================================================================== *)
(** ** Scheduling a chunk *)
(* ===================================================================== *)







(** X21. A chunk delivered to the handler of an earlier connect is never
    scheduled. When the analyser the handler closes over belongs to a
    context other than the one in the ref, a chunk that decodes makes the
    handler end with an InvalidAccessError at line 202: the set of sources
    is as before (even if the message carries the interruption marker),
    the cursor is left at the larger of cursor and clock without the
    duration added, and the source created at line 200 holds the buffer
    but is never started, so it never plays. *)
Theorem stale_handler_never_schedules (outputCtx : nat) (now : DateNow)
    (message : LiveServerMessage) (s : State) (base64Audio : string)
    (audioCtx : nat) (b : AudioUtils.AudioBuffer) :
  opt inlineData message = Some base64Audio ->
  Js.truthy base64Audio = true ->
  outputAudioContextRef s = Some audioCtx ->
  decode_chunk base64Audio = Some b ->
  outputCtx <> audioCtx ->
  let s' := run (onmessage outputCtx now message) s in
  fst (onmessage outputCtx now message s) = Throw (ErrorObject "InvalidAccessError")
  /\ sourcesRef s' = sourcesRef s
  /\ nextStartTimeRef s'
     = Math_max (nextStartTimeRef s) (time_of (audio_contexts s) audioCtx)
  /\ source_nodes s'
     = <[next_object s := mkSourceNode audioCtx (Some b) None None]> (source_nodes s)
  /\ next_object s' = S (next_object s)
  /\ (forall t, playing (mkSourceNode audioCtx (Some b) None None) t = false).
Proof.
  intros Hd Htruthy Hctx Hdec Hne s'. subst s'. unfold run.
  pose proof (transcript_phases_scheduler now message s) as Hsame.
  rewrite onmessage_eq, on_audio_eq, Hd, Htruthy.
  revert Hsame.
  generalize (run (on_turnComplete now message) (run (on_transcription message) s)).
  intros s2 (_ & _ & _ & Ho & Hsrc & Hcur & _ & Hnext & Hctxs & Hnodes & _).
  rewrite Ho, Hctx, Hdec. cbv zeta.
  assert (Nat.eqb audioCtx outputCtx = false) as ->.
  { apply Nat.eqb_neq. intros ->. by apply Hne. }
  unfold unconnected; proj. rewrite Hsrc, Hcur, Hctxs, Hnodes, Hnext.
  repeat split.
Qed.

Lemma stale_handler_never_schedules_witness :
  let s' := run (onmessage 1 (clock_at 0) (audio_chunk "AQD/fw=="))
              double_connect_session in
  fst (onmessage 1 (clock_at 0) (audio_chunk "AQD/fw==") double_connect_session)
  = Throw (ErrorObject "InvalidAccessError")
  /\ sourcesRef s' = sourcesRef double_connect_session
  /\ nextStartTimeRef s'
     = Math_max (nextStartTimeRef double_connect_session)
                (time_of (audio_contexts double_connect_session) 7).
Proof.
  destruct (stale_handler_never_schedules 1 (clock_at 0) (audio_chunk "AQD/fw==")
              double_connect_session "AQD/fw==" 7
              (AudioUtils.mkAudioBuffer [(1 # 32767)%Q; (32767 # 32767)%Q] 24000)
              eq_refl eq_refl eq_refl eq_refl)
    as (H1 & H2 & H3 & _).
  - discriminate.
  - split; [exact H1|]. split; [exact H2|exact H3].
Defined.
